(** * Track-changes extension: attribution map, history state, revert, highlight

    A shallow embedding of [src/trackChangesPlugin.ts] (the blame map, the
    [TrackState] transitions and the highlight plugin) and of the command file
    that holds [revertCommit], together with the parts of
    [prosemirror-transform] those two files call: [StepMap], [Mapping],
    [ReplaceStep] and [Transform], written after the library's methods of
    the same names.

    Numbers are [Z]; array indices and lengths are [nat]; a JavaScript array
    that the code mutates is a list that the embedded function returns; the
    identity of a [Commit] object is a number [ref].

    Documents are flat sequences of tokens and every step is a
    [ReplaceStep], so that a position is an offset into the sequence.  The
    properties of reachable states and of revert are proved for such
    documents. *)

From Stdlib Require Import String Ascii.
From Stdlib Require Import ZArith List Bool Lia Arith.
Import ListNotations.
Local Open Scope Z_scope.

(* ================================================================= *)
(** ** prosemirror-transform: step maps *)

(** The result of [StepMap.mapResult]: the mapped position, the deletion
    flags and the recover value ([null] is [None]). *)
Record MapResult := mkMapResult {
  mr_pos : Z;
  mr_delInfo : Z;
  mr_recover : option Z
}.

Definition lower16 : Z := 65535.
Definition factor16 : Z := 65536.

Definition DEL_BEFORE : Z := 1.
Definition DEL_AFTER : Z := 2.
Definition DEL_ACROSS : Z := 4.
Definition DEL_SIDE : Z := 8.

(** [makeRecover(index, offset) = index + offset * factor16]. *)
Definition makeRecover (index offset : Z) : Z := index + offset * factor16.

(** [recoverIndex(value) = value & lower16]. *)
Definition recoverIndex (value : Z) : Z := Z.land value lower16.

(** [recoverOffset(value) = (value - (value & lower16)) / factor16]. *)
Definition recoverOffset (value : Z) : Z :=
  (value - Z.land value lower16) / factor16.

(** [MapResult.deletedAcross]: [(delInfo & DEL_ACROSS) > 0]. *)
Definition deletedAcross (r : MapResult) : bool :=
  Z.land (mr_delInfo r) DEL_ACROSS >? 0.

Module StepMap.

(** The library keeps [ranges] as a flat array of triples
    [start, oldSize, newSize]; here each triple is one list element. *)
Record t := mk {
  ranges : list (Z * Z * Z);
  inverted : bool
}.

(** The loop of [StepMap._map] from triple number [idx] on, with the running
    [diff].  The [break] on [start > pos] and the fall out of the loop both end
    in [new MapResult(pos + diff, 0, null)]. *)
Fixpoint map_loop (inv : bool) (rs : list (Z * Z * Z)) (idx diff pos assoc : Z)
  : MapResult :=
  match rs with
  | [] => mkMapResult (pos + diff) 0 None
  | (r0, r1, r2) :: rest =>
      let start := r0 - (if inv then diff else 0) in
      if start >? pos then mkMapResult (pos + diff) 0 None
      else
        let oldSize := if inv then r2 else r1 in
        let newSize := if inv then r1 else r2 in
        let end_ := start + oldSize in
        if pos <=? end_ then
          let side :=
            if oldSize =? 0 then assoc
            else if pos =? start then -1
            else if pos =? end_ then 1
            else assoc in
          let result := start + diff + (if side <? 0 then 0 else newSize) in
          let recover :=
            if pos =? (if assoc <? 0 then start else end_) then None
            else Some (makeRecover idx (pos - start)) in
          let del :=
            if pos =? start then DEL_AFTER
            else if pos =? end_ then DEL_BEFORE
            else DEL_ACROSS in
          let del :=
            if (if assoc <? 0 then negb (pos =? start) else negb (pos =? end_))
            then Z.lor del DEL_SIDE else del in
          mkMapResult result del recover
        else map_loop inv rest (idx + 1) (diff + newSize - oldSize) pos assoc
  end.

(** [mapResult(pos, assoc)] is [_map(pos, assoc, false)]. *)
Definition mapResult (m : t) (pos assoc : Z) : MapResult :=
  map_loop (inverted m) (ranges m) 0 0 pos assoc.

(** [map(pos, assoc)] is [_map(pos, assoc, true)], which returns the position
    that [mapResult] wraps. *)
Definition map (m : t) (pos assoc : Z) : Z := mr_pos (mapResult m pos assoc).

(** The sum [diff] that [recover] accumulates over the first [n] triples. *)
Fixpoint recover_diff (rs : list (Z * Z * Z)) (n : nat) : Z :=
  match n, rs with
  | S n', (_, r1, r2) :: rest => (r2 - r1) + recover_diff rest n'
  | _, _ => 0
  end.

(** [recover(value)]: [ranges[index * 3] + diff + recoverOffset(value)]. *)
Definition recover (m : t) (value : Z) : Z :=
  let index := Z.to_nat (recoverIndex value) in
  let diff := if inverted m then 0 else recover_diff (ranges m) index in
  let start := match nth_error (ranges m) index with
               | Some (r0, _, _) => r0
               | None => 0
               end in
  start + diff + recoverOffset value.

(** The arguments [forEach] passes to its callback, in call order:
    [(oldStart, oldEnd, newStart, newEnd)]. *)
Fixpoint forEach_loop (inv : bool) (rs : list (Z * Z * Z)) (diff : Z)
  : list (Z * Z * Z * Z) :=
  match rs with
  | [] => []
  | (start, r1, r2) :: rest =>
      let oldStart := start - (if inv then diff else 0) in
      let newStart := start + (if inv then 0 else diff) in
      let oldSize := if inv then r2 else r1 in
      let newSize := if inv then r1 else r2 in
      (oldStart, oldStart + oldSize, newStart, newStart + newSize)
        :: forEach_loop inv rest (diff + newSize - oldSize)
  end.

Definition forEach (m : t) : list (Z * Z * Z * Z) :=
  forEach_loop (inverted m) (ranges m) 0.

End StepMap.

(* ================================================================= *)
(** ** prosemirror-transform: mappings *)

Module Mapping.

(** [mirror] is the flat array [n0, m0, n1, m1, ...] that [setMirror] pushes
    pairs onto; [None] is the absent array. *)
Record t := mk {
  maps : list StepMap.t;
  mirror : option (list (nat * nat));
  from : nat;
  to : nat
}.

(** [new Mapping(maps)]: [from = 0], [to = maps.length], no mirror. *)
Definition create (ms : list StepMap.t) : t :=
  mk ms None 0 (length ms).

(** [slice(from)] with the default [to = this.maps.length]. *)
Definition slice (mp : t) (from_ : nat) : t :=
  mk (maps mp) (mirror mp) from_ (length (maps mp)).

Fixpoint getMirror_pairs (ps : list (nat * nat)) (n : nat) : option nat :=
  match ps with
  | [] => None
  | (a, b) :: rest =>
      if Nat.eqb a n then Some b
      else if Nat.eqb b n then Some a
      else getMirror_pairs rest n
  end.

(** [getMirror(n)]: the partner of the first occurrence of [n]. *)
Definition getMirror (mp : t) (n : nat) : option nat :=
  match mirror mp with
  | Some ps => getMirror_pairs ps n
  | None => None
  end.

(** [setMirror(n, m)]. *)
Definition setMirror (mr : option (list (nat * nat))) (n m : nat)
  : option (list (nat * nat)) :=
  match mr with
  | Some ps => Some (ps ++ [(n, m)])
  | None => Some [(n, m)]
  end.

(** [appendMap(map, mirrors)]: [this.to = this.maps.push(map)], then
    [setMirror(this.maps.length - 1, mirrors)] when [mirrors != null]. *)
Definition appendMap (mp : t) (m : StepMap.t) (mirrors : option nat) : t :=
  let maps' := maps mp ++ [m] in
  mk maps'
     (match mirrors with
      | Some i => setMirror (mirror mp) (length maps' - 1) i
      | None => mirror mp
      end)
     (from mp)
     (length maps').

(** The loop of [Mapping._map] from index [i] on.  [fuel] bounds the number of
    iterations; [i] grows at each of them, so [to - i] is enough.  An index
    past the end of [maps] cannot arise, since every mapping built here has
    [to <= maps.length]. *)
Fixpoint map_loop (fuel : nat) (mp : t) (i : nat) (pos assoc delInfo : Z)
  : MapResult :=
  match fuel with
  | O => mkMapResult pos delInfo None
  | S fuel' =>
      if Nat.leb (to mp) i then mkMapResult pos delInfo None
      else
        match nth_error (maps mp) i with
        | None => mkMapResult pos delInfo None
        | Some m =>
            let result := StepMap.mapResult m pos assoc in
            let plain :=
              map_loop fuel' mp (S i) (mr_pos result) assoc
                       (Z.lor delInfo (mr_delInfo result)) in
            match mr_recover result, getMirror mp i with
            | Some rec, Some corr =>
                if Nat.ltb i corr && Nat.ltb corr (to mp) then
                  match nth_error (maps mp) corr with
                  | Some mc =>
                      map_loop fuel' mp (S corr) (StepMap.recover mc rec)
                               assoc delInfo
                  | None => plain
                  end
                else plain
            | _, _ => plain
            end
        end
  end.

(** [mapResult(pos, assoc)] is [_map(pos, assoc, false)]. *)
Definition mapResult (mp : t) (pos assoc : Z) : MapResult :=
  map_loop (to mp - from mp) mp (from mp) pos assoc 0.

(** The loop of [map] when there is no mirror array. *)
Fixpoint map_simple (ms : list StepMap.t) (pos assoc : Z) : Z :=
  match ms with
  | [] => pos
  | m :: rest => map_simple rest (StepMap.map m pos assoc) assoc
  end.

(** [map(pos, assoc)]: through [_map] when a mirror array is present,
    otherwise [maps[from .. to)] one after the other. *)
Definition map (mp : t) (pos assoc : Z) : Z :=
  match mirror mp with
  | Some _ => mr_pos (mapResult mp pos assoc)
  | None => map_simple (firstn (to mp - from mp) (skipn (from mp) (maps mp)))
                       pos assoc
  end.

End Mapping.

(* ================================================================= *)
(** ** prosemirror-transform: documents, replace steps, transforms *)

(** A document is taken flat: a sequence of tokens of size one, so that
    [doc.content.size] is its length and positions run over [0 .. size]. *)
Definition Doc := list ascii.

Definition size (d : Doc) : Z := Z.of_nat (length d).

(** [doc.slice(from, to)] on a flat document. *)
Definition doc_slice (d : Doc) (from_ to_ : Z) : Doc :=
  firstn (Z.to_nat (to_ - from_)) (skipn (Z.to_nat from_) d).

Module Step.

(** [ReplaceStep(from, to, slice)]: the only kind of step of a flat
    document. *)
Record t := ReplaceStep {
  from : Z;
  to : Z;
  slice : Doc
}.

(** [apply(doc)]: [doc.replace(from, to, slice)]; [None] stands for a step
    that cannot be applied (its range does not lie inside the document). *)
Definition apply (s : t) (d : Doc) : option Doc :=
  if (0 <=? from s) && (from s <=? to s) && (to s <=? size d) then
    Some (firstn (Z.to_nat (from s)) d ++ slice s ++ skipn (Z.to_nat (to s)) d)
  else None.

(** [getMap()]: [new StepMap([from, to - from, slice.size])]. *)
Definition getMap (s : t) : StepMap.t :=
  StepMap.mk [(from s, to s - from s, size (slice s))] false.

(** [invert(doc)]:
    [new ReplaceStep(from, from + slice.size, doc.slice(from, to))]. *)
Definition invert (s : t) (d : Doc) : t :=
  ReplaceStep (from s) (from s + size (slice s)) (doc_slice d (from s) (to s)).

(** [map(mapping)]: [null] when both ends were deleted across, otherwise
    [new ReplaceStep(from.pos, Math.max(from.pos, to.pos), slice)]. *)
Definition map (s : t) (mp : Mapping.t) : option t :=
  let from_ := Mapping.mapResult mp (from s) 1 in
  let to_ := Mapping.mapResult mp (to s) (-1) in
  if deletedAcross from_ && deletedAcross to_ then None
  else Some (ReplaceStep (mr_pos from_) (Z.max (mr_pos from_) (mr_pos to_))
                         (slice s)).

End Step.

(** A [Commit] object.  [ref] stands for the identity of the object, which is
    what [indexOf] and [===] compare. *)
Record Commit := mkCommit {
  ref : nat;
  message : string;
  time : Z;
  steps : list Step.t;
  maps : list StepMap.t;
  hidden : bool
}.

(** [new Commit(message, time, steps, maps)] allocated at [r]; [hidden]
    takes its default. *)
Definition new_Commit (r : nat) (message_ : string) (time_ : Z)
  (steps_ : list Step.t) (maps_ : list StepMap.t) : Commit :=
  mkCommit r message_ time_ steps_ maps_ false.

(** A value that is a [Commit] object, [null] or [undefined]. *)
Inductive JsCommit :=
| JUndefined
| JNull
| JObject (c : Commit).

(** The metadata [highlightCommit] and [clearHighlightCommit] attach:
    [{ add: commit }] or [{ clear: commit }]; a field that is not written is
    [undefined]. *)
Record HighlightMeta := mkHighlightMeta {
  add : JsCommit;
  clear : JsCommit
}.

Module Transform.

(** A [Transform]; a [Transaction] adds [time] and the metadata the two
    plugins read with [getMeta]. *)
Record t := mk {
  doc : Doc;
  steps : list Step.t;
  docs : list Doc;
  mapping : Mapping.t;
  time : Z;
  trackMeta : option string;
  highlightMeta : option HighlightMeta
}.


(** [state.tr]: a transaction on the current document with no steps. *)
Definition create (d : Doc) (time_ : Z) : t :=
  mk d [] [] (Mapping.create []) time_ None None.

(** [docChanged]: [steps.length > 0]. *)
Definition docChanged (tr : t) : bool :=
  match steps tr with [] => false | _ :: _ => true end.

(** [addStep(step, doc)]. *)
Definition addStep (tr : t) (s : Step.t) (d : Doc) : t :=
  mk d (steps tr ++ [s]) (docs tr ++ [doc tr])
     (Mapping.appendMap (mapping tr) (Step.getMap s) None)
     (time tr) (trackMeta tr) (highlightMeta tr).

(** [maybeStep(step)]: applies the step when it can be applied; returns the
    transform and the step result ([result.doc], absent on failure). *)
Definition maybeStep (tr : t) (s : Step.t)
  : t * option Doc :=
  match Step.apply s (doc tr) with
  | Some d => (addStep tr s d, Some d)
  | None => (tr, None)
  end.

(** [setMeta(TrackChangesPlugin, message)]. *)
Definition setTrackMeta (tr : t) (msg : string) : t :=
  mk (doc tr) (steps tr) (docs tr) (mapping tr) (time tr) (Some msg)
     (highlightMeta tr).

(** [setMeta(highlightPlugin, value)]. *)
Definition setHighlightMeta (tr : t) (v : HighlightMeta) : t :=
  mk (doc tr) (steps tr) (docs tr) (mapping tr) (time tr) (trackMeta tr)
     (Some v).

End Transform.

(* ================================================================= *)
(** ** src/trackChangesPlugin.ts: spans, commits, the tracked state *)

Module Span.

(** [commit] is optional in the source: [None] is [undefined]. *)
Record t := mk {
  from : Z;
  to : Z;
  commit : option nat
}.

End Span.

Record TrackState := mkTrackState {
  blameMap : list Span.t;
  commits : list Commit;
  uncommittedSteps : list Step.t;
  uncommittedMaps : list StepMap.t
}.

(** [next.commit === commit], a possibly absent number against a number. *)
Definition commit_is (c : option nat) (id : nat) : bool :=
  match c with
  | Some n => Nat.eqb n id
  | None => false
  end.

(** The [for] loop of [insertIntoBlameMap] (lines 140-154).  The array and
    [pos] come back as the elements before [pos] and those from [pos] on. *)
Fixpoint insert_scan (map : list Span.t) (from_ to_ : Z) (commit : nat)
  : list Span.t * list Span.t :=
  match map with
  | [] => ([], [])
  | next :: rest =>
      if commit_is (Span.commit next) commit then
        if Span.to next >=? from_ then ([], next :: rest)
        else
          let (before, after) := insert_scan rest from_ to_ commit in
          (next :: before, after)
      else if Span.to next >? from_ then
        if Span.from next <? from_ then
          let left := Span.mk (Span.from next) from_ (Span.commit next) in
          if Span.to next >? to_ then ([left], next :: rest)
          else ([left], rest)
        else ([], next :: rest)
      else
        let (before, after) := insert_scan rest from_ to_ commit in
        (next :: before, after)
  end.

(** The [while] loop (lines 156-171) on the elements from [pos] on; it returns
    what is left from [pos] on and the final [from] and [to]. *)
Fixpoint insert_absorb (after : list Span.t) (from_ to_ : Z) (commit : nat)
  : list Span.t * Z * Z :=
  match after with
  | [] => ([], from_, to_)
  | next :: rest =>
      if commit_is (Span.commit next) commit then
        if Span.from next >? to_ then (next :: rest, from_, to_)
        else insert_absorb rest (Z.min from_ (Span.from next))
                           (Z.max to_ (Span.to next)) commit
      else
        if Span.from next >=? to_ then (next :: rest, from_, to_)
        else if Span.to next >? to_ then
          (Span.mk to_ (Span.to next) (Span.commit next) :: rest, from_, to_)
        else insert_absorb rest from_ to_ commit
  end.

(** [insertIntoBlameMap(map, from, to, commit)]; the result is the array
    after the call. *)
Definition insertIntoBlameMap (map : list Span.t) (from_ to_ : Z)
  (commit : nat) : list Span.t :=
  if from_ >=? to_ then map
  else
    let (before, after) := insert_scan map from_ to_ commit in
    let '(after', from', to') := insert_absorb after from_ to_ commit in
    before ++ Span.mk from' to' (Some commit) :: after'.

(** The first loop of [updateBlameMap] (lines 113-118). *)
Fixpoint remap_spans (map : list Span.t) (mapping : Mapping.t)
  : list Span.t :=
  match map with
  | [] => []
  | span :: rest =>
      let from_ := Mapping.map mapping (Span.from span) 1 in
      let to_ := Mapping.map mapping (Span.to span) (-1) in
      if from_ <? to_ then
        Span.mk from_ to_ (Span.commit span) :: remap_spans rest mapping
      else remap_spans rest mapping
  end.

(** The callback of [map.forEach] (line 124) over the ranges of one map. *)
Fixpoint insert_ranges (result : list Span.t) (after : Mapping.t)
  (rs : list (Z * Z * Z * Z)) (id : nat) : list Span.t :=
  match rs with
  | [] => result
  | (_, _, start, end_) :: rest =>
      insert_ranges
        (insertIntoBlameMap result (Mapping.map after start 1)
                            (Mapping.map after end_ (-1)) id)
        after rest id
  end.

(** The second loop of [updateBlameMap] (lines 120-126), from index [i] on;
    [ms] is [mapping.maps] from [i] on. *)
Fixpoint insert_steps (result : list Span.t) (mapping : Mapping.t)
  (ms : list StepMap.t) (i : nat) (id : nat) : list Span.t :=
  match ms with
  | [] => result
  | m :: rest =>
      let after := Mapping.slice mapping (i + 1) in
      insert_steps (insert_ranges result after (StepMap.forEach m) id)
                   mapping rest (S i) id
  end.

Definition updateBlameMap (map : list Span.t) (mapping : Mapping.t) (id : nat)
  : list Span.t :=
  insert_steps (remap_spans map mapping) mapping (Mapping.maps mapping) 0 id.

(** [TrackState.applyTransform(transform)]. *)
Definition applyTransform (transform : Transform.t)
  (this : TrackState) : TrackState :=
  let inverted :=
    List.map (fun '(step, d) => Step.invert step d)
             (combine (Transform.steps transform) (Transform.docs transform)) in
  let newBlame :=
    updateBlameMap (blameMap this) (Transform.mapping transform)
                   (length (commits this)) in
  mkTrackState newBlame (commits this)
    (uncommittedSteps this ++ inverted)
    (uncommittedMaps this ++ Mapping.maps (Transform.mapping transform)).

(** [TrackState.applyCommit(message, time)]; [r] is the identity of the
    [Commit] object that [new] creates. *)
Definition applyCommit (r : nat) (message_ : string) (time_ : Z)
  (this : TrackState) : TrackState :=
  match uncommittedSteps this with
  | [] => this
  | _ :: _ =>
      let commit := new_Commit r message_ time_ (uncommittedSteps this)
                               (uncommittedMaps this) in
      mkTrackState (blameMap this) (commits this ++ [commit]) [] []
  end.

(** [TrackChangesPlugin]'s [init]. *)
Definition track_init (d : Doc) : TrackState :=
  mkTrackState [Span.mk 0 (size d) None] [] [] [].

(** A string is truthy when it is not empty. *)
Definition truthy_string (s : string) : bool :=
  match s with EmptyString => false | String _ _ => true end.

(** [TrackChangesPlugin]'s [apply(tr, tracked)]. *)
Definition track_apply (r : nat) (tr : Transform.t)
  (tracked : TrackState) : TrackState :=
  let tracked :=
    if Transform.docChanged tr then applyTransform tr tracked else tracked in
  match Transform.trackMeta tr with
  | Some commitMessage =>
      if truthy_string commitMessage then
        applyCommit r commitMessage (Transform.time tr) tracked
      else tracked
  | None => tracked
  end.

(* ================================================================= *)
(** ** src/trackChangesPlugin.ts: the highlight plugin *)

(** [Decoration.inline(from, to, { class })]. *)
Record Decoration := mkDecoration {
  deco_from : Z;
  deco_to : Z;
  deco_class : string
}.

(** What the highlight plugin uses of [prosemirror-view]'s [DecorationSet]:
    [DecorationSet.empty], [DecorationSet.create(doc, decorations)] and
    [set.map(mapping, doc)]. *)
Class DecorationSetOps := {
  DecorationSet : Type;
  DecorationSet_empty : DecorationSet;
  DecorationSet_create : Doc -> list Decoration -> DecorationSet;
  DecorationSet_map : DecorationSet -> Mapping.t -> Doc -> DecorationSet
}.

(** [a === b] on values that are a [Commit] object, [null] or [undefined]. *)
Definition js_strict_eq (a b : JsCommit) : bool :=
  match a, b with
  | JUndefined, JUndefined => true
  | JNull, JNull => true
  | JObject x, JObject y => Nat.eqb (ref x) (ref y)
  | _, _ => false
  end.

(** [v != null]: neither [null] nor [undefined]. *)
Definition js_not_nullish (v : JsCommit) : bool :=
  match v with
  | JObject _ => true
  | _ => false
  end.

(** [v !== null]. *)
Definition js_not_null (v : JsCommit) : bool :=
  match v with
  | JNull => false
  | _ => true
  end.

(** Truthiness of such a value. *)
Definition js_truthy (v : JsCommit) : bool :=
  match v with
  | JObject _ => true
  | _ => false
  end.

(** [commits[i]]. *)
Definition js_index (cs : list Commit) (i : nat) : JsCommit :=
  match nth_error cs i with
  | Some c => JObject c
  | None => JUndefined
  end.

(** The predicate of [filter] (line 203):
    [span.commit && commits[span.commit] === highlight.add].  The left operand
    is a number or [undefined], falsy when [undefined] or [0]. *)
Definition highlight_filter (cs : list Commit) (add_ : JsCommit)
  (span : Span.t) : bool :=
  match Span.commit span with
  | None => false
  | Some O => false
  | Some (S n) => js_strict_eq (js_index cs (S n)) add_
  end.

(** The array [decos] (lines 202-208). *)
Definition highlight_decos (cs : list Commit) (blame : list Span.t)
  (add_ : JsCommit) : list Decoration :=
  List.map
    (fun span =>
       mkDecoration (Span.from span) (Span.to span) "commit-blame-marker")
    (filter (highlight_filter cs add_) blame).

Section Highlight.

Context {D : DecorationSetOps}.

Record HighlightState := mkHighlightState {
  deco : DecorationSet;
  commit : JsCommit
}.

(** [highlightPlugin]'s [init]. *)
Definition highlight_init : HighlightState :=
  mkHighlightState DecorationSet_empty JNull.

(** [highlightPlugin]'s [apply(tr, prev, oldState, state)]: [oldTracked] is
    [TrackChangesPlugin.getState(oldState)] and [stateDoc] is [state.doc]. *)
Definition highlight_apply (tr : Transform.t) (prev : HighlightState)
  (oldTracked : TrackState) (stateDoc : Doc) : HighlightState :=
  let remapped :=
    if Transform.docChanged tr && js_truthy (commit prev) then
      mkHighlightState
        (DecorationSet_map (deco prev) (Transform.mapping tr)
                           (Transform.doc tr))
        (commit prev)
    else prev in
  match Transform.highlightMeta tr with
  | Some highlight =>
      if js_not_nullish (add highlight)
         && negb (js_strict_eq (commit prev) (add highlight)) then
        let decos :=
          highlight_decos (commits oldTracked) (blameMap oldTracked)
                          (add highlight) in
        mkHighlightState (DecorationSet_create stateDoc decos) (add highlight)
      else if js_not_null (clear highlight)
              && js_strict_eq (commit prev) (clear highlight) then
        mkHighlightState DecorationSet_empty JNull
      else remapped
  | None => remapped
  end.

End Highlight.

(** A carrier for evaluating the plugin: the set is the array it was created
    from, and mapping it maps each inline decoration's ends (start with
    [assoc = 1], end with [assoc = -1]) and drops those that become empty. *)
#[export] Instance ListDecorations : DecorationSetOps := {|
  DecorationSet := list Decoration;
  DecorationSet_empty := [];
  DecorationSet_create := fun _ decos => decos;
  DecorationSet_map := fun set mapping _ =>
    flat_map
      (fun d =>
         let from_ := Mapping.map mapping (deco_from d) 1 in
         let to_ := Mapping.map mapping (deco_to d) (-1) in
         if from_ >=? to_ then [] else [mkDecoration from_ to_ (deco_class d)])
      set
|}.

(* ================================================================= *)
(** ** The command file: revertCommit *)

(** [commits.indexOf(commit)]: the first index holding the same object;
    [None] is [-1]. *)
Fixpoint indexOf (cs : list Commit) (c : Commit) : option nat :=
  match cs with
  | [] => None
  | x :: rest =>
      if Nat.eqb (ref x) (ref c) then Some O
      else option_map S (indexOf rest c)
  end.

(** [commits.slice(index).reduce((maps, c) => maps.concat(c.maps), [])]. *)
Definition maps_since (cs : list Commit) (index : nat) : list StepMap.t :=
  fold_left (fun acc c => acc ++ maps c) (skipn index cs) [].

(** The body of the loop of lines 71-80 for index [i]; it returns [remap]
    and [tr] as the iteration leaves them. *)
Definition revert_body (commit_ : Commit) (i : nat) (remap : Mapping.t)
  (tr : Transform.t) : Mapping.t * Transform.t :=
  match nth_error (steps commit_) i with
  | None => (remap, tr)
  | Some step =>
      match Step.map step (Mapping.slice remap (i + 1)) with
      | None => (remap, tr)
      | Some remapped =>
          match Transform.maybeStep tr remapped with
          | (tr', Some _) =>
              (Mapping.appendMap remap (Step.getMap remapped) (Some i), tr')
          | (tr', None) => (remap, tr')
          end
      end
  end.

(** The loop itself, [i] running from [k - 1] down to [0]. *)
Fixpoint revert_loop (commit_ : Commit) (k : nat) (remap : Mapping.t)
  (tr : Transform.t) : Mapping.t * Transform.t :=
  match k with
  | O => (remap, tr)
  | S i =>
      let (remap', tr') := revert_body commit_ i remap tr in
      revert_loop commit_ i remap' tr'
  end.

(** What a command leaves behind: the value it returns, the transaction
    [state.tr] it worked on, and the messages it passed to [alert]. *)
Record CommandResult := mkCommandResult {
  returned : bool;
  result_tr : Transform.t;
  alerts : list string
}.

(** [revertCommit(commit)] run on the tracked state and on the transaction
    [state.tr]. *)
Definition revertCommit (commit_ : Commit) (trackState : TrackState)
  (tr : Transform.t) : CommandResult :=
  match indexOf (commits trackState) commit_ with
  | None => mkCommandResult false tr []
  | Some index =>
      match uncommittedSteps trackState with
      | _ :: _ => mkCommandResult false tr ["Commit your changes first!"%string]
      | [] =>
          let remap := Mapping.create (maps_since (commits trackState) index) in
          let (_, tr') :=
            revert_loop commit_ (length (steps commit_)) remap tr in
          let tr'' :=
            if Transform.docChanged tr' then
              Transform.setTrackMeta tr'
                ("Revert '" ++ message commit_ ++ "'")%string
            else tr' in
          mkCommandResult true tr'' []
      end
  end.

(** [highlightCommit(commit)] and [clearHighlightCommit(commit)]. *)
Definition highlightCommit (c : JsCommit) (tr : Transform.t) : CommandResult :=
  mkCommandResult true
    (Transform.setHighlightMeta tr (mkHighlightMeta c JUndefined)) [].

Definition clearHighlightCommit (c : JsCommit) (tr : Transform.t)
  : CommandResult :=
  mkCommandResult true
    (Transform.setHighlightMeta tr (mkHighlightMeta JUndefined c)) [].

(* ================================================================= *)
(** ** Specification vocabulary *)

(** [x] lies in the half-open range of a span. *)
Definition in_span (s : Span.t) (x : Z) : Prop :=
  Span.from s <= x < Span.to s.

Definition sorted_by_from (m : list Span.t) : Prop :=
  forall i j a b, (i <= j)%nat ->
    nth_error m i = Some a -> nth_error m j = Some b ->
    Span.from a <= Span.from b.

Definition non_overlapping (m : list Span.t) : Prop :=
  forall i j a b, i <> j ->
    nth_error m i = Some a -> nth_error m j = Some b ->
    forall x, ~ (in_span a x /\ in_span b x).

(** The union of the spans is exactly [[0, len)]. *)
Definition covers (m : list Span.t) (len : Z) : Prop :=
  forall x, 0 <= x < len <-> exists s, In s m /\ in_span s x.

(** No two neighbours carry the same attribution. *)
Definition coalesced (m : list Span.t) : Prop :=
  forall i a b,
    nth_error m i = Some a -> nth_error m (S i) = Some b ->
    Span.commit a <> Span.commit b.

(** The transactions the host can hand to the plugins for a state whose
    document is [d]: [state.tr] followed by steps that applied and by
    [setMeta] calls. *)
Inductive transaction_on (d : Doc) : Transform.t -> Prop :=
| on_create : forall time_, transaction_on d (Transform.create d time_)
| on_step : forall tr s d',
    transaction_on d tr ->
    Step.apply s (Transform.doc tr) = Some d' ->
    transaction_on d (Transform.addStep tr s d')
| on_trackMeta : forall tr msg,
    transaction_on d tr -> transaction_on d (Transform.setTrackMeta tr msg)
| on_highlightMeta : forall tr v,
    transaction_on d tr -> transaction_on d (Transform.setHighlightMeta tr v).

(** No commit of the state is the object [r]. *)
Definition fresh_ref (r : nat) (st : TrackState) : Prop :=
  forall c, In c (commits st) -> ref c <> r.

(** The history states that can be reached, each with the document it
    describes: the initial state, then [applyTransform] with a transaction on
    the current document or [applyCommit] (whose [Commit] is a new object). *)
Inductive reachable : Doc -> TrackState -> Prop :=
| reachable_init : forall d, reachable d (track_init d)
| reachable_transform : forall d st tr,
    reachable d st -> transaction_on d tr ->
    reachable (Transform.doc tr) (applyTransform tr st)
| reachable_commit : forall d st r message_ time_,
    reachable d st -> fresh_ref r st ->
    reachable d (applyCommit r message_ time_ st).

(** The [assoc] argument of [map]: with [-1] a position at which content is
    inserted stays before that content, with [1] it moves after it. *)
Definition bias_left : Z := -1.
Definition bias_right : Z := 1.

(** The survivor phase as the specification words it: [from] through the
    left-biased mapping, [to] through the right-biased one. *)
Fixpoint remap_spans_left_right (map : list Span.t) (mapping : Mapping.t)
  : list Span.t :=
  match map with
  | [] => []
  | span :: rest =>
      let from_ := Mapping.map mapping (Span.from span) bias_left in
      let to_ := Mapping.map mapping (Span.to span) bias_right in
      if from_ >=? to_ then remap_spans_left_right rest mapping
      else Span.mk from_ to_ (Span.commit span)
             :: remap_spans_left_right rest mapping
  end.

(** What one span becomes in the survivor phase of the code. *)
Definition remap_span (mapping : Mapping.t) (span : Span.t) : list Span.t :=
  let from_ := Mapping.map mapping (Span.from span) bias_right in
  let to_ := Mapping.map mapping (Span.to span) bias_left in
  if from_ >=? to_ then [] else [Span.mk from_ to_ (Span.commit span)].

(** A fragment put at slot [i] of a pipeline, as the specification words the
    update of [remap]. *)
Definition insert_at (i : nat) (m : StepMap.t) (ms : list StepMap.t)
  : list StepMap.t :=
  firstn i ms ++ m :: skipn i ms.

(** The target is found by identity in the commit list. *)
Definition found_by_identity (c : Commit) (cs : list Commit) : Prop :=
  exists x, In x cs /\ ref x = ref c.

(** The states [applyTransform] passes through from [st], one per
    transaction, each paired with the attribution id it hands to
    [updateBlameMap]. *)
Fixpoint edit_trace (st : TrackState) (trs : list Transform.t)
  : list nat * TrackState :=
  match trs with
  | [] => ([], st)
  | tr :: rest =>
      let (ids, st') := edit_trace (applyTransform tr st) rest in
      (length (commits st) :: ids, st')
  end.

(** [ss] apply one after the other from [d] to [d']; [ds] are the documents
    each of them is applied to (a transform's [docs]). *)
Inductive steps_run : Doc -> list Step.t -> list Doc -> Doc -> Prop :=
| run_nil : forall d, steps_run d [] [] d
| run_cons : forall d s d1 ss ds d',
    Step.apply s d = Some d1 ->
    steps_run d1 ss ds d' ->
    steps_run d (s :: ss) (d :: ds) d'.

(** The inverted steps [applyTransform] stores. *)
Definition inverted_steps (ss : list Step.t) (ds : list Doc) : list Step.t :=
  List.map (fun '(step, d) => Step.invert step d) (combine ss ds).

(** Transactions that follow one another from document [d] to [d']. *)
Inductive edits_on : Doc -> list Transform.t -> Doc -> Prop :=
| edits_nil : forall d, edits_on d [] d
| edits_cons : forall d tr trs d',
    transaction_on d tr ->
    edits_on (Transform.doc tr) trs d' ->
    edits_on d (tr :: trs) d'.

(** Every span of [m'] carries the id [id] or an attribution that some span
    of [m] carries. *)
Definition attributed_from (m' m : list Span.t) (id : nat) : Prop :=
  forall s, In s m' ->
    Span.commit s = Some id
    \/ exists s0, In s0 m /\ Span.commit s0 = Span.commit s.

(* ================================================================= *)
(** ** Invariants used in the proofs *)

(** Some span of the map contains [x]. *)
Definition covered (m : list Span.t) (x : Z) : Prop :=
  exists s, In s m /\ in_span s x.

(** The spans follow one another from [lo] on: each starts at or after the
    end of the one before, and none is empty. *)
Fixpoint chain (lo : Z) (m : list Span.t) : Prop :=
  match m with
  | [] => True
  | s :: rest =>
      lo <= Span.from s /\ Span.from s < Span.to s /\ chain (Span.to s) rest
  end.

(** The same with empty spans allowed (the initial map of an empty
    document is the single span [[0, 0)]). *)
Fixpoint weak_chain (lo : Z) (m : list Span.t) : Prop :=
  match m with
  | [] => True
  | s :: rest =>
      lo <= Span.from s /\ Span.from s <= Span.to s
      /\ weak_chain (Span.to s) rest
  end.

(** The step map of one replace step: [o] tokens at [s] give way to [n]. *)
Definition replace_map (s o n : Z) : StepMap.t := StepMap.mk [(s, o, n)] false.

(** [ms] are the maps of replace steps that apply one after the other,
    from a document of length [len] to one of length [len']. *)
Fixpoint maps_fit (ms : list StepMap.t) (len len' : Z) : Prop :=
  match ms with
  | [] => len = len'
  | m :: rest =>
      exists s o n,
        m = replace_map s o n
        /\ 0 <= s /\ 0 <= o /\ 0 <= n /\ s + o <= len
        /\ maps_fit rest (len - o + n) len'
  end.

(** The mapping of a transform: the whole pipeline, no mirror array. *)
Definition plain_mapping (mp : Mapping.t) : Prop :=
  Mapping.mirror mp = None
  /\ Mapping.from mp = 0%nat
  /\ Mapping.to mp = length (Mapping.maps mp).

(** [x] lies in the range that the map at index [j] of [ms] inserts, once
    that range is mapped through the maps that follow. *)
Definition in_inserted (ms : list StepMap.t) (j : nat) (x : Z) : Prop :=
  exists s o n,
    nth_error ms j = Some (replace_map s o n)
    /\ Mapping.map_simple (skipn (S j) ms) s 1 <= x
       < Mapping.map_simple (skipn (S j) ms) (s + n) (-1).

(** The deletion flags without the [DEL_ACROSS] bit. *)
Definition no_across (delInfo : Z) : Prop := Z.land delInfo DEL_ACROSS = 0.

(** The mirror array of [remap] once the loop of [revertCommit] has undone
    [p] of the [n] steps of the last commit: the fragment appended at
    [n + q] mirrors slot [n - 1 - q]. *)
Definition revert_mirror (n p : nat) : option (list (nat * nat)) :=
  match p with
  | O => None
  | S _ => Some (List.map (fun q => ((n + q)%nat, (n - 1 - q)%nat)) (seq 0 p))
  end.

(** [remap] when the loop is about to handle index [k - 1]: the maps [fwd]
    of the commit followed by the fragments of the steps undone so far
    ([bwd] lists the fragment of each index). *)
Definition revert_remap (fwd bwd : list StepMap.t) (k : nat) : Mapping.t :=
  Mapping.mk (fwd ++ rev (skipn k bwd))
             (revert_mirror (length fwd) (length fwd - k))
             0
             (length fwd + (length fwd - k)).

(** [fwd] are the maps of steps that apply one after the other from length
    [len] to [len'], and [bwd] lists, index by index, the maps of their
    inverses. *)
Fixpoint there_and_back (fwd bwd : list StepMap.t) (len len' : Z) : Prop :=
  match fwd, bwd with
  | [], [] => len = len'
  | f :: fwd', b :: bwd' =>
      exists s o n,
        f = replace_map s o n /\ b = replace_map s n o
        /\ 0 <= s /\ 0 <= o /\ 0 <= n /\ s + o <= len
        /\ there_and_back fwd' bwd' (len - o + n) len'
  | _, _ => False
  end.

(* ================================================================= *)
(** ** Example data *)

Definition text (s : string) : Doc := list_ascii_of_string s.

(** Insert [s] at [p]; delete [[a, b)]. *)
Definition insertion (p : Z) (s : string) : Step.t :=
  Step.ReplaceStep p p (text s).
Definition deletion (a b : Z) : Step.t := Step.ReplaceStep a b [].

(** The transaction that applies [ss] to [d] one after the other. *)
Definition transaction_of (d : Doc) (ss : list Step.t) : Transform.t :=
  fold_left (fun tr s => fst (Transform.maybeStep tr s)) ss
            (Transform.create d 0).

(** ["HelloXXXX"], then [" world"] inserted at 5 and committed, then the
    inserted range deleted again. *)
Definition ex_doc0 : Doc := text "HelloXXXX".
Definition ex_tr1 : Transform.t := transaction_of ex_doc0 [insertion 5 " world"].
Definition ex_st1 : TrackState :=
  applyCommit 100 "add world" 0 (applyTransform ex_tr1 (track_init ex_doc0)).
Definition ex_tr2 : Transform.t :=
  transaction_of (Transform.doc ex_tr1) [deletion 5 11].
Definition ex_st2 : TrackState := applyTransform ex_tr2 ex_st1.

(** The commit made in [ex_st1]. *)
Definition ex_commit0 : Commit :=
  new_Commit 100 "add world" 0 [Step.ReplaceStep 5 11 []]
             [StepMap.mk [(5, 0, 6)] false].

(** The state of scenario 1 of the specification: ["Hello"], [" world"]
    inserted at 5, committed as the first commit. *)
Definition ex_hello_tr : Transform.t :=
  transaction_of (text "Hello") [insertion 5 " world"].
Definition ex_hello_st : TrackState :=
  applyCommit 100 "add world" 0
    (applyTransform ex_hello_tr (track_init (text "Hello"))).

(** A transaction that carries [{ add: c }] and no step. *)
Definition ex_highlight_tr (c : Commit) : Transform.t :=
  result_tr (highlightCommit (JObject c)
                             (Transform.create (text "Hello world") 0)).

(** One transaction of four steps on ["0123456789"]: two tokens inserted at
    5, the range [[4, 8)] deleted across them, three tokens inserted at 2,
    and [[1, 4)] replaced by one token. *)
Definition ex_digits : Doc := text "0123456789".
Definition ex_digits_tr : Transform.t :=
  transaction_of ex_digits
    [insertion 5 "XX"; deletion 4 8; insertion 2 "abc";
     Step.ReplaceStep 1 4 (text "Q")].
Definition ex_digits_st : TrackState :=
  applyCommit 7 "four steps" 0 (applyTransform ex_digits_tr
                                               (track_init ex_digits)).
Definition ex_digits_commit : Commit :=
  new_Commit 7 "four steps" 0
    (uncommittedSteps (applyTransform ex_digits_tr (track_init ex_digits)))
    (uncommittedMaps (applyTransform ex_digits_tr (track_init ex_digits))).

(* ================================================================= *)
(** ** The command file: getCommits, doCommit *)


(** [doCommit(message)]: [state.tr.setMeta(TrackChangesPlugin, message)],
    then [true]. *)
Definition doCommit (message_ : string) (tr : Transform.t) : CommandResult :=
  mkCommandResult true (Transform.setTrackMeta tr message_) [].

(* ================================================================= *)
(** ** Further vocabulary *)

(** The attribution the map gives the token at offset [x]: that of the
    first span that contains it; the outer [None] when no span does, the
    inner one when the span carries no commit. *)
Fixpoint attribution_at (m : list Span.t) (x : Z) : option (option nat) :=
  match m with
  | [] => None
  | s :: rest =>
      if (Span.from s <=? x) && (x <? Span.to s) then Some (Span.commit s)
      else attribution_at rest x
  end.

(** Some span of the map contains [x] and carries [c]. *)
Definition attributed (m : list Span.t) (x : Z) (c : option nat) : Prop :=
  exists s, In s m /\ in_span s x /\ Span.commit s = c.

(** Where the token at offset [x] lies after replace steps with the maps
    [ms]; [None] when one of the steps replaces it. *)
Fixpoint token_image (ms : list StepMap.t) (x : Z) : option Z :=
  match ms with
  | [] => Some x
  | m :: rest =>
      match StepMap.ranges m with
      | [(s, o, n)] =>
          if x <? s then token_image rest x
          else if s + o <=? x then token_image rest (x + n - o)
          else None
      | _ => None
      end
  end.

(** The steps applied one after the other; [None] as soon as one fails. *)
Fixpoint apply_all (ss : list Step.t) (d : Doc) : option Doc :=
  match ss with
  | [] => Some d
  | s :: rest =>
      match Step.apply s d with
      | Some d' => apply_all rest d'
      | None => None
      end
  end.

(** ["abc"], then ["X"] inserted at 1 and committed, then ["Y"] inserted at
    3 and committed (scenario 3 of the specification). *)
Definition ex_abc_tr1 : Transform.t :=
  Transform.setTrackMeta (transaction_of (text "abc") [insertion 1 "X"]) "c0".
Definition ex_abc_st1 : TrackState :=
  track_apply 100 ex_abc_tr1 (track_init (text "abc")).
Definition ex_abc_tr2 : Transform.t :=
  Transform.setTrackMeta (transaction_of (text "aXbc") [insertion 3 "Y"]) "c1".
Definition ex_abc_st2 : TrackState := track_apply 101 ex_abc_tr2 ex_abc_st1.
Definition ex_abc_c1 : Commit :=
  new_Commit 101 "c1" 0 [Step.ReplaceStep 3 4 []]
             [StepMap.mk [(3, 0, 1)] false].

(** No two neighbours of the map that both carry [id] touch: between them
    lies a gap. *)
Fixpoint no_touching (id : nat) (m : list Span.t) : Prop :=
  match m with
  | a :: ((b :: _) as rest) =>
      (Span.commit a = Some id -> Span.commit b = Some id ->
       Span.to a < Span.from b)
      /\ no_touching id rest
  | _ => True
  end.

(** The same, told where the span before the map ended when it carried
    [id]. *)
Fixpoint no_touching_after (prev : option Z) (id : nat) (m : list Span.t)
  : Prop :=
  match m with
  | [] => True
  | s :: rest =>
      (commit_is (Span.commit s) id = true ->
       match prev with Some e => e < Span.from s | None => True end)
      /\ no_touching_after
           (if commit_is (Span.commit s) id then Some (Span.to s) else None)
           id rest
  end.

(* ================================================================= *)
(** * Properties *)

(** ** Example transactions *)

Lemma transaction_of_on :
  forall (d : Doc) (ss : list Step.t), transaction_on d (transaction_of d ss).
Proof.
  intros d ss. unfold transaction_of.
  assert (forall tr, transaction_on d tr ->
                     transaction_on d
                       (fold_left (fun tr s => fst (Transform.maybeStep tr s))
                                  ss tr)) as H.
  { induction ss as [|s ss IH]; intros tr Htr; cbn; [exact Htr|].
    apply IH. unfold Transform.maybeStep.
    destruct (Step.apply s (Transform.doc tr)) eqn:A; cbn; [|exact Htr].
    apply on_step; assumption. }
  apply H. apply on_create.
Qed.

(** ** insertIntoBlameMap, applyCommit *)

(** C10: for every attribution map, commit id and positions with
    [from >= to], [insertIntoBlameMap] leaves the map as it is. *)
Theorem insertIntoBlameMap_degenerate :
  forall (map : list Span.t) (commit_ : nat) (from_ to_ : Z),
    from_ >= to_ ->
    insertIntoBlameMap map from_ to_ commit_ = map.
Proof.
  intros map commit_ from_ to_ Hge.
  unfold insertIntoBlameMap.
  destruct (from_ >=? to_) eqn:E; [reflexivity|].
  rewrite Z.geb_leb, Z.leb_gt in E. lia.
Qed.

Lemma insertIntoBlameMap_degenerate_witness :
  7 >= 7 /\
  insertIntoBlameMap (blameMap ex_st1) 7 7 3 = blameMap ex_st1.
Proof.
  split; [lia | apply (insertIntoBlameMap_degenerate (blameMap ex_st1) 3 7 7); lia].
Defined.

(** C6: [applyCommit] returns the state itself when nothing is pending;
    otherwise the commit list gains one [Commit] made of the message, the
    time and the two pending buffers, both buffers are emptied and the
    attribution map is kept. *)
Theorem applyCommit_spec :
  forall (r : nat) (message_ : string) (time_ : Z) (st : TrackState),
    let st' := applyCommit r message_ time_ st in
    match uncommittedSteps st with
    | [] => st' = st
    | _ :: _ =>
        commits st' =
          commits st ++ [mkCommit r message_ time_ (uncommittedSteps st)
                                  (uncommittedMaps st) false]
        /\ uncommittedSteps st' = []
        /\ uncommittedMaps st' = []
        /\ blameMap st' = blameMap st
    end.
Proof.
  intros r message_ time_ st st'. subst st'. unfold applyCommit.
  destruct (uncommittedSteps st) as [|s pending] eqn:E.
  - reflexivity.
  - cbn. repeat split.
Qed.

(** ** revertCommit: the two rejections *)

Lemma indexOf_Some_found :
  forall (cs : list Commit) (c : Commit) (i : nat),
    indexOf cs c = Some i ->
    exists x, nth_error cs i = Some x /\ ref x = ref c.
Proof.
  induction cs as [|x rest IH]; intros c i; cbn; [discriminate|].
  destruct (Nat.eqb (ref x) (ref c)) eqn:E.
  - intros [= <-]. apply Nat.eqb_eq in E. exists x. auto.
  - destruct (indexOf rest c) as [n|] eqn:I; cbn; [|discriminate].
    intros [= <-]. apply (IH c n I).
Qed.

Lemma indexOf_None_not_found :
  forall (cs : list Commit) (c : Commit),
    indexOf cs c = None -> ~ found_by_identity c cs.
Proof.
  unfold found_by_identity.
  induction cs as [|x rest IH]; intros c; cbn.
  - intros _ [y [[] _]].
  - destruct (Nat.eqb (ref x) (ref c)) eqn:E; [discriminate|].
    apply Nat.eqb_neq in E.
    destruct (indexOf rest c) as [n|] eqn:I; cbn; [discriminate|].
    intros _ [y [[->|Hy] Ey]]; [contradiction|].
    apply (IH c I). exists y. auto.
Qed.

Lemma indexOf_None_iff :
  forall (cs : list Commit) (c : Commit),
    indexOf cs c = None <-> ~ found_by_identity c cs.
Proof.
  intros cs c. split; [apply indexOf_None_not_found|].
  intros H. destruct (indexOf cs c) as [i|] eqn:I; [|reflexivity].
  exfalso. apply H. destruct (indexOf_Some_found cs c i I) as [x [Hx Ex]].
  exists x. split; [eapply nth_error_In; eauto|exact Ex].
Qed.

Lemma track_apply_create :
  forall (r : nat) (d : Doc) (time_ : Z) (st : TrackState),
    track_apply r (Transform.create d time_) st = st.
Proof. reflexivity. Qed.

(** C5: [revertCommit] returns [false] exactly when the target is not found
    by identity in the commit list or the pending buffer is not empty; it then
    hands back the transaction untouched, so that the history state the
    plugin derives from it is the one before.  ([revertCommit] is a total
    function: both rejections are plain returns.) *)
Theorem revertCommit_rejects :
  forall (c : Commit) (st : TrackState) (tr : Transform.t),
    (returned (revertCommit c st tr) = false <->
       (~ found_by_identity c (commits st) \/ uncommittedSteps st <> []))
    /\ (returned (revertCommit c st tr) = false ->
          result_tr (revertCommit c st tr) = tr)
    /\ (forall r d time_,
          returned (revertCommit c st (Transform.create d time_)) = false ->
          track_apply r
            (result_tr (revertCommit c st (Transform.create d time_))) st = st).
Proof.
  intros c st tr.
  assert (forall tr0,
             returned (revertCommit c st tr0) = false ->
             result_tr (revertCommit c st tr0) = tr0) as Hsame.
  { intros tr0. unfold revertCommit.
    destruct (indexOf (commits st) c); [|reflexivity].
    destruct (uncommittedSteps st); [|reflexivity].
    destruct (revert_loop _ _ _ _). cbn. discriminate. }
  split; [|split; [apply Hsame|]].
  - unfold revertCommit.
    destruct (indexOf (commits st) c) as [index|] eqn:I.
    + assert (found_by_identity c (commits st)) as F.
      { destruct (indexOf_Some_found _ _ _ I) as [x [Hx Ex]].
        exists x. split; [eapply nth_error_In; eauto|exact Ex]. }
      destruct (uncommittedSteps st) as [|s pending].
      * destruct (revert_loop _ _ _ _). cbn.
        split; [discriminate|]. intros [H|H]; [contradiction|congruence].
      * cbn. split; [intros _; right; discriminate|reflexivity].
    + cbn. split; [|reflexivity]. intros _. left.
      apply indexOf_None_iff. exact I.
  - intros r d time_ H. rewrite (Hsame _ H). apply track_apply_create.
Qed.

(** ** The highlight plugin *)

Lemma js_strict_eq_refl : forall v, js_strict_eq v v = true.
Proof. intros [| |c]; cbn; auto using Nat.eqb_refl. Qed.

Lemma js_strict_eq_undefined_object :
  forall a b,
    js_not_nullish b = true -> js_strict_eq a b = true ->
    js_strict_eq a JUndefined = false.
Proof. intros [| |x] [| |y]; cbn; congruence. Qed.

(** C9: a second [add(c)] with no document change leaves the overlay state
    (decoration set and active commit) that the first one produced. *)
Theorem highlight_add_idempotent :
  forall (D : DecorationSetOps) (c : JsCommit) (tr1 tr2 : Transform.t)
         (prev : HighlightState) (tracked1 tracked2 : TrackState)
         (doc1 doc2 : Doc),
    Transform.highlightMeta tr1 = Some (mkHighlightMeta c JUndefined) ->
    Transform.highlightMeta tr2 = Some (mkHighlightMeta c JUndefined) ->
    Transform.docChanged tr2 = false ->
    highlight_apply tr2 (highlight_apply tr1 prev tracked1 doc1) tracked2 doc2
    = highlight_apply tr1 prev tracked1 doc1.
Proof.
  intros D c tr1 tr2 prev tracked1 tracked2 doc1 doc2 M1 M2 Hdoc.
  unfold highlight_apply at 1. rewrite M2, Hdoc. cbn.
  set (mid := highlight_apply tr1 prev tracked1 doc1).
  destruct (js_not_nullish c) eqn:Hc; cbn.
  - (* [c] is a commit object: the first call made it, or found it, active *)
    assert (js_strict_eq (commit mid) c = true) as Heq.
    { subst mid. unfold highlight_apply. rewrite M1. cbn. rewrite Hc. cbn.
      destruct (js_strict_eq (commit prev) c) eqn:E; cbn.
      - rewrite (js_strict_eq_undefined_object _ _ Hc E).
        destruct (Transform.docChanged tr1 && js_truthy (commit prev));
          exact E.
      - apply js_strict_eq_refl. }
    rewrite Heq. cbn.
    rewrite (js_strict_eq_undefined_object _ _ Hc Heq). reflexivity.
  - (* [c] is [null] or [undefined]: only the [clear] test can fire, and it
       leaves [null] behind *)
    assert (js_strict_eq (commit mid) JUndefined = false) as Hmid.
    { subst mid. unfold highlight_apply. rewrite M1. cbn. rewrite Hc. cbn.
      destruct (js_strict_eq (commit prev) JUndefined) eqn:E; cbn;
        [reflexivity|].
      destruct (Transform.docChanged tr1 && js_truthy (commit prev));
        exact E. }
    rewrite Hmid. reflexivity.
Qed.

Lemma highlight_add_idempotent_witness :
  let tr := ex_highlight_tr ex_commit0 in
  highlight_apply tr (highlight_apply tr highlight_init ex_hello_st
                                      (text "Hello world"))
                  ex_hello_st (text "Hello world")
  = highlight_apply tr highlight_init ex_hello_st (text "Hello world").
Proof.
  apply (highlight_add_idempotent ListDecorations (JObject ex_commit0));
    reflexivity.
Defined.

(** For a commit at an index other than [0], [add] does select the spans
    attributed to it. *)
Lemma highlight_filter_later_commit :
  forall (cs : list Commit) (c : Commit) (i : nat) (span : Span.t),
    NoDup (List.map ref cs) ->
    nth_error cs (S i) = Some c ->
    highlight_filter cs (JObject c) span = true
    <-> Span.commit span = Some (S i).
Proof.
  intros cs c i span Hnodup Hc. unfold highlight_filter.
  destruct (Span.commit span) as [[|k]|].
  - split; discriminate.
  - unfold js_index. destruct (nth_error cs (S k)) as [x|] eqn:Hx; cbn.
    + rewrite Nat.eqb_eq. split.
      * intros E. f_equal.
        apply (proj1 (NoDup_nth_error (List.map ref cs)) Hnodup).
        -- rewrite length_map. apply nth_error_Some. congruence.
        -- rewrite !nth_error_map, Hx, Hc. cbn. congruence.
      * intros [= ->]. congruence.
    + split; [discriminate|]. intros [= ->]. congruence.
  - split; discriminate.
Qed.

(** C8, evaluated where it fails: in the state of scenario 1 the span
    [[5, 11)] is attributed to the first commit, whose index is [0], and
    [add] of that commit from [Idle] yields no decoration. *)
Theorem highlight_first_commit_no_decoration :
  commits ex_hello_st = [ex_commit0]
  /\ blameMap ex_hello_st = [Span.mk 0 5 None; Span.mk 5 11 (Some 0%nat)]
  /\ highlight_apply (ex_highlight_tr ex_commit0) highlight_init ex_hello_st
                     (text "Hello world")
     = mkHighlightState [] (JObject ex_commit0).
Proof. repeat split. Qed.

(** ** The survivor phase of updateBlameMap *)

(** What the two values of [assoc] mean at an insertion point. *)
Lemma bias_at_insertion :
  forall p n : Z,
    let m := StepMap.mk [(p, 0, n)] false in
    StepMap.map m p bias_left = p /\ StepMap.map m p bias_right = p + n.
Proof.
  intros p n m. unfold StepMap.map, StepMap.mapResult, bias_left, bias_right.
  cbn -[Z.add Z.sub Z.gtb Z.leb Z.eqb Z.ltb].
  replace (p - 0) with p by lia. replace (p + 0) with p by lia.
  rewrite Z.gtb_ltb, Z.ltb_irrefl, Z.leb_refl. cbn. split; lia.
Qed.

(** C3 as stated, at the map of [ex_st2] and the insertion of six tokens at
    position 5: the code moves the start of [[5, 9)] past the insertion and
    keeps the end of [[0, 5)] before it, where left-biased [from] and
    right-biased [to] would make both spans swallow the inserted range. *)
Lemma remap_spans_bias_counterexample :
  blameMap ex_st2 = [Span.mk 0 5 None; Span.mk 5 9 None]
  /\ remap_spans (blameMap ex_st2) (Transform.mapping ex_tr1)
     = [Span.mk 0 5 None; Span.mk 11 15 None]
  /\ remap_spans_left_right (blameMap ex_st2) (Transform.mapping ex_tr1)
     = [Span.mk 0 11 None; Span.mk 5 15 None]
  /\ remap_spans (blameMap ex_st2) (Transform.mapping ex_tr1)
     <> remap_spans_left_right (blameMap ex_st2) (Transform.mapping ex_tr1).
Proof. repeat split. discriminate. Qed.

(** C3, amended: in the survivor phase every span has [from] mapped with
    right bias ([assoc = 1]) and [to] with left bias ([assoc = -1]) through
    the transform's mapping; it is dropped exactly when the mapped [from] is
    greater than or equal to the mapped [to], and otherwise kept, in place,
    with its attribution. *)
Theorem remap_spans_spec :
  forall (map : list Span.t) (mapping : Mapping.t),
    remap_spans map mapping = flat_map (remap_span mapping) map
    /\ forall span,
         let from_ := Mapping.map mapping (Span.from span) bias_right in
         let to_ := Mapping.map mapping (Span.to span) bias_left in
         (from_ >= to_ <-> remap_span mapping span = [])
         /\ (~ from_ >= to_ <->
             remap_span mapping span
             = [Span.mk from_ to_ (Span.commit span)]).
Proof.
  intros map mapping. split.
  - induction map as [|span rest IH]; cbn; [reflexivity|].
    unfold remap_span at 1. unfold bias_left, bias_right.
    rewrite Z.geb_leb, <- IH.
    destruct (Z.ltb_spec (Mapping.map mapping (Span.from span) 1)
                         (Mapping.map mapping (Span.to span) (-1)));
      destruct (Z.leb_spec (Mapping.map mapping (Span.to span) (-1))
                           (Mapping.map mapping (Span.from span) 1));
      try lia; reflexivity.
  - intros span from_ to_. unfold remap_span. fold from_ to_.
    rewrite Z.geb_leb.
    destruct (Z.leb_spec to_ from_); split; split;
      intros; try lia; try reflexivity; try discriminate.
Qed.

(** ** revertCommit: where a fragment goes in the pipeline *)

(** C7 as stated, at the first iteration of reverting the commit of
    scenario 1: the fragment of the step that applied is the last element of
    the pipeline afterwards, not the one at slot [0]. *)
Lemma revert_fragment_not_at_slot :
  let remap := Mapping.create (maps ex_commit0) in
  let tr := Transform.create (text "Hello world") 0 in
  let fragment := StepMap.mk [(5, 6, 0)] false in
  Transform.steps (snd (revert_body ex_commit0 0 remap tr))
  = [Step.ReplaceStep 5 11 []]
  /\ Mapping.maps (fst (revert_body ex_commit0 0 remap tr))
     = Mapping.maps remap ++ [fragment]
  /\ Mapping.maps (fst (revert_body ex_commit0 0 remap tr))
     <> insert_at 0 fragment (Mapping.maps remap).
Proof. repeat split. discriminate. Qed.

(** C7, amended: when the remapped operation of index [i] applies, its
    fragment is appended at the end of the pipeline of [remap] and recorded
    as the mirror of slot [i]; the slice every later iteration takes (from
    [j + 1] with [j < i]) runs to the new end and so contains it. *)
Theorem revert_body_appends :
  forall (c : Commit) (i : nat) (remap : Mapping.t) (tr : Transform.t)
         (step remapped : Step.t) (d : Doc),
    nth_error (steps c) i = Some step ->
    Step.map step (Mapping.slice remap (i + 1)) = Some remapped ->
    Step.apply remapped (Transform.doc tr) = Some d ->
    (i < length (Mapping.maps remap))%nat ->
    let n := length (Mapping.maps remap) in
    let remap' := fst (revert_body c i remap tr) in
    revert_loop c (S i) remap tr
    = revert_loop c i remap' (Transform.addStep tr remapped d)
    /\ Mapping.maps remap' = Mapping.maps remap ++ [Step.getMap remapped]
    /\ Mapping.mirror remap' = Mapping.setMirror (Mapping.mirror remap) n i
    /\ forall j, (j < i)%nat ->
         let sl := Mapping.slice remap' (j + 1) in
         (Mapping.from sl <= n < Mapping.to sl)%nat
         /\ nth_error (Mapping.maps sl) n = Some (Step.getMap remapped).
Proof.
  intros c i remap tr step remapped d Hstep Hmap Happly Hi n remap'.
  assert (revert_body c i remap tr
          = (Mapping.appendMap remap (Step.getMap remapped) (Some i),
             Transform.addStep tr remapped d)) as Hbody.
  { unfold revert_body, Transform.maybeStep.
    rewrite Hstep, Hmap, Happly. reflexivity. }
  subst remap'. cbn [revert_loop]. rewrite Hbody. cbn [fst].
  split; [reflexivity|]. split; [reflexivity|]. split.
  - unfold Mapping.appendMap. cbn. rewrite length_app. cbn.
    replace (length (Mapping.maps remap) + 1 - 1)%nat with n by (subst n; lia).
    reflexivity.
  - intros j Hj. cbn. rewrite length_app. cbn. split.
    + subst n. lia.
    + rewrite nth_error_app2 by (subst n; lia).
      subst n. rewrite Nat.sub_diag. reflexivity.
Qed.

Lemma revert_body_appends_witness :
  let remap := Mapping.create (maps ex_commit0) in
  let tr := Transform.create (text "Hello world") 0 in
  Mapping.maps (fst (revert_body ex_commit0 0 remap tr))
  = Mapping.maps remap ++ [StepMap.mk [(5, 6, 0)] false].
Proof.
  apply (revert_body_appends ex_commit0 0
           (Mapping.create (maps ex_commit0))
           (Transform.create (text "Hello world") 0)
           (Step.ReplaceStep 5 11 []) (Step.ReplaceStep 5 11 [])
           (text "Hello")); reflexivity || (cbn; lia).
Defined.

(** ** The index of a new commit is the id its spans already carry *)

Lemma attributed_from_refl : forall m id, attributed_from m m id.
Proof. intros m id s Hs. right. exists s. auto. Qed.

Lemma attributed_from_trans :
  forall m1 m2 m3 id,
    attributed_from m3 m2 id -> attributed_from m2 m1 id ->
    attributed_from m3 m1 id.
Proof.
  intros m1 m2 m3 id H32 H21 s Hs.
  destruct (H32 s Hs) as [E|(s2 & Hs2 & E)]; [auto|].
  destruct (H21 s2 Hs2) as [E'|(s1 & Hs1 & E')].
  - left. congruence.
  - right. exists s1. split; [exact Hs1|congruence].
Qed.

Lemma insert_scan_attribution :
  forall (m : list Span.t) (from_ to_ : Z) (id : nat),
    attributed_from (fst (insert_scan m from_ to_ id)
                     ++ snd (insert_scan m from_ to_ id)) m id.
Proof.
  induction m as [|next rest IH]; intros from_ to_ id; cbn [insert_scan].
  - intros s [].
  - assert (attributed_from (next :: rest) (next :: rest) id) as Hrefl
        by apply attributed_from_refl.
    assert (forall before after,
               attributed_from (before ++ after) rest id ->
               attributed_from ((next :: before) ++ after) (next :: rest) id)
      as Hcons.
    { intros before after H s [<-|Hs].
      - right. exists next. cbn. auto.
      - destruct (H s Hs) as [E|(s0 & Hs0 & E)]; [auto|].
        right. exists s0. cbn. auto. }
    assert (forall tail,
               (tail = next :: rest \/ tail = rest) ->
               attributed_from
                 ([Span.mk (Span.from next) from_ (Span.commit next)] ++ tail)
                 (next :: rest) id) as Hleft.
    { intros tail Htail s [<-|Hs].
      - right. exists next. cbn. auto.
      - right. exists s. split; [|reflexivity].
        destruct Htail as [-> | ->]; cbn; auto;
          destruct Hs; auto. }
    specialize (IH from_ to_ id).
    destruct (insert_scan rest from_ to_ id) as [before after].
    cbn [fst snd] in IH.
    destruct (commit_is (Span.commit next) id).
    + destruct (Span.to next >=? from_); cbn [fst snd]; auto.
    + destruct (Span.to next >? from_); cbn [fst snd]; auto.
      destruct (Span.from next <? from_); cbn [fst snd]; auto.
      destruct (Span.to next >? to_); cbn [fst snd]; auto.
Qed.

Lemma insert_absorb_attribution :
  forall (after : list Span.t) (from_ to_ : Z) (id : nat),
    attributed_from (fst (fst (insert_absorb after from_ to_ id))) after id.
Proof.
  induction after as [|next rest IH]; intros from_ to_ id;
    cbn [insert_absorb].
  - intros s [].
  - assert (forall l, attributed_from l rest id ->
                      attributed_from l (next :: rest) id) as Hskip.
    { intros l H s Hs. destruct (H s Hs) as [E|(s0 & Hs0 & E)]; [auto|].
      right. exists s0. cbn. auto. }
    destruct (commit_is (Span.commit next) id).
    + destruct (Span.from next >? to_); cbn [fst];
        [apply attributed_from_refl|apply Hskip, IH].
    + destruct (Span.from next >=? to_); cbn [fst];
        [apply attributed_from_refl|].
      destruct (Span.to next >? to_); cbn [fst]; [|apply Hskip, IH].
      intros s [<-|Hs]; right; [exists next|exists s]; cbn; auto.
Qed.

(** [insertIntoBlameMap] creates no attribution but the one it is given. *)
Lemma insertIntoBlameMap_attribution :
  forall (m : list Span.t) (from_ to_ : Z) (id : nat),
    attributed_from (insertIntoBlameMap m from_ to_ id) m id.
Proof.
  intros m from_ to_ id. unfold insertIntoBlameMap.
  destruct (from_ >=? to_); [apply attributed_from_refl|].
  pose proof (insert_scan_attribution m from_ to_ id) as Hscan.
  destruct (insert_scan m from_ to_ id) as [before after]. cbn [fst snd] in *.
  pose proof (insert_absorb_attribution after from_ to_ id) as Habs.
  destruct (insert_absorb after from_ to_ id) as [[after' from'] to'].
  cbn [fst] in Habs.
  intros s Hs. apply in_app_or in Hs. destruct Hs as [Hs|[<-|Hs]].
  - apply Hscan. apply in_or_app. auto.
  - left. reflexivity.
  - destruct (Habs s Hs) as [E|(s0 & Hs0 & E)]; [auto|].
    destruct (Hscan s0 (in_or_app _ _ _ (or_intror Hs0)))
      as [E'|(s1 & Hs1 & E')].
    + left. congruence.
    + right. exists s1. split; [exact Hs1|congruence].
Qed.

Lemma remap_spans_attribution :
  forall (m : list Span.t) (mp : Mapping.t) (id : nat),
    attributed_from (remap_spans m mp) m id.
Proof.
  induction m as [|span rest IH]; intros mp id s Hs; cbn in Hs; [destruct Hs|].
  destruct (Mapping.map mp (Span.from span) 1
            <? Mapping.map mp (Span.to span) (-1)).
  - destruct Hs as [<-|Hs].
    + right. exists span. cbn. auto.
    + destruct (IH mp id s Hs) as [E|(s0 & Hs0 & E)]; [auto|].
      right. exists s0. cbn. auto.
  - destruct (IH mp id s Hs) as [E|(s0 & Hs0 & E)]; [auto|].
    right. exists s0. cbn. auto.
Qed.

(** The spans [updateBlameMap] creates carry the id it is given; every other
    span keeps an attribution of the old map. *)
Lemma updateBlameMap_attribution :
  forall (m : list Span.t) (mp : Mapping.t) (id : nat),
    attributed_from (updateBlameMap m mp id) m id.
Proof.
  intros m mp id. unfold updateBlameMap.
  assert (forall rs result after,
             attributed_from result m id ->
             attributed_from (insert_ranges result after rs id) m id)
    as Hranges.
  { induction rs as [|[[[a b] c] d] rs IH]; intros result after H; cbn;
      [exact H|].
    apply IH. eapply attributed_from_trans; [|exact H].
    apply insertIntoBlameMap_attribution. }
  assert (forall ms i result,
             attributed_from result m id ->
             attributed_from (insert_steps result mp ms i id) m id)
    as Hsteps.
  { induction ms as [|m0 ms IH]; intros i result H; cbn; [exact H|].
    apply IH, Hranges, H. }
  apply Hsteps, remap_spans_attribution.
Qed.

Lemma edit_trace_commits :
  forall (trs : list Transform.t) (st : TrackState),
    commits (snd (edit_trace st trs)) = commits st
    /\ Forall (fun id => id = length (commits st)) (fst (edit_trace st trs))
    /\ attributed_from (blameMap (snd (edit_trace st trs))) (blameMap st)
                       (length (commits st)).
Proof.
  induction trs as [|tr rest IH]; intros st; cbn.
  - repeat split; auto. apply attributed_from_refl.
  - specialize (IH (applyTransform tr st)).
    destruct (edit_trace (applyTransform tr st) rest) as [ids st'].
    cbn in *. destruct IH as (E & F & A). split; [exact E|]. split.
    + constructor; [reflexivity|exact F].
    + eapply attributed_from_trans; [exact A|].
      apply updateBlameMap_attribution.
Qed.

Lemma indexOf_app_fresh :
  forall (cs : list Commit) (c : Commit),
    (forall x, In x cs -> ref x <> ref c) ->
    indexOf (cs ++ [c]) c = Some (length cs).
Proof.
  induction cs as [|x rest IH]; intros c Hfresh; cbn.
  - rewrite Nat.eqb_refl. reflexivity.
  - destruct (Nat.eqb_spec (ref x) (ref c)) as [E|E].
    + exfalso. apply (Hfresh x); cbn; auto.
    + rewrite IH; [reflexivity|]. intros y Hy. apply Hfresh. cbn. auto.
Qed.

(** [applyCommit] on a pending buffer that is not empty appends the new
    commit, which [indexOf] then finds at the old length. *)
Lemma applyCommit_appends :
  forall (st : TrackState) (r : nat) (message_ : string) (time_ : Z),
    uncommittedSteps st <> [] ->
    fresh_ref r st ->
    let c := new_Commit r message_ time_ (uncommittedSteps st)
                        (uncommittedMaps st) in
    commits (applyCommit r message_ time_ st) = commits st ++ [c]
    /\ indexOf (commits (applyCommit r message_ time_ st)) c
       = Some (length (commits st)).
Proof.
  intros st r message_ time_ Hpending Hfresh c.
  assert (commits (applyCommit r message_ time_ st) = commits st ++ [c])
    as E.
  { unfold applyCommit. subst c. unfold new_Commit.
    destruct (uncommittedSteps st); [contradiction|reflexivity]. }
  rewrite E. split; [reflexivity|].
  apply indexOf_app_fresh. intros x Hx. cbn. apply Hfresh. exact Hx.
Qed.



(** ** insertIntoBlameMap keeps a map ordered and adds exactly its range *)

Lemma covered_nil : forall x, ~ covered [] x.
Proof. intros x [s [[] _]]. Qed.

Lemma covered_cons :
  forall s m x, covered (s :: m) x <-> in_span s x \/ covered m x.
Proof.
  intros s m x. unfold covered. split.
  - intros [s' [[<-|Hin] Hx]]; [left; exact Hx|right; eauto].
  - intros [Hx|[s' [Hin Hx]]]; [exists s|exists s']; cbn; auto.
Qed.

Lemma covered_app :
  forall m1 m2 x, covered (m1 ++ m2) x <-> covered m1 x \/ covered m2 x.
Proof.
  induction m1 as [|s m1 IH]; intros m2 x; cbn.
  - split; [auto|]. intros [H|H]; [destruct (covered_nil _ H)|exact H].
  - rewrite !covered_cons, IH. tauto.
Qed.

Lemma chain_weaken :
  forall m lo lo', lo' <= lo -> chain lo m -> chain lo' m.
Proof. destruct m as [|s m]; cbn; intros; [exact I|]. intuition lia. Qed.

Lemma chain_covered_ge :
  forall m lo x, chain lo m -> covered m x -> lo <= x.
Proof.
  induction m as [|s m IH]; intros lo x Hc Hx.
  - destruct (covered_nil _ Hx).
  - cbn in Hc. destruct Hc as (H1 & H2 & H3).
    apply covered_cons in Hx. destruct Hx as [Hx|Hx].
    + unfold in_span in Hx. lia.
    + specialize (IH _ _ H3 Hx). lia.
Qed.

(** The [while] loop, entered with every remaining span at or after
    [from]: it leaves [from] alone, may push [to] further, and what it hands
    back covers the old spans and the inserted range, nothing more. *)
Lemma insert_absorb_spec :
  forall (after : list Span.t) (lo from_ to_ : Z) (id : nat),
    chain lo after -> from_ <= lo -> from_ < to_ ->
    match insert_absorb after from_ to_ id with
    | (after', from', to') =>
        from' = from_ /\ to_ <= to' /\ chain to' after'
        /\ forall x, (from_ <= x < to' \/ covered after' x)
                     <-> (from_ <= x < to_ \/ covered after x)
    end.
Proof.
  induction after as [|next rest IH]; intros lo from_ to_ id Hc Hlo Hlt.
  - cbn. repeat split; try lia; tauto.
  - cbn in Hc. destruct Hc as (H1 & H2 & H3). cbn [insert_absorb].
    destruct (commit_is (Span.commit next) id).
    + destruct (Z.gtb_spec (Span.from next) to_) as [G|G].
      * repeat split; cbn; try lia; try tauto; try assumption.
      * replace (Z.min from_ (Span.from next)) with from_ by lia.
        specialize (IH (Span.to next) from_ (Z.max to_ (Span.to next)) id
                       H3 ltac:(lia) ltac:(lia)).
        destruct (insert_absorb rest from_ (Z.max to_ (Span.to next)) id)
          as [[after' from'] to'].
        destruct IH as (E & L & C & Hx).
        repeat split; try lia; try exact C;
          rewrite covered_cons; unfold in_span;
          specialize (Hx x); intuition lia.
    + rewrite Z.geb_leb.
      destruct (Z.leb_spec to_ (Span.from next)) as [G|G].
      * repeat split; cbn; try lia; try tauto; try assumption.
      * destruct (Z.gtb_spec (Span.to next) to_) as [T|T].
        -- repeat split; cbn; try lia; try assumption;
             rewrite !covered_cons; unfold in_span; cbn; intuition lia.
        -- specialize (IH (Span.to next) from_ to_ id H3 ltac:(lia) Hlt).
           destruct (insert_absorb rest from_ to_ id)
             as [[after' from'] to'].
           destruct IH as (E & L & C & Hx).
           repeat split; try lia; try exact C;
             rewrite covered_cons; unfold in_span;
             specialize (Hx x); intuition lia.
Qed.

Ltac cover_arith :=
  repeat rewrite covered_cons in *; unfold in_span in *; cbn in *;
  intuition lia.

(** The two loops and the final [splice] together, for a range that is not
    empty. *)
Lemma insert_loops_spec :
  forall (m : list Span.t) (lo from_ to_ : Z) (id : nat),
    chain lo m -> lo <= from_ -> from_ < to_ ->
    let result :=
      let (before, after) := insert_scan m from_ to_ id in
      let '(after', from', to') := insert_absorb after from_ to_ id in
      before ++ Span.mk from' to' (Some id) :: after' in
    chain lo result
    /\ forall x, covered result x <-> (covered m x \/ from_ <= x < to_).
Proof.
  induction m as [|next rest IH]; intros lo from_ to_ id Hc Hlo Hlt.
  - cbn. split; [auto|]. intros x. rewrite covered_cons. unfold in_span.
    cbn. pose proof (covered_nil x). tauto.
  - cbn in Hc. destruct Hc as (H1 & H2 & H3).
    assert (forall lo',
               lo <= lo' -> lo' <= Span.from next -> from_ <= lo' ->
               let result :=
                 let '(after', from', to') :=
                   insert_absorb (next :: rest) from_ to_ id in
                 [] ++ Span.mk from' to' (Some id) :: after' in
               chain lo result
               /\ forall x,
                   covered result x
                   <-> (covered (next :: rest) x \/ from_ <= x < to_))
      as Hdirect.
    { intros lo' L1 L2 L3. cbv zeta.
      pose proof (insert_absorb_spec (next :: rest) lo' from_ to_ id) as A.
      cbn [chain] in A. specialize (A ltac:(auto) L3 Hlt).
      destruct (insert_absorb (next :: rest) from_ to_ id)
        as [[after' from'] to'].
      destruct A as (-> & L & C & Hx). cbn [app chain Span.from Span.to].
      split; [repeat split; try lia; exact C|].
      intros x. specialize (Hx x). rewrite covered_cons. unfold in_span.
      cbn. tauto. }
    cbn [insert_scan].
    destruct (commit_is (Span.commit next) id) eqn:Ecommit.
    + destruct (Z.geb_spec (Span.to next) from_) as [G|G].
      * destruct (Z.le_gt_cases from_ (Span.from next)) as [F|F].
        -- exact (Hdirect (Span.from next) ltac:(lia) ltac:(lia) ltac:(lia)).
        -- cbn [insert_absorb]. rewrite Ecommit.
           destruct (Z.gtb_spec (Span.from next) to_) as [T|T]; [lia|].
           pose proof (insert_absorb_spec rest (Span.to next)
                         (Z.min from_ (Span.from next))
                         (Z.max to_ (Span.to next)) id H3
                         ltac:(lia) ltac:(lia)) as A.
           destruct (insert_absorb rest (Z.min from_ (Span.from next))
                                   (Z.max to_ (Span.to next)) id)
             as [[after' from'] to'].
           destruct A as (-> & L & C & Hx). cbn [app chain Span.from Span.to].
           split; [repeat split; try lia; exact C|].
           intros x. specialize (Hx x). cover_arith.
      * specialize (IH (Span.to next) from_ to_ id H3 ltac:(lia) Hlt).
        destruct (insert_scan rest from_ to_ id) as [before after].
        destruct (insert_absorb after from_ to_ id) as [[after' from'] to'].
        destruct IH as [C Hx]. cbn [app chain].
        split; [auto|]. intros x. specialize (Hx x). cover_arith.
    + destruct (Z.gtb_spec (Span.to next) from_) as [G|G].
      * destruct (Z.ltb_spec (Span.from next) from_) as [F|F].
        -- destruct (Z.gtb_spec (Span.to next) to_) as [T|T].
           ++ cbn [insert_absorb]. rewrite Ecommit, Z.geb_leb.
              destruct (Z.leb_spec to_ (Span.from next)); [lia|].
              destruct (Z.gtb_spec (Span.to next) to_); [|lia].
              cbn [app chain Span.from Span.to].
              split; [repeat split; try lia; exact H3|].
              intros x. cover_arith.
           ++ pose proof (insert_absorb_spec rest (Span.to next) from_ to_ id
                            H3 ltac:(lia) Hlt) as A.
              destruct (insert_absorb rest from_ to_ id)
                as [[after' from'] to'].
              destruct A as (-> & L & C & Hx).
              cbn [app chain Span.from Span.to].
              split; [repeat split; try lia; exact C|].
              intros x. specialize (Hx x). cover_arith.
        -- exact (Hdirect (Span.from next) ltac:(lia) ltac:(lia) ltac:(lia)).
      * specialize (IH (Span.to next) from_ to_ id H3 ltac:(lia) Hlt).
        destruct (insert_scan rest from_ to_ id) as [before after].
        destruct (insert_absorb after from_ to_ id) as [[after' from'] to'].
        destruct IH as [C Hx]. cbn [app chain].
        split; [auto|]. intros x. specialize (Hx x). cover_arith.
Qed.

(** [insertIntoBlameMap] on an ordered map: the result is ordered and covers
    what the map covered together with [[from, to)]. *)
Lemma insertIntoBlameMap_chain :
  forall (m : list Span.t) (lo from_ to_ : Z) (id : nat),
    chain lo m -> lo <= from_ ->
    chain lo (insertIntoBlameMap m from_ to_ id)
    /\ forall x, covered (insertIntoBlameMap m from_ to_ id) x
                 <-> (covered m x \/ from_ <= x < to_).
Proof.
  intros m lo from_ to_ id Hc Hlo. unfold insertIntoBlameMap.
  destruct (Z.geb_spec from_ to_) as [G|G].
  - split; [exact Hc|]. intros x. intuition lia.
  - apply insert_loops_spec; auto.
Qed.

(** ** Position mapping through the maps of replace steps *)

Ltac split_compare :=
  repeat match goal with
         | |- context [?a >? ?b] => destruct (Z.gtb_spec a b)
         | |- context [?a <=? ?b] => destruct (Z.leb_spec a b)
         | |- context [?a <? ?b] => destruct (Z.ltb_spec a b)
         | |- context [?a =? ?b] => destruct (Z.eqb_spec a b)
         | |- context [?a >=? ?b] => destruct (Z.geb_spec a b)
         end.

(** [map] through one replace map, in closed form for the two values of
    [assoc] the code passes. *)
Lemma replace_map_right :
  forall s o n pos : Z,
    0 <= o ->
    StepMap.map (replace_map s o n) pos 1
    = if pos <? s then pos
      else if s + o <? pos then pos + n - o
      else if (0 <? o) && (pos =? s) then s
      else s + n.
Proof.
  intros s o n pos Ho.
  unfold StepMap.map, StepMap.mapResult, replace_map.
  cbn -[Z.add Z.sub Z.gtb Z.leb Z.eqb Z.ltb].
  replace (s - 0) with s by lia.
  destruct (Z.gtb_spec s pos), (Z.ltb_spec pos s); try lia; cbn; [lia|].
  destruct (Z.leb_spec pos (s + o)), (Z.ltb_spec (s + o) pos); try lia;
    cbn; [|lia].
  destruct (Z.eqb_spec o 0), (Z.ltb_spec 0 o); try lia; cbn; [lia|].
  destruct (Z.eqb_spec pos s); cbn; [lia|].
  destruct (Z.eqb_spec pos (s + o)); cbn; lia.
Qed.

Lemma replace_map_left :
  forall s o n pos : Z,
    0 <= o ->
    StepMap.map (replace_map s o n) pos (-1)
    = if pos <? s then pos
      else if s + o <? pos then pos + n - o
      else if (0 <? o) && (pos =? s + o) then s + n
      else s.
Proof.
  intros s o n pos Ho.
  unfold StepMap.map, StepMap.mapResult, replace_map.
  cbn -[Z.add Z.sub Z.gtb Z.leb Z.eqb Z.ltb].
  replace (s - 0) with s by lia.
  destruct (Z.gtb_spec s pos), (Z.ltb_spec pos s); try lia; cbn; [lia|].
  destruct (Z.leb_spec pos (s + o)), (Z.ltb_spec (s + o) pos); try lia;
    cbn; [|lia].
  destruct (Z.eqb_spec o 0), (Z.ltb_spec 0 o); try lia; cbn; [lia|].
  destruct (Z.eqb_spec pos s), (Z.eqb_spec pos (s + o)); cbn; lia.
Qed.

Ltac replace_map_arith :=
  rewrite ?replace_map_right, ?replace_map_left by assumption;
  split_compare; cbn; lia.

Lemma replace_map_mono :
  forall s o n x y : Z,
    0 <= o -> 0 <= n -> x <= y ->
    StepMap.map (replace_map s o n) x (-1)
      <= StepMap.map (replace_map s o n) y (-1)
    /\ StepMap.map (replace_map s o n) x 1
         <= StepMap.map (replace_map s o n) y 1
    /\ StepMap.map (replace_map s o n) x (-1)
         <= StepMap.map (replace_map s o n) y 1.
Proof. intros s o n x y Ho Hn Hxy. repeat split; replace_map_arith. Qed.

Lemma replace_map_bounds :
  forall s o n len pos assoc : Z,
    assoc = 1 \/ assoc = -1 ->
    0 <= s -> 0 <= o -> 0 <= n -> s + o <= len -> 0 <= pos <= len ->
    0 <= StepMap.map (replace_map s o n) pos assoc <= len - o + n.
Proof.
  intros s o n len pos assoc [->| ->] Hs Ho Hn Hlen Hpos; replace_map_arith.
Qed.

(** A token that the step keeps: its two ends map to the ends of its image. *)
Lemma replace_map_cell :
  forall s o n x : Z,
    0 <= o -> 0 <= n ->
    (x + 1 <= s ->
       StepMap.map (replace_map s o n) x 1 = x
       /\ StepMap.map (replace_map s o n) (x + 1) (-1) = x + 1)
    /\ (s + o <= x ->
          StepMap.map (replace_map s o n) x 1 = x + n - o
          /\ StepMap.map (replace_map s o n) (x + 1) (-1) = x + 1 + n - o).
Proof. intros s o n x Ho Hn. repeat split; intros; replace_map_arith. Qed.

Lemma map_simple_mono :
  forall (ms : list StepMap.t) (len len' x y : Z),
    maps_fit ms len len' -> x <= y ->
    Mapping.map_simple ms x (-1) <= Mapping.map_simple ms y (-1)
    /\ Mapping.map_simple ms x 1 <= Mapping.map_simple ms y 1
    /\ Mapping.map_simple ms x (-1) <= Mapping.map_simple ms y 1.
Proof.
  induction ms as [|m rest IH]; intros len len' x y Hfit Hxy; cbn.
  - lia.
  - cbn in Hfit. destruct Hfit as (s & o & n & -> & Hs & Ho & Hn & Hlen & Hrest).
    destruct (replace_map_mono s o n x y Ho Hn Hxy) as (M1 & M2 & M3).
    repeat split; eapply IH; eauto.
Qed.

Lemma map_simple_bounds :
  forall (ms : list StepMap.t) (len len' pos assoc : Z),
    maps_fit ms len len' -> assoc = 1 \/ assoc = -1 -> 0 <= pos <= len ->
    0 <= Mapping.map_simple ms pos assoc <= len'.
Proof.
  induction ms as [|m rest IH]; intros len len' pos assoc Hfit Ha Hpos; cbn.
  - cbn in Hfit. lia.
  - cbn in Hfit. destruct Hfit as (s & o & n & -> & Hs & Ho & Hn & Hlen & Hrest).
    eapply IH; eauto. apply replace_map_bounds; auto.
Qed.

Lemma maps_fit_nth :
  forall (ms : list StepMap.t) (len len' : Z) (j : nat) (m : StepMap.t),
    maps_fit ms len len' -> nth_error ms j = Some m ->
    exists s o n len_j,
      m = replace_map s o n
      /\ 0 <= s /\ 0 <= o /\ 0 <= n /\ s + o <= len_j
      /\ maps_fit (skipn (S j) ms) (len_j - o + n) len'.
Proof.
  induction ms as [|m0 rest IH]; intros len len' j m Hfit Hnth.
  - destruct j; discriminate.
  - cbn in Hfit. destruct Hfit as (s & o & n & -> & Hs & Ho & Hn & Hlen & Hrest).
    destruct j as [|j]; cbn in Hnth.
    + injection Hnth as <-. exists s, o, n, len. auto 10.
    + apply (IH _ _ _ _ Hrest Hnth).
Qed.

(** Every token of the final document is the image of a token of the first
    one, or lies in a range that one of the steps inserted. *)
Lemma maps_fit_origin :
  forall (ms : list StepMap.t) (len len' y : Z),
    maps_fit ms len len' -> 0 <= y < len' ->
    (exists x, 0 <= x < len
               /\ Mapping.map_simple ms x 1 <= y
                  < Mapping.map_simple ms (x + 1) (-1))
    \/ exists j, in_inserted ms j y.
Proof.
  induction ms as [|m rest IH]; intros len len' y Hfit Hy.
  - cbn in Hfit. subst len'. left. exists y. cbn. lia.
  - cbn in Hfit. destruct Hfit as (s & o & n & -> & Hs & Ho & Hn & Hlen & Hrest).
    destruct (IH _ _ y Hrest Hy) as [(z & Hz & Hzy)|(j & s' & o' & n' & Hj & Hjy)].
    + destruct (replace_map_cell s o n z Ho Hn) as [Cl _].
      destruct (replace_map_cell s o n (z - n + o) Ho Hn) as [_ Cr].
      destruct (Z.le_gt_cases (z + 1) s) as [L|L];
        [|destruct (Z.le_gt_cases (s + n) z) as [R|R]].
      * left. exists z. cbn. destruct (Cl L) as [-> ->]. split; lia.
      * left. exists (z - n + o). cbn.
        destruct (Cr ltac:(lia)) as [E1 E2].
        rewrite E1, E2.
        replace (z - n + o + n - o) with z by lia.
        replace (z - n + o + 1 + n - o) with (z + 1) by lia. split; lia.
      * right. exists 0%nat, s, o, n. cbn. split; [reflexivity|].
        destruct (map_simple_mono rest _ _ s z Hrest ltac:(lia)) as (_ & M & _).
        destruct (map_simple_mono rest _ _ (z + 1) (s + n) Hrest ltac:(lia))
          as (M' & _ & _).
        lia.
    + right. exists (S j), s', o', n'. cbn. auto.
Qed.

Lemma maps_fit_len_nonneg :
  forall (ms : list StepMap.t) (len len' : Z),
    maps_fit ms len len' -> 0 <= len -> 0 <= len'.
Proof.
  induction ms as [|m rest IH]; intros len len' Hfit Hlen; cbn in Hfit.
  - lia.
  - destruct Hfit as (s & o & n & _ & Hs & Ho & Hn & Hso & Hrest).
    apply (IH _ _ Hrest). lia.
Qed.

(** ** updateBlameMap keeps the map ordered and gapless *)

Lemma plain_mapping_map :
  forall (mp : Mapping.t) (pos assoc : Z),
    plain_mapping mp ->
    Mapping.map mp pos assoc = Mapping.map_simple (Mapping.maps mp) pos assoc.
Proof.
  intros mp pos assoc (Hm & Hf & Ht). unfold Mapping.map.
  rewrite Hm, Hf, Ht, Nat.sub_0_r. cbn [skipn].
  rewrite firstn_all. reflexivity.
Qed.

Lemma plain_mapping_slice_map :
  forall (mp : Mapping.t) (i : nat) (pos assoc : Z),
    plain_mapping mp ->
    Mapping.map (Mapping.slice mp i) pos assoc
    = Mapping.map_simple (skipn i (Mapping.maps mp)) pos assoc.
Proof.
  intros mp i pos assoc (Hm & Hf & Ht). unfold Mapping.map, Mapping.slice.
  cbn. rewrite Hm, <- length_skipn, firstn_all. reflexivity.
Qed.

(** The survivors are ordered whenever the spans were. *)
Lemma remap_spans_chain :
  forall (m : list Span.t) (mp : Mapping.t) (lo len len' : Z),
    plain_mapping mp -> maps_fit (Mapping.maps mp) len len' ->
    weak_chain lo m ->
    chain (Mapping.map mp lo (-1)) (remap_spans m mp).
Proof.
  induction m as [|span rest IH]; intros mp lo len len' Hp Hfit Hc; cbn;
    [exact I|].
  cbn in Hc. destruct Hc as (H1 & H2 & H3).
  specialize (IH mp (Span.to span) len len' Hp Hfit H3).
  rewrite !plain_mapping_map in * by assumption.
  destruct (map_simple_mono _ _ _ lo (Span.from span) Hfit H1) as (_ & _ & M1).
  destruct (map_simple_mono _ _ _ lo (Span.to span) Hfit ltac:(lia))
    as (M2 & _ & _).
  destruct (Z.ltb_spec (Mapping.map_simple (Mapping.maps mp) (Span.from span) 1)
                       (Mapping.map_simple (Mapping.maps mp) (Span.to span) (-1))).
  - cbn. auto.
  - eapply chain_weaken; [|exact IH]. lia.
Qed.

Lemma remap_spans_covered :
  forall (m : list Span.t) (mp : Mapping.t) (y : Z),
    covered (remap_spans m mp) y
    <-> exists s, In s m
                  /\ Mapping.map mp (Span.from s) 1 <= y
                     < Mapping.map mp (Span.to s) (-1).
Proof.
  induction m as [|span rest IH]; intros mp y; cbn.
  - split; [intros H; destruct (covered_nil _ H)|intros [s [[] _]]].
  - destruct (Z.ltb_spec (Mapping.map mp (Span.from span) 1)
                         (Mapping.map mp (Span.to span) (-1))).
    + rewrite covered_cons, IH. unfold in_span. cbn. split.
      * intros [Hy|[s [Hs Hy]]]; [exists span|exists s]; auto.
      * intros [s [[<-|Hs] Hy]]; [left|right; exists s]; auto.
    + rewrite IH. split.
      * intros [s [Hs Hy]]. exists s. auto.
      * intros [s [[<-|Hs] Hy]]; [lia|exists s; auto].
Qed.

Lemma forEach_replace_map :
  forall s o n : Z,
    StepMap.forEach (replace_map s o n)
    = [(s - 0, s - 0 + o, s + 0, s + 0 + n)].
Proof. reflexivity. Qed.

Lemma skipn_cons_nth :
  forall (A : Type) (l : list A) (i : nat) (x : A) (rest : list A),
    skipn i l = x :: rest -> nth_error l i = Some x /\ skipn (S i) l = rest.
Proof.
  induction l as [|a l IH]; intros i x rest H.
  - destruct i; discriminate.
  - destruct i as [|i]; cbn in *.
    + injection H as -> ->. auto.
    + apply IH. exact H.
Qed.

(** The second loop of [updateBlameMap], from index [i] on. *)
Lemma insert_steps_spec :
  forall (ms : list StepMap.t) (mp : Mapping.t) (i id : nat)
         (result : list Span.t) (len len' : Z),
    plain_mapping mp -> maps_fit (Mapping.maps mp) len len' ->
    skipn i (Mapping.maps mp) = ms ->
    chain 0 result ->
    chain 0 (insert_steps result mp ms i id)
    /\ forall x,
         covered (insert_steps result mp ms i id) x
         <-> (covered result x
              \/ exists j, (i <= j)%nat /\ in_inserted (Mapping.maps mp) j x).
Proof.
  induction ms as [|m rest IH]; intros mp i id result len len' Hp Hfit Hsk Hc.
  - cbn. split; [exact Hc|]. intros x. split; [auto|].
    intros [H|(j & Hj & s & o & n & Hnth & _)]; [exact H|].
    exfalso. assert (length (skipn i (Mapping.maps mp)) = 0%nat) as L
      by (rewrite Hsk; reflexivity).
    rewrite length_skipn in L.
    assert (nth_error (Mapping.maps mp) j <> None) as N by congruence.
    apply nth_error_Some in N. lia.
  - destruct (skipn_cons_nth _ _ _ _ _ Hsk) as [Hnth Hrest].
    destruct (maps_fit_nth _ _ _ _ _ Hfit Hnth)
      as (s & o & n & len_i & -> & Hs & Ho & Hn & Hlen & Hfit').
    cbn [insert_steps]. rewrite forEach_replace_map. cbn [insert_ranges].
    rewrite !plain_mapping_slice_map by assumption.
    rewrite Nat.add_1_r, Hrest. rewrite Hrest in Hfit'.
    replace (s + 0) with s by lia.
    destruct (map_simple_bounds rest _ _ s 1 Hfit' ltac:(auto) ltac:(lia))
      as [B _].
    destruct (insertIntoBlameMap_chain result 0
                (Mapping.map_simple rest s 1)
                (Mapping.map_simple rest (s + n) (-1)) id Hc B) as [C Hx].
    destruct (IH mp (S i) id _ len len' Hp Hfit Hrest C) as [C' Hx'].
    split; [exact C'|]. intros x. rewrite Hx', Hx. split.
    + intros [[H|H]|(j & Hj & H)].
      * auto.
      * right. exists i. split; [lia|]. exists s, o, n.
        rewrite Hrest. auto.
      * right. exists j. split; [lia|exact H].
    + intros [H|(j & Hj & H)]; [auto|].
      destruct (Nat.eq_dec j i) as [->|Hne].
      * left. right. destruct H as (s' & o' & n' & Hnth' & H).
        rewrite Hnth in Hnth'. injection Hnth' as -> -> ->.
        rewrite Hrest in H. exact H.
      * right. exists j. split; [lia|exact H].
Qed.

Lemma chain_weak : forall m lo, chain lo m -> weak_chain lo m.
Proof.
  induction m as [|s m IH]; intros lo H; cbn in *; [exact I|].
  destruct H as (H1 & H2 & H3). repeat split; auto; lia.
Qed.

Lemma weak_chain_In_ge :
  forall m lo s, weak_chain lo m -> In s m -> lo <= Span.from s.
Proof.
  induction m as [|a m IH]; intros lo s Hc Hin; [destruct Hin|].
  cbn in Hc. destruct Hc as (H1 & H2 & H3).
  destruct Hin as [<-|Hin]; [exact H1|].
  specialize (IH _ _ H3 Hin). lia.
Qed.

(** [updateBlameMap] takes an ordered map that covers the old document to
    an ordered map that covers the new one. *)
Lemma updateBlameMap_tiles :
  forall (m : list Span.t) (mp : Mapping.t) (id : nat) (len len' : Z),
    plain_mapping mp -> maps_fit (Mapping.maps mp) len len' -> 0 <= len ->
    weak_chain 0 m -> covers m len ->
    chain 0 (updateBlameMap m mp id) /\ covers (updateBlameMap m mp id) len'.
Proof.
  intros m mp id len len' Hp Hfit Hlen Hc Hcov. unfold updateBlameMap.
  pose proof (remap_spans_chain m mp 0 len len' Hp Hfit Hc) as Hsurv.
  rewrite plain_mapping_map in Hsurv by assumption.
  destruct (map_simple_bounds _ _ _ 0 (-1) Hfit ltac:(auto) ltac:(lia))
    as [B0 _].
  apply (chain_weaken _ _ 0 B0) in Hsurv.
  destruct (insert_steps_spec (Mapping.maps mp) mp 0 id _ len len' Hp Hfit
              eq_refl Hsurv) as [C Hx].
  split; [exact C|].
  intros y. fold (covered (insert_steps (remap_spans m mp) mp
                                        (Mapping.maps mp) 0 id) y).
  rewrite Hx, remap_spans_covered. split.
  - intros Hy. destruct (maps_fit_origin _ _ _ y Hfit Hy)
      as [(x & Hxr & Hxy)|(j & Hj)].
    + left. destruct (proj1 (Hcov x) Hxr) as (s & Hs & Hsx).
      exists s. split; [exact Hs|]. unfold in_span in Hsx.
      rewrite !plain_mapping_map by assumption.
      destruct (map_simple_mono _ _ _ (Span.from s) x Hfit ltac:(lia))
        as (_ & M1 & _).
      destruct (map_simple_mono _ _ _ (x + 1) (Span.to s) Hfit ltac:(lia))
        as (M2 & _ & _).
      lia.
    + right. exists j. split; [lia|exact Hj].
  - intros [(s & Hs & Hy)|(j & _ & s & o & n & Hnth & Hy)].
    + rewrite !plain_mapping_map in Hy by assumption.
      assert (Span.from s < Span.to s) as Hne.
      { destruct (Z.lt_ge_cases (Span.from s) (Span.to s)) as [L|L]; [exact L|].
        destruct (map_simple_mono _ _ _ (Span.to s) (Span.from s) Hfit L)
          as (_ & _ & M).
        lia. }
      assert (0 <= Span.from s) as Hlo by (eapply weak_chain_In_ge; eauto).
      assert (Span.to s <= len) as Hhi.
      { assert (0 <= Span.to s - 1 < len) as R.
        { apply Hcov. exists s. split; [exact Hs|]. unfold in_span. lia. }
        lia. }
      destruct (map_simple_bounds _ _ _ (Span.from s) 1 Hfit ltac:(auto)
                  ltac:(lia)).
      destruct (map_simple_bounds _ _ _ (Span.to s) (-1) Hfit ltac:(auto)
                  ltac:(lia)).
      lia.
    + destruct (maps_fit_nth _ _ _ _ _ Hfit Hnth)
        as (s' & o' & n' & len_j & E & Hs' & Ho' & Hn' & Hlen' & Hfit').
      unfold replace_map in E. injection E as <- <- <-.
      destruct (map_simple_bounds _ _ _ s 1 Hfit' ltac:(auto) ltac:(lia)).
      destruct (map_simple_bounds _ _ _ (s + n) (-1) Hfit' ltac:(auto)
                  ltac:(lia)).
      lia.
Qed.

(** ** The attribution map of every reachable state *)

Lemma size_nonneg : forall d : Doc, 0 <= size d.
Proof. intros d. unfold size. lia. Qed.

Lemma Step_apply_size :
  forall (s : Step.t) (d d' : Doc),
    Step.apply s d = Some d' ->
    0 <= Step.from s /\ Step.from s <= Step.to s /\ Step.to s <= size d
    /\ size d' = size d - (Step.to s - Step.from s) + size (Step.slice s).
Proof.
  intros s d d' H. unfold Step.apply in H.
  destruct (Z.leb_spec 0 (Step.from s)); cbn in H; [|discriminate].
  destruct (Z.leb_spec (Step.from s) (Step.to s)); cbn in H; [|discriminate].
  destruct (Z.leb_spec (Step.to s) (size d)); cbn in H; [|discriminate].
  injection H as <-. unfold size in *.
  rewrite !length_app, length_firstn, length_skipn. lia.
Qed.

Lemma maps_fit_app :
  forall (ms : list StepMap.t) (m : StepMap.t) (len mid len' : Z),
    maps_fit ms len mid -> maps_fit [m] mid len' ->
    maps_fit (ms ++ [m]) len len'.
Proof.
  induction ms as [|m0 rest IH]; intros m len mid len' H1 H2; cbn in *.
  - subst mid. exact H2.
  - destruct H1 as (s & o & n & E & Hs & Ho & Hn & Hlen & Hrest).
    exists s, o, n. repeat split; auto. eapply IH; eauto.
Qed.

(** The transform of a transaction on [d]: its mapping is the plain pipeline
    of the maps of its steps, in step with [steps] and [docs]. *)
Lemma transaction_on_wf :
  forall (d : Doc) (tr : Transform.t),
    transaction_on d tr ->
    plain_mapping (Transform.mapping tr)
    /\ maps_fit (Mapping.maps (Transform.mapping tr)) (size d)
                (size (Transform.doc tr))
    /\ length (Transform.docs tr) = length (Transform.steps tr)
    /\ length (Mapping.maps (Transform.mapping tr))
       = length (Transform.steps tr).
Proof.
  intros d tr H. induction H as [time_|tr s d' H IH Happly|tr msg H IH|tr v H IH].
  - cbn. repeat split.
  - destruct IH as ((Hm & Hf & Ht) & Hfit & Hdocs & Hmaps).
    destruct (Step_apply_size _ _ _ Happly) as (A1 & A2 & A3 & A4).
    cbn. repeat split; auto.
    + eapply maps_fit_app; [exact Hfit|]. cbn.
      exists (Step.from s), (Step.to s - Step.from s), (size (Step.slice s)).
      repeat split; try lia. apply size_nonneg.
    + rewrite !length_app, Hdocs. reflexivity.
    + rewrite !length_app, Hmaps. reflexivity.
  - exact IH.
  - exact IH.
Qed.

(** What the proofs carry along every reachable state. *)
Lemma reachable_tiles :
  forall (d : Doc) (st : TrackState),
    reachable d st ->
    weak_chain 0 (blameMap st) /\ covers (blameMap st) (size d).
Proof.
  intros d st H.
  induction H as [d|d st tr H IH Htr|d st r message_ time_ H IH Hfresh].
  - cbn. pose proof (size_nonneg d). repeat split; try lia.
    + intros Hx. exists (Span.mk 0 (size d) None). cbn. auto.
    + destruct H0 as (s & [<-|[]] & Hs). unfold in_span in Hs. cbn in Hs. lia.
    + destruct H0 as (s & [<-|[]] & Hs). unfold in_span in Hs. cbn in Hs. lia.
  - destruct IH as [Hc Hcov].
    destruct (transaction_on_wf _ _ Htr) as (Hp & Hfit & _).
    destruct (updateBlameMap_tiles (blameMap st) (Transform.mapping tr)
                (length (commits st)) _ _ Hp Hfit (size_nonneg d) Hc Hcov)
      as [C Hcov'].
    cbn. split; [apply chain_weak; exact C|exact Hcov'].
  - unfold applyCommit. destruct (uncommittedSteps st); exact IH.
Qed.

(** The commits of a reachable state are distinct objects. *)
Lemma reachable_refs_distinct :
  forall (d : Doc) (st : TrackState),
    reachable d st -> NoDup (List.map ref (commits st)).
Proof.
  intros d st H.
  induction H as [d|d st tr H IH Htr|d st r message_ time_ H IH Hfresh].
  - constructor.
  - exact IH.
  - unfold applyCommit. destruct (uncommittedSteps st); [exact IH|].
    cbn [commits]. rewrite map_app. cbn [List.map new_Commit ref].
    apply NoDup_app; [exact IH|repeat constructor; intros []|].
    intros x Hx [<-|[]]. apply in_map_iff in Hx.
    destruct Hx as (c & E & Hc). apply (Hfresh c Hc E).
Qed.

Lemma weak_chain_nth :
  forall (m : list Span.t) (lo : Z) (i j : nat) (a b : Span.t),
    weak_chain lo m -> (i < j)%nat ->
    nth_error m i = Some a -> nth_error m j = Some b ->
    Span.from a <= Span.to a /\ Span.to a <= Span.from b.
Proof.
  induction m as [|s m IH]; intros lo i j a b Hc Hij Ha Hb.
  - destruct i; discriminate.
  - cbn in Hc. destruct Hc as (H1 & H2 & H3).
    destruct j as [|j]; [lia|]. cbn in Hb.
    destruct i as [|i]; cbn in Ha.
    + injection Ha as <-. split; [exact H2|].
      eapply weak_chain_In_ge; [exact H3|]. eapply nth_error_In; eauto.
    + apply (IH _ i j a b H3); auto. lia.
Qed.

Lemma weak_chain_sorted :
  forall (m : list Span.t) (lo : Z),
    weak_chain lo m -> sorted_by_from m /\ non_overlapping m.
Proof.
  intros m lo Hc. split.
  - intros i j a b Hij Ha Hb.
    destruct (Nat.eq_dec i j) as [->|Hne].
    + rewrite Ha in Hb. injection Hb as <-. lia.
    + destruct (weak_chain_nth m lo i j a b Hc ltac:(lia) Ha Hb). lia.
  - intros i j a b Hne Ha Hb x [Hxa Hxb]. unfold in_span in *.
    destruct (Nat.lt_ge_cases i j) as [L|L].
    + destruct (weak_chain_nth m lo i j a b Hc L Ha Hb). lia.
    + destruct (weak_chain_nth m lo j i b a Hc ltac:(lia) Hb Ha). lia.
Qed.

Lemma ex_st2_reachable : reachable (Transform.doc ex_tr2) ex_st2.
Proof.
  apply (reachable_transform (Transform.doc ex_tr1) ex_st1 ex_tr2);
    [|apply transaction_of_on].
  apply reachable_commit.
  - apply (reachable_transform ex_doc0 (track_init ex_doc0) ex_tr1);
      [apply reachable_init|apply transaction_of_on].
  - intros c [].
Qed.

(** C1 as stated, at a reachable state: after [" world"] is inserted into
    ["HelloXXXX"], committed and deleted again, the spans [[0, 5)] and
    [[5, 9)] are neighbours and both carry no attribution. *)
Lemma reachable_not_coalesced :
  reachable (Transform.doc ex_tr2) ex_st2
  /\ blameMap ex_st2 = [Span.mk 0 5 None; Span.mk 5 9 None]
  /\ ~ coalesced (blameMap ex_st2).
Proof.
  split; [apply ex_st2_reachable|]. split; [reflexivity|].
  intros H. apply (H 0%nat (Span.mk 0 5 None) (Span.mk 5 9 None));
    reflexivity.
Qed.

(** C1, amended: in every reachable history state the spans of the
    attribution map are sorted by [from], pairwise non-overlapping, and
    their union is exactly [[0, documentLength)]. *)
Theorem reachable_blameMap_tiles :
  forall (d : Doc) (st : TrackState),
    reachable d st ->
    sorted_by_from (blameMap st)
    /\ non_overlapping (blameMap st)
    /\ covers (blameMap st) (size d).
Proof.
  intros d st H. destruct (reachable_tiles d st H) as [Hc Hcov].
  destruct (weak_chain_sorted _ _ Hc) as [Hs Hn]. auto.
Qed.

Lemma reachable_blameMap_tiles_witness :
  sorted_by_from (blameMap ex_st2)
  /\ non_overlapping (blameMap ex_st2)
  /\ covers (blameMap ex_st2) 9.
Proof.
  apply (reachable_blameMap_tiles (Transform.doc ex_tr2) ex_st2).
  apply ex_st2_reachable.
Defined.

(** ** Reverting the commit just made *)

Lemma recover_makeRecover :
  forall s o n off : Z,
    0 <= off ->
    StepMap.recover (replace_map s o n) (makeRecover 0 off) = s + off.
Proof.
  intros s o n off Hoff.
  assert (Z.land (off * factor16) lower16 = 0) as Hland.
  { change lower16 with (Z.ones 16). rewrite Z.land_ones by lia.
    change factor16 with (2 ^ 16). apply Z.mod_mul. lia. }
  unfold StepMap.recover, recoverIndex, recoverOffset, makeRecover.
  cbn [Z.add]. rewrite Hland. cbn.
  rewrite Z.sub_0_r, Z.div_mul by (unfold factor16; lia). lia.
Qed.

Lemma recover_makeRecover_back :
  forall s o n pos : Z,
    s <= pos ->
    StepMap.recover (replace_map s n o) (makeRecover 0 (pos - s)) = pos.
Proof.
  intros s o n pos H. rewrite recover_makeRecover by lia. lia.
Qed.

Lemma no_across_lor :
  forall a b, no_across a -> no_across b -> no_across (Z.lor a b).
Proof.
  unfold no_across. intros a b Ha Hb.
  rewrite Z.land_lor_distr_l, Ha, Hb. reflexivity.
Qed.

(** One replace map followed, later in the pipeline, by the map of the
    inverse step: a position that the first one has to recover is recovered
    exactly by the second; any other position comes back through the second
    to where it was, and neither marks it as deleted across. *)
Lemma replace_map_there_and_back :
  forall s o n len pos assoc : Z,
    0 <= s -> 0 <= o -> 0 <= n -> s + o <= len -> 0 <= pos <= len ->
    assoc = 1 \/ assoc = -1 ->
    let r := StepMap.mapResult (replace_map s o n) pos assoc in
    0 <= mr_pos r <= len - o + n
    /\ match mr_recover r with
       | Some rec => StepMap.recover (replace_map s n o) rec = pos
       | None =>
           no_across (mr_delInfo r)
           /\ let r2 := StepMap.mapResult (replace_map s n o) (mr_pos r) assoc in
              mr_pos r2 = pos /\ no_across (mr_delInfo r2)
              /\ mr_recover r2 = None
       end.
Proof.
  intros s o n len pos assoc Hs Ho Hn Hlen Hpos Hassoc r.
  split.
  { subst r. fold (StepMap.map (replace_map s o n) pos assoc).
    apply replace_map_bounds; auto. }
  subst r. unfold StepMap.mapResult, replace_map.
  cbn -[Z.add Z.sub Z.gtb Z.leb Z.eqb Z.ltb Z.lor Z.land makeRecover].
  replace (s - 0) with s by lia.
  destruct Hassoc as [-> | ->];
    change (1 <? 0) with false; change (-1 <? 0) with true; cbn match.
  - destruct (Z.gtb_spec s pos).
    + cbn -[Z.add Z.sub Z.gtb Z.leb Z.eqb Z.ltb Z.lor Z.land makeRecover].
      split; [reflexivity|].
      replace (pos + 0) with pos by lia.
      destruct (Z.gtb_spec s pos); [|lia]. cbn. repeat split; lia.
    + destruct (Z.leb_spec pos (s + o)).
      * destruct (Z.eqb_spec pos (s + o)).
        -- cbn -[Z.add Z.sub Z.gtb Z.leb Z.eqb Z.ltb Z.lor Z.land makeRecover].
           split; [destruct (pos =? s); reflexivity|].
           assert ((if o =? 0 then 1 else if pos =? s then -1 else 1) = 1) as E.
           { destruct (Z.eqb_spec o 0); [reflexivity|].
             destruct (Z.eqb_spec pos s); [lia|reflexivity]. }
           rewrite E. change (1 <? 0) with false. cbn match.
           replace (s + 0 + n) with (s + n) by lia.
           destruct (Z.gtb_spec s (s + n)); [lia|].
           rewrite Z.leb_refl, Z.eqb_refl.
           cbn -[Z.add Z.sub Z.gtb Z.leb Z.eqb Z.ltb Z.lor Z.land makeRecover].
           assert ((if n =? 0 then 1 else if s + n =? s then -1 else 1) = 1)
             as E'.
           { destruct (Z.eqb_spec n 0); [reflexivity|].
             destruct (Z.eqb_spec (s + n) s); [lia|reflexivity]. }
           rewrite E'. change (1 <? 0) with false. cbn match.
           repeat split; [lia|destruct (s + n =? s); reflexivity].
        -- cbn -[Z.add Z.sub Z.gtb Z.leb Z.eqb Z.ltb Z.lor Z.land makeRecover].
           apply recover_makeRecover_back; lia.
      * cbn -[Z.add Z.sub Z.gtb Z.leb Z.eqb Z.ltb Z.lor Z.land makeRecover].
        split; [reflexivity|].
        destruct (Z.gtb_spec s (pos + (0 + n - o))); [lia|].
        destruct (Z.leb_spec (pos + (0 + n - o)) (s + n)); [lia|].
        cbn. repeat split; lia.
  - destruct (Z.gtb_spec s pos).
    + cbn -[Z.add Z.sub Z.gtb Z.leb Z.eqb Z.ltb Z.lor Z.land makeRecover].
      split; [reflexivity|].
      replace (pos + 0) with pos by lia.
      destruct (Z.gtb_spec s pos); [|lia]. cbn. repeat split; lia.
    + destruct (Z.leb_spec pos (s + o)).
      * destruct (Z.eqb_spec pos s).
        -- cbn -[Z.add Z.sub Z.gtb Z.leb Z.eqb Z.ltb Z.lor Z.land makeRecover].
           split; [reflexivity|].
           assert ((if o =? 0 then -1 else -1) = -1) as E
               by (destruct (o =? 0); reflexivity).
           rewrite E. change (-1 <? 0) with true. cbn match.
           replace (s + 0 + 0) with s by lia.
           destruct (Z.gtb_spec s s); [lia|].
           destruct (Z.leb_spec s (s + n)); [|lia]. rewrite Z.eqb_refl.
           cbn -[Z.add Z.sub Z.gtb Z.leb Z.eqb Z.ltb Z.lor Z.land makeRecover].
           assert ((if n =? 0 then -1 else -1) = -1) as E'
               by (destruct (n =? 0); reflexivity).
           rewrite E'. change (-1 <? 0) with true. cbn match.
           repeat split; lia.
        -- cbn -[Z.add Z.sub Z.gtb Z.leb Z.eqb Z.ltb Z.lor Z.land makeRecover].
           apply recover_makeRecover_back; lia.
      * cbn -[Z.add Z.sub Z.gtb Z.leb Z.eqb Z.ltb Z.lor Z.land makeRecover].
        split; [reflexivity|].
        destruct (Z.gtb_spec s (pos + (0 + n - o))); [lia|].
        destruct (Z.leb_spec (pos + (0 + n - o)) (s + n)); [lia|].
        cbn. repeat split; lia.
Qed.

Lemma map_loop_done :
  forall (fuel : nat) (mp : Mapping.t) (i : nat) (pos assoc del : Z),
    (Mapping.to mp <= i)%nat ->
    Mapping.map_loop fuel mp i pos assoc del = mkMapResult pos del None.
Proof.
  intros [|fuel] mp i pos assoc del H; cbn; [reflexivity|].
  destruct (Nat.leb_spec (Mapping.to mp) i); [reflexivity|lia].
Qed.

Lemma map_loop_step :
  forall (fuel : nat) (mp : Mapping.t) (i : nat) (pos assoc del : Z),
    Mapping.map_loop (S fuel) mp i pos assoc del
    = if Nat.leb (Mapping.to mp) i then mkMapResult pos del None
      else
        match nth_error (Mapping.maps mp) i with
        | None => mkMapResult pos del None
        | Some m =>
            let result := StepMap.mapResult m pos assoc in
            let plain :=
              Mapping.map_loop fuel mp (S i) (mr_pos result) assoc
                               (Z.lor del (mr_delInfo result)) in
            match mr_recover result, Mapping.getMirror mp i with
            | Some rec, Some corr =>
                if Nat.ltb i corr && Nat.ltb corr (Mapping.to mp) then
                  match nth_error (Mapping.maps mp) corr with
                  | Some mc =>
                      Mapping.map_loop fuel mp (S corr)
                                       (StepMap.recover mc rec) assoc del
                  | None => plain
                  end
                else plain
            | _, _ => plain
            end
        end.
Proof. reflexivity. Qed.

(** The fuel [mapResult] gives the loop is enough: from [to - i] on, more
    fuel changes nothing. *)
Lemma map_loop_fuel :
  forall (fuel1 fuel2 : nat) (mp : Mapping.t) (i : nat) (pos assoc del : Z),
    (Mapping.to mp - i <= fuel1)%nat -> (Mapping.to mp - i <= fuel2)%nat ->
    Mapping.map_loop fuel1 mp i pos assoc del
    = Mapping.map_loop fuel2 mp i pos assoc del.
Proof.
  induction fuel1 as [|fuel1 IH]; intros fuel2 mp i pos assoc del H1 H2.
  - rewrite !map_loop_done by lia. reflexivity.
  - destruct fuel2 as [|fuel2]; [rewrite !map_loop_done by lia; reflexivity|].
    rewrite !map_loop_step.
    destruct (Nat.leb_spec (Mapping.to mp) i); [reflexivity|].
    destruct (nth_error (Mapping.maps mp) i) as [m|]; [|reflexivity].
    cbv zeta. rewrite (IH fuel2 mp (S i)) by lia.
    destruct (mr_recover (StepMap.mapResult m pos assoc)) as [rec|];
      [|reflexivity].
    destruct (Mapping.getMirror mp i) as [corr|]; [|reflexivity].
    destruct (Nat.ltb_spec i corr); cbn [andb]; [|reflexivity].
    destruct (Nat.ltb corr (Mapping.to mp)); [|reflexivity].
    destruct (nth_error (Mapping.maps mp) corr) as [mc|]; [|reflexivity].
    apply IH; lia.
Qed.

(** A pipeline with one more map at its end: running it is running the
    shorter one and then the step at the new last index, as long as no
    mirror of the shorter one points at or past its end. *)
Lemma map_loop_extend :
  forall (fuel : nat) (mp mp' : Mapping.t) (m : StepMap.t) (i : nat)
         (pos assoc del : Z),
    Mapping.maps mp' = Mapping.maps mp ++ [m] ->
    Mapping.to mp = length (Mapping.maps mp) ->
    Mapping.to mp' = S (Mapping.to mp) ->
    (forall j, (i <= j < Mapping.to mp)%nat ->
               Mapping.getMirror mp' j = Mapping.getMirror mp j) ->
    (forall j c, (i <= j < Mapping.to mp)%nat ->
                 Mapping.getMirror mp j = Some c -> (c < Mapping.to mp)%nat) ->
    (Mapping.to mp - i <= fuel)%nat -> (i <= Mapping.to mp)%nat ->
    Mapping.map_loop (S fuel) mp' i pos assoc del
    = let r := Mapping.map_loop fuel mp i pos assoc del in
      Mapping.map_loop 1 mp' (Mapping.to mp) (mr_pos r) assoc (mr_delInfo r).
Proof.
  induction fuel as [|fuel IH];
    intros mp mp' m i pos assoc del Hmaps Hto Hto' Hsame Hlt Hfuel Hi.
  - assert (i = Mapping.to mp) as -> by lia. reflexivity.
  - destruct (Nat.eq_dec i (Mapping.to mp)) as [->|Hne].
    + rewrite (map_loop_done (S fuel) mp) by lia. cbv zeta.
      cbn [mr_pos mr_delInfo].
      rewrite (map_loop_step (S fuel)), (map_loop_step 0).
      destruct (Nat.leb_spec (Mapping.to mp') (Mapping.to mp)); [lia|].
      destruct (nth_error (Mapping.maps mp') (Mapping.to mp)) as [mi|];
        [|reflexivity].
      cbv zeta.
      rewrite !(map_loop_done (S fuel)), !(map_loop_done 0) by lia.
      destruct (mr_recover (StepMap.mapResult mi pos assoc)) as [rec|];
        [|reflexivity].
      destruct (Mapping.getMirror mp' (Mapping.to mp)) as [corr|];
        [|reflexivity].
      destruct (Nat.ltb_spec (Mapping.to mp) corr); cbn [andb];
        [|reflexivity].
      destruct (Nat.ltb_spec corr (Mapping.to mp')); [lia|reflexivity].
    + assert (i < Mapping.to mp)%nat as Hi' by lia.
      rewrite (map_loop_step (S fuel)), (map_loop_step fuel). cbv zeta.
      destruct (Nat.leb_spec (Mapping.to mp') i); [lia|].
      destruct (Nat.leb_spec (Mapping.to mp) i); [lia|].
      assert (forall j, (j < Mapping.to mp)%nat ->
                        nth_error (Mapping.maps mp') j
                        = nth_error (Mapping.maps mp) j) as Hnth_same.
      { intros j Hj. rewrite Hmaps, nth_error_app1 by lia. reflexivity. }
      rewrite (Hnth_same i) by lia.
      destruct (nth_error (Mapping.maps mp) i) as [mi|] eqn:Hnth.
      2:{ apply nth_error_None in Hnth. lia. }
      set (result := StepMap.mapResult mi pos assoc).
      assert (Mapping.map_loop (S fuel) mp' (S i) (mr_pos result) assoc
                (Z.lor del (mr_delInfo result))
              = (let r := Mapping.map_loop fuel mp (S i) (mr_pos result) assoc
                            (Z.lor del (mr_delInfo result)) in
                 Mapping.map_loop 1 mp' (Mapping.to mp) (mr_pos r) assoc
                                  (mr_delInfo r))) as Hplain.
      { apply (IH mp mp' m); auto; try lia.
        - intros j Hj. apply Hsame. lia.
        - intros j c Hj. apply Hlt. lia. }
      destruct (mr_recover result) as [rec|]; [|exact Hplain].
      rewrite Hsame by lia.
      destruct (Mapping.getMirror mp i) as [corr|] eqn:Hmir; [|exact Hplain].
      pose proof (Hlt i corr ltac:(lia) Hmir) as Hcorr.
      destruct (Nat.ltb_spec i corr); cbn [andb]; [|exact Hplain].
      destruct (Nat.ltb_spec corr (Mapping.to mp')); [|lia].
      destruct (Nat.ltb_spec corr (Mapping.to mp)); [|lia].
      rewrite (Hnth_same corr) by lia.
      destruct (nth_error (Mapping.maps mp) corr) as [mc|]; [|exact Hplain].
      apply (IH mp mp' m); auto; try lia.
      * intros j Hj. apply Hsame. lia.
      * intros j c Hj. apply Hlt. lia.
Qed.

Lemma getMirror_pairs_app :
  forall (ps qs : list (nat * nat)) (j : nat),
    Mapping.getMirror_pairs (ps ++ qs) j
    = match Mapping.getMirror_pairs ps j with
      | Some c => Some c
      | None => Mapping.getMirror_pairs qs j
      end.
Proof.
  induction ps as [|[a b] ps IH]; intros qs j; cbn; [reflexivity|].
  destruct (Nat.eqb a j); [reflexivity|].
  destruct (Nat.eqb b j); [reflexivity|]. apply IH.
Qed.

(** The mirror of slot [j] once [p] steps are undone. *)
Lemma getMirror_revert :
  forall (n p j : nat) (ms : list StepMap.t) (f t : nat),
    (p <= n)%nat ->
    Mapping.getMirror (Mapping.mk ms (revert_mirror n p) f t) j
    = if (Nat.leb (n - p) j && Nat.ltb j (n + p))%bool
      then Some (2 * n - 1 - j)%nat else None.
Proof.
  intros n p j ms f t. unfold Mapping.getMirror. cbn [Mapping.mirror].
  induction p as [|p IH]; intros Hp.
  - unfold revert_mirror.
    destruct (Nat.leb_spec (n - 0) j), (Nat.ltb_spec j (n + 0));
      cbn [andb]; try reflexivity; lia.
  - specialize (IH ltac:(lia)).
    unfold revert_mirror. rewrite seq_S, map_app, getMirror_pairs_app.
    cbn [List.map Nat.add].
    assert (Mapping.getMirror_pairs
              (List.map (fun q => ((n + q)%nat, (n - 1 - q)%nat)) (seq 0 p)) j
            = if (Nat.leb (n - p) j && Nat.ltb j (n + p))%bool
              then Some (2 * n - 1 - j)%nat else None) as IH'.
    { destruct p; [|exact IH]. cbn [seq List.map Mapping.getMirror_pairs].
      destruct (Nat.leb_spec (n - 0) j), (Nat.ltb_spec j (n + 0));
        cbn [andb]; try reflexivity; lia. }
    rewrite IH'. cbn [Mapping.getMirror_pairs].
    destruct (Nat.leb_spec (n - p) j), (Nat.ltb_spec j (n + p)),
             (Nat.leb_spec (n - S p) j), (Nat.ltb_spec j (n + S p)),
             (Nat.eqb_spec (n + p) j), (Nat.eqb_spec (n - 1 - p) j);
      cbn; try reflexivity; try lia; f_equal; lia.
Qed.

Lemma skipn_nth_cons :
  forall (A : Type) (l : list A) (k : nat),
    (k < length l)%nat ->
    exists x, nth_error l k = Some x /\ skipn k l = x :: skipn (S k) l.
Proof.
  induction l as [|a l IH]; intros k Hk; cbn in Hk; [lia|].
  destruct k as [|k]; cbn.
  - exists a. auto.
  - apply IH. lia.
Qed.

(** The slice the loop takes before it handles index [k - 1] maps every
    position of the document that step [k] was applied to onto itself, and
    does not report it as deleted across. *)
Lemma revert_slice_identity :
  forall (m : nat) (fwd bwd : list StepMap.t) (k : nat) (len_k len' : Z)
         (fuel : nat) (pos assoc del : Z),
    length fwd = length bwd -> (k + m = length fwd)%nat ->
    there_and_back (skipn k fwd) (skipn k bwd) len_k len' ->
    0 <= pos <= len_k -> assoc = 1 \/ assoc = -1 -> no_across del ->
    (2 * m <= fuel)%nat ->
    exists del',
      Mapping.map_loop fuel (Mapping.slice (revert_remap fwd bwd k) k) k
                       pos assoc del
      = mkMapResult pos del' None
      /\ no_across del'.
Proof.
  induction m as [|m IH];
    intros fwd bwd k len_k len' fuel pos assoc del Hlen Hk Hfit Hpos Hassoc
           Hdel Hfuel.
  - exists del. split; [|exact Hdel]. apply map_loop_done.
    unfold Mapping.slice, revert_remap; cbn [Mapping.to Mapping.maps Mapping.mirror].
    rewrite length_app, length_rev, length_skipn. lia.
  - set (n := length fwd) in *.
    destruct (skipn_nth_cons _ fwd k ltac:(lia)) as (f & Hf & Ef).
    destruct (skipn_nth_cons _ bwd k ltac:(lia)) as (b & Hb & Eb).
    rewrite Ef, Eb in Hfit. cbn [there_and_back] in Hfit.
    destruct Hfit as (s & o & n' & -> & -> & Hs & Ho & Hn & Hso & Hfit).
    set (mp' := Mapping.slice (revert_remap fwd bwd k) k).
    set (mp := Mapping.slice (revert_remap fwd bwd (S k)) (S k)).
    assert (Mapping.maps mp' = Mapping.maps mp ++ [replace_map s n' o])
      as Hmaps.
    { subst mp mp'. unfold Mapping.slice, revert_remap; cbn [Mapping.to Mapping.maps Mapping.mirror].
      rewrite Eb. cbn [rev]. apply app_assoc. }
    assert (Mapping.to mp = (2 * n - S k)%nat) as Hto.
    { subst mp. unfold Mapping.slice, revert_remap; cbn [Mapping.to Mapping.maps Mapping.mirror].
      rewrite length_app, length_rev, length_skipn. fold n. lia. }
    assert (Mapping.to mp' = S (Mapping.to mp)) as Hto'.
    { rewrite Hto. subst mp'. unfold Mapping.slice, revert_remap; cbn [Mapping.to Mapping.maps Mapping.mirror].
      rewrite length_app, length_rev, length_skipn. fold n. lia. }
    assert (Mapping.to mp = length (Mapping.maps mp)) as Hto_len
        by reflexivity.
    assert (forall j, Mapping.getMirror mp' j
                      = if (Nat.leb k j && Nat.ltb j (2 * n - k))%bool
                        then Some (2 * n - 1 - j)%nat else None) as Hmir'.
    { intros j. subst mp'. unfold Mapping.slice, revert_remap.
      cbn [Mapping.maps Mapping.mirror]. fold n.
      rewrite getMirror_revert by lia.
      replace (n - (n - k))%nat with k by lia.
      replace (n + (n - k))%nat with (2 * n - k)%nat by lia. reflexivity. }
    assert (forall j, Mapping.getMirror mp j
                      = if (Nat.leb (S k) j && Nat.ltb j (2 * n - S k))%bool
                        then Some (2 * n - 1 - j)%nat else None) as Hmir.
    { intros j. subst mp. unfold Mapping.slice, revert_remap.
      cbn [Mapping.maps Mapping.mirror]. fold n.
      rewrite getMirror_revert by lia.
      replace (n - (n - S k))%nat with (S k) by lia.
      replace (n + (n - S k))%nat with (2 * n - S k)%nat by lia.
      reflexivity. }
    assert (nth_error (Mapping.maps mp') k = Some (replace_map s o n')) as Hk_f.
    { subst mp'. unfold Mapping.slice, revert_remap; cbn [Mapping.to Mapping.maps Mapping.mirror].
      rewrite nth_error_app1 by (fold n; lia). exact Hf. }
    assert (nth_error (Mapping.maps mp') (Mapping.to mp)
            = Some (replace_map s n' o)) as Hlast.
    { rewrite Hmaps, nth_error_app2 by lia.
      rewrite <- Hto_len, Nat.sub_diag. reflexivity. }
    destruct fuel as [|fuel]; [lia|].
    rewrite map_loop_step.
    destruct (Nat.leb_spec (Mapping.to mp') k); [lia|].
    rewrite Hk_f. cbv zeta.
    destruct (replace_map_there_and_back s o n' len_k pos assoc
                Hs Ho Hn Hso Hpos Hassoc) as [Hbound Hback].
    set (result := StepMap.mapResult (replace_map s o n') pos assoc) in *.
    destruct (mr_recover result) as [rec|].
    + (* recovered through the mirror *)
      rewrite Hmir'.
      destruct (Nat.leb_spec k k), (Nat.ltb_spec k (2 * n - k));
        cbn [andb]; try lia.
      destruct (Nat.ltb_spec k (2 * n - 1 - k)),
               (Nat.ltb_spec (2 * n - 1 - k) (Mapping.to mp'));
        cbn [andb]; try lia.
      replace (2 * n - 1 - k)%nat with (Mapping.to mp) by lia.
      rewrite Hlast, Hback.
      exists del. split; [|exact Hdel]. apply map_loop_done. lia.
    + (* mapped on, through the rest and back *)
      destruct Hback as (Hd1 & Hpos2 & Hd2 & Hrec2).
      destruct fuel as [|fuel]; [lia|].
      rewrite (map_loop_extend fuel mp mp' (replace_map s n' o));
        auto; try lia.
      * cbv zeta.
        destruct (IH fwd bwd (S k) (len_k - o + n') len' fuel
                     (mr_pos result) assoc (Z.lor del (mr_delInfo result)))
          as (del2 & E2 & Hdel2); auto; try lia.
        { apply no_across_lor; assumption. }
        fold mp in E2. rewrite E2. cbn [mr_pos mr_delInfo].
        rewrite map_loop_step.
        destruct (Nat.leb_spec (Mapping.to mp') (Mapping.to mp)); [lia|].
        rewrite Hlast. cbv zeta. rewrite Hrec2, Hpos2.
        eexists. split; [reflexivity|].
        apply no_across_lor; assumption.
      * intros j Hj. rewrite Hmir', Hmir.
        destruct (Nat.leb_spec k j), (Nat.ltb_spec j (2 * n - k)),
                 (Nat.leb_spec (S k) j), (Nat.ltb_spec j (2 * n - S k));
          cbn [andb]; try reflexivity; lia.
      * intros j c Hj. rewrite Hmir.
        destruct (Nat.leb_spec (S k) j), (Nat.ltb_spec j (2 * n - S k));
          cbn [andb]; try discriminate. intros [= <-]. lia.
Qed.

Lemma firstn_skipn_middle :
  forall (A : Type) (l : list A) (a b : nat),
    (a <= b)%nat ->
    firstn a l ++ firstn (b - a) (skipn a l) ++ skipn b l = l.
Proof.
  intros A l a b Hab.
  replace (skipn b l) with (skipn (b - a) (skipn a l)).
  - rewrite firstn_skipn. apply firstn_skipn.
  - rewrite skipn_skipn. f_equal. lia.
Qed.

Lemma replace_and_back :
  forall (A : Type) (d slice : list A) (f t : nat),
    (f <= t)%nat -> (t <= length d)%nat ->
    firstn f (firstn f d ++ slice ++ skipn t d)
      ++ firstn (t - f) (skipn f d)
      ++ skipn (f + length slice) (firstn f d ++ slice ++ skipn t d)
    = d.
Proof.
  intros A d slice f t Hft Ht.
  assert (length (firstn f d) = f) as Lf by (rewrite length_firstn; lia).
  rewrite firstn_app, Lf, Nat.sub_diag, firstn_O, app_nil_r.
  rewrite firstn_firstn, Nat.min_id.
  rewrite skipn_app, Lf.
  rewrite (skipn_all2 (firstn f d)) by lia.
  replace (f + length slice - f)%nat with (length slice) by lia.
  rewrite skipn_app, skipn_all, Nat.sub_diag. cbn [app skipn].
  apply firstn_skipn_middle. exact Hft.
Qed.

(** The inverse of a step that applied undoes it. *)
Lemma Step_invert_apply :
  forall (s : Step.t) (d d' : Doc),
    Step.apply s d = Some d' ->
    Step.apply (Step.invert s d) d' = Some d
    /\ Step.getMap (Step.invert s d)
       = replace_map (Step.from s) (size (Step.slice s))
                     (Step.to s - Step.from s).
Proof.
  intros s d d' H.
  destruct (Step_apply_size _ _ _ H) as (A1 & A2 & A3 & A4).
  unfold Step.apply in H.
  destruct ((0 <=? Step.from s) && (Step.from s <=? Step.to s)
            && (Step.to s <=? size d)); [|discriminate].
  injection H as <-.
  assert (length (firstn (Z.to_nat (Step.from s)) d)
          = Z.to_nat (Step.from s)) as Lf.
  { rewrite length_firstn. unfold size in *. lia. }
  assert (size (doc_slice d (Step.from s) (Step.to s))
          = Step.to s - Step.from s) as Ls.
  { unfold doc_slice, size in *. rewrite length_firstn, length_skipn. lia. }
  split.
  - unfold Step.apply, Step.invert. cbn [Step.from Step.to Step.slice].
    destruct (Z.leb_spec 0 (Step.from s)); [|lia].
    destruct (Z.leb_spec (Step.from s) (Step.from s + size (Step.slice s)));
      [|pose proof (size_nonneg (Step.slice s)); lia].
    destruct (Z.leb_spec (Step.from s + size (Step.slice s))
                (size (firstn (Z.to_nat (Step.from s)) d ++ Step.slice s
                       ++ skipn (Z.to_nat (Step.to s)) d))).
    2:{ unfold size in *. rewrite !length_app, Lf in *. lia. }
    cbn [andb]. f_equal. unfold doc_slice.
    replace (Z.to_nat (Step.from s + size (Step.slice s)))
      with (Z.to_nat (Step.from s) + length (Step.slice s))%nat
      by (unfold size; lia).
    replace (Z.to_nat (Step.to s - Step.from s))
      with (Z.to_nat (Step.to s) - Z.to_nat (Step.from s))%nat by lia.
    apply replace_and_back; unfold size in *; lia.
  - unfold Step.getMap, Step.invert, replace_map.
    cbn [Step.from Step.to Step.slice]. rewrite Ls.
    repeat f_equal. lia.
Qed.

Lemma steps_run_lengths :
  forall d ss ds d',
    steps_run d ss ds d' ->
    length ds = length ss /\ length (inverted_steps ss ds) = length ss.
Proof.
  intros d ss ds d' H. unfold inverted_steps.
  induction H as [d|d s d1 ss ds d' Happly H IH]; cbn; [auto|].
  rewrite length_map in *. destruct IH as [-> ->]. auto.
Qed.

(** The maps of steps that ran and the maps of their inverses are mirror
    images of one another. *)
Lemma steps_run_there_and_back :
  forall d ss ds d',
    steps_run d ss ds d' ->
    there_and_back (List.map Step.getMap ss)
                   (List.map Step.getMap (inverted_steps ss ds))
                   (size d) (size d').
Proof.
  intros d ss ds d' H.
  induction H as [d|d s d1 ss ds d' Happly H IH]; cbn; [reflexivity|].
  destruct (Step_apply_size _ _ _ Happly) as (A1 & A2 & A3 & A4).
  destruct (Step_invert_apply _ _ _ Happly) as [_ ->].
  exists (Step.from s), (Step.to s - Step.from s), (size (Step.slice s)).
  repeat split; try lia; [apply size_nonneg|].
  rewrite <- A4. exact IH.
Qed.

(** What holds at index [i] of a run. *)
Lemma steps_run_at :
  forall d ss ds d' (i : nat),
    steps_run d ss ds d' -> (i < length ss)%nat ->
    exists s di di',
      nth_error ss i = Some s
      /\ nth_error (ds ++ [d']) i = Some di
      /\ nth_error (ds ++ [d']) (S i) = Some di'
      /\ nth_error (inverted_steps ss ds) i = Some (Step.invert s di)
      /\ Step.apply s di = Some di'
      /\ there_and_back
           (skipn (S i) (List.map Step.getMap ss))
           (skipn (S i) (List.map Step.getMap (inverted_steps ss ds)))
           (size di') (size d').
Proof.
  intros d ss ds d' i H. revert i.
  induction H as [d|d s d1 ss ds d' Happly H IH]; intros i Hi; cbn in Hi;
    [lia|].
  destruct i as [|i].
  - exists s, d, d1. cbn. repeat split; auto.
    + inversion H; reflexivity.
    + apply steps_run_there_and_back. exact H.
  - destruct (IH i ltac:(lia)) as (s' & di & di' & H1 & H2 & H3 & H4 & H5 & H6).
    exists s', di, di'. cbn. repeat split; auto.
Qed.

Lemma steps_run_first :
  forall d ss ds d',
    steps_run d ss ds d' -> nth_error (ds ++ [d']) 0 = Some d.
Proof. intros d ss ds d' H. inversion H; reflexivity. Qed.

Lemma steps_run_last :
  forall d ss ds d',
    steps_run d ss ds d' -> nth_error (ds ++ [d']) (length ss) = Some d'.
Proof.
  intros d ss ds d' H. destruct (steps_run_lengths _ _ _ _ H) as [<- _].
  rewrite nth_error_app2, Nat.sub_diag by lia. reflexivity.
Qed.

(** [appendMap] takes the pipeline of one iteration to that of the next. *)
Lemma appendMap_revert_remap :
  forall (fwd bwd : list StepMap.t) (i : nat) (b : StepMap.t),
    length fwd = length bwd -> (i < length fwd)%nat ->
    nth_error bwd i = Some b ->
    Mapping.appendMap (revert_remap fwd bwd (S i)) b (Some i)
    = revert_remap fwd bwd i.
Proof.
  intros fwd bwd i b Hlen Hi Hb.
  destruct (skipn_nth_cons _ bwd i ltac:(lia)) as (b' & Hb' & Eb).
  rewrite Hb in Hb'. injection Hb' as <-.
  unfold Mapping.appendMap, revert_remap.
  cbn [Mapping.maps Mapping.mirror Mapping.from Mapping.to].
  set (n := length fwd) in *.
  assert (length ((fwd ++ rev (skipn (S i) bwd)) ++ [b])
          = (n + (n - i))%nat) as L.
  { rewrite !length_app, length_rev, length_skipn. cbn. fold n. lia. }
  rewrite L. f_equal.
  - rewrite Eb. cbn [rev]. symmetry. apply app_assoc.
  - replace (n - i)%nat with (S (n - S i)) by lia.
    replace (n + S (n - S i) - 1)%nat with (n + (n - S i))%nat by lia.
    unfold revert_mirror at 2. rewrite seq_S, map_app. cbn [List.map Nat.add].
    replace (n - 1 - (n - S i))%nat with i by lia.
    destruct (n - S i)%nat; reflexivity.
Qed.

Lemma no_across_not_deleted :
  forall r, no_across (mr_delInfo r) -> deletedAcross r = false.
Proof.
  intros r H. unfold deletedAcross. unfold no_across in H. rewrite H.
  reflexivity.
Qed.

(** Before the loop handles index [k - 1], the step stored at that index
    maps to itself. *)
Lemma Step_map_revert_slice :
  forall (fwd bwd : list StepMap.t) (k : nat) (len_k len' : Z) (s : Step.t),
    length fwd = length bwd -> (k <= length fwd)%nat ->
    there_and_back (skipn k fwd) (skipn k bwd) len_k len' ->
    0 <= Step.from s -> Step.from s <= Step.to s -> Step.to s <= len_k ->
    Step.map s (Mapping.slice (revert_remap fwd bwd k) k) = Some s.
Proof.
  intros fwd bwd k len_k len' s Hlen Hk Hfit H0 H1 H2.
  unfold Step.map, Mapping.mapResult.
  set (mp := Mapping.slice (revert_remap fwd bwd k) k).
  assert (Mapping.from mp = k) as Hfrom by reflexivity.
  assert ((Mapping.to mp - Mapping.from mp)%nat
          = (2 * (length fwd - k))%nat) as Hfuel.
  { subst mp. unfold Mapping.slice, revert_remap.
    cbn [Mapping.to Mapping.from Mapping.maps].
    rewrite length_app, length_rev, length_skipn. lia. }
  rewrite Hfuel, Hfrom.
  destruct (revert_slice_identity (length fwd - k) fwd bwd k len_k len'
              (2 * (length fwd - k)) (Step.from s) 1 0)
    as (d1 & E1 & N1); auto; try lia; [reflexivity|].
  destruct (revert_slice_identity (length fwd - k) fwd bwd k len_k len'
              (2 * (length fwd - k)) (Step.to s) (-1) 0)
    as (d2 & E2 & N2); auto; try lia; [reflexivity|].
  fold mp in E1, E2. rewrite E1, E2.
  rewrite !no_across_not_deleted by assumption. cbn [andb mr_pos].
  rewrite Z.max_r by lia. destruct s; reflexivity.
Qed.

(** The loop of [revertCommit] on the commit just made: it walks the
    documents of the commit backwards and ends on the first one. *)
Lemma revert_loop_restores :
  forall (k : nat) (c : Commit) (ss : list Step.t) (ds : list Doc)
         (d0 dn : Doc) (tr : Transform.t),
    steps_run d0 ss ds dn ->
    steps c = inverted_steps ss ds ->
    (k <= length ss)%nat ->
    nth_error (ds ++ [dn]) k = Some (Transform.doc tr) ->
    let fwd := List.map Step.getMap ss in
    let bwd := List.map Step.getMap (inverted_steps ss ds) in
    let tr' := snd (revert_loop c k (revert_remap fwd bwd k) tr) in
    Transform.doc tr' = d0
    /\ length (Transform.steps tr') = (length (Transform.steps tr) + k)%nat.
Proof.
  induction k as [|i IH]; intros c ss ds d0 dn tr Hrun Hsteps Hk Hdoc fwd bwd.
  - cbn. rewrite (steps_run_first _ _ _ _ Hrun) in Hdoc.
    injection Hdoc as <-. split; [reflexivity|lia].
  - destruct (steps_run_at _ _ _ _ i Hrun ltac:(lia))
      as (s & di & di' & H1 & H2 & H3 & H4 & H5 & H6).
    rewrite Hdoc in H3. injection H3 as <-.
    destruct (steps_run_lengths _ _ _ _ Hrun) as [Lds Linv].
    destruct (Step_apply_size _ _ _ H5) as (A1 & A2 & A3 & A4).
    destruct (Step_invert_apply _ _ _ H5) as [Hback Hmap].
    assert (length fwd = length bwd) as Hlen
        by (subst fwd bwd; rewrite !length_map; lia).
    assert (length fwd = length ss) as Hn
        by (subst fwd; apply length_map).
    assert (Step.map (Step.invert s di)
                     (Mapping.slice (revert_remap fwd bwd (S i)) (i + 1))
            = Some (Step.invert s di)) as Hstep.
    { rewrite Nat.add_1_r.
      pose proof (size_nonneg (Step.slice s)) as Hslice.
      apply (Step_map_revert_slice fwd bwd (S i) (size (Transform.doc tr))
                                   (size dn) _ Hlen ltac:(lia) H6);
        cbn [Step.invert Step.from Step.to]; lia. }
    cbv zeta. cbn [revert_loop]. unfold revert_body.
    rewrite Hsteps, H4, Hstep. unfold Transform.maybeStep. rewrite Hback.
    rewrite appendMap_revert_remap; auto; try lia.
    2:{ subst bwd. rewrite nth_error_map, H4. reflexivity. }
    destruct (IH c ss ds d0 dn
                 (Transform.addStep tr (Step.invert s di) di)
                 Hrun Hsteps ltac:(lia) H2) as [E L].
    fold fwd bwd in E, L. split; [exact E|].
    rewrite L. cbn. rewrite length_app. cbn. lia.
Qed.

Lemma steps_run_snoc :
  forall d ss ds d1 s d2,
    steps_run d ss ds d1 -> Step.apply s d1 = Some d2 ->
    steps_run d (ss ++ [s]) (ds ++ [d1]) d2.
Proof.
  intros d ss ds d1 s d2 H Happly.
  induction H as [d|d s0 d' ss ds d1 Hs0 H IH]; cbn.
  - econstructor; [exact Happly|constructor].
  - econstructor; [exact Hs0|]. apply IH. exact Happly.
Qed.

Lemma steps_run_app :
  forall d ss ds d1 ss' ds' d2,
    steps_run d ss ds d1 -> steps_run d1 ss' ds' d2 ->
    steps_run d (ss ++ ss') (ds ++ ds') d2.
Proof.
  intros d ss ds d1 ss' ds' d2 H H'.
  induction H as [d|d s0 d' ss ds d1 Hs0 H IH]; cbn; [exact H'|].
  econstructor; [exact Hs0|]. apply IH. exact H'.
Qed.

Lemma inverted_steps_app :
  forall ss ds ss' ds',
    length ss = length ds ->
    inverted_steps (ss ++ ss') (ds ++ ds')
    = inverted_steps ss ds ++ inverted_steps ss' ds'.
Proof.
  unfold inverted_steps.
  induction ss as [|s ss IH]; intros [|d ds] ss' ds' H; cbn in *;
    try discriminate; [reflexivity|].
  f_equal. apply IH. lia.
Qed.

(** The transform of a transaction is a run of its steps over its
    [docs]. *)
Lemma transaction_on_run :
  forall (d : Doc) (tr : Transform.t),
    transaction_on d tr ->
    steps_run d (Transform.steps tr) (Transform.docs tr) (Transform.doc tr)
    /\ Mapping.maps (Transform.mapping tr)
       = List.map Step.getMap (Transform.steps tr).
Proof.
  intros d tr H.
  induction H as [time_|tr s d' H IH Happly|tr msg H IH|tr v H IH]; cbn.
  - split; [constructor|reflexivity].
  - destruct IH as [Hrun Hmaps]. split.
    + apply steps_run_snoc; assumption.
    + rewrite Hmaps, map_app. reflexivity.
  - exact IH.
  - exact IH.
Qed.

(** The pending buffers after a sequence of transactions hold the inverses
    and the maps of one run of steps over the documents in between. *)
Lemma edits_on_pending :
  forall (d d' : Doc) (trs : list Transform.t),
    edits_on d trs d' ->
    forall st,
    exists ss ds,
      steps_run d ss ds d'
      /\ uncommittedSteps (snd (edit_trace st trs))
         = uncommittedSteps st ++ inverted_steps ss ds
      /\ uncommittedMaps (snd (edit_trace st trs))
         = uncommittedMaps st ++ List.map Step.getMap ss.
Proof.
  intros d d' trs H.
  induction H as [d|d tr trs d' Htr H IH]; intros st.
  - exists [], []. cbn. rewrite !app_nil_r. repeat split. constructor.
  - destruct (transaction_on_run _ _ Htr) as [Hrun Hmaps].
    destruct (IH (applyTransform tr st)) as (ss & ds & Hrun' & Hs & Hm).
    exists (Transform.steps tr ++ ss), (Transform.docs tr ++ ds).
    cbn [edit_trace].
    destruct (edit_trace (applyTransform tr st) trs) as [ids st'].
    cbn [snd] in *. split; [|split].
    + eapply steps_run_app; eauto.
    + rewrite Hs. cbn [applyTransform uncommittedSteps].
      rewrite inverted_steps_app, app_assoc; [reflexivity|].
      destruct (steps_run_lengths _ _ _ _ Hrun). lia.
    + rewrite Hm. cbn [applyTransform uncommittedMaps].
      rewrite Hmaps, map_app, app_assoc. reflexivity.
Qed.

Lemma reachable_pending_lengths :
  forall (d : Doc) (st : TrackState),
    reachable d st ->
    length (uncommittedSteps st) = length (uncommittedMaps st).
Proof.
  intros d st H.
  induction H as [d|d st tr H IH Htr|d st r message_ time_ H IH Hfresh].
  - reflexivity.
  - destruct (transaction_on_wf _ _ Htr) as (_ & _ & Hdocs & Hmaps).
    cbn. rewrite !length_app, length_map, length_combine, IH, Hdocs, Hmaps.
    lia.
  - unfold applyCommit. destruct (uncommittedSteps st) eqn:E; [|reflexivity].
    rewrite E. exact IH.
Qed.

Lemma revert_loop_transaction_on :
  forall (k : nat) (c : Commit) (d : Doc) (remap : Mapping.t)
         (tr : Transform.t),
    transaction_on d tr ->
    transaction_on d (snd (revert_loop c k remap tr)).
Proof.
  induction k as [|i IH]; intros c d remap tr H; cbn; [exact H|].
  destruct (revert_body c i remap tr) as [remap' tr'] eqn:E.
  apply IH. unfold revert_body, Transform.maybeStep in E.
  destruct (nth_error (steps c) i) as [step|]; [|injection E as <- <-; exact H].
  destruct (Step.map step _) as [remapped|];
    [|injection E as <- <-; exact H].
  destruct (Step.apply remapped (Transform.doc tr)) as [d'|] eqn:A;
    injection E as <- <-; [|exact H].
  apply on_step; assumption.
Qed.

Lemma revert_remap_start :
  forall fwd bwd : list StepMap.t,
    length fwd = length bwd ->
    revert_remap fwd bwd (length fwd) = Mapping.create fwd.
Proof.
  intros fwd bwd H. unfold revert_remap, Mapping.create.
  rewrite H, skipn_all, Nat.sub_diag, Nat.add_0_r. cbn [rev].
  rewrite app_nil_r. reflexivity.
Qed.

Lemma maps_since_last :
  forall (cs : list Commit) (c : Commit),
    maps_since (cs ++ [c]) (length cs) = maps c.
Proof.
  intros cs c. unfold maps_since.
  rewrite skipn_app, skipn_all, Nat.sub_diag. reflexivity.
Qed.

(** C2: after a sequence of edits is folded into one commit, reverting that
    commit at once is accepted and its transaction, a transaction on the
    current document, leaves the document as it was before the edits; it is
    tagged with the revert message. *)
Theorem commit_then_revert_restores :
  forall (d0 d1 : Doc) (st0 : TrackState) (trs : list Transform.t)
         (r : nat) (message_ : string) (time_ time' : Z),
    reachable d0 st0 ->
    uncommittedSteps st0 = [] ->
    edits_on d0 trs d1 ->
    fresh_ref r st0 ->
    uncommittedSteps (snd (edit_trace st0 trs)) <> [] ->
    let st1 := snd (edit_trace st0 trs) in
    let c := new_Commit r message_ time_ (uncommittedSteps st1)
                        (uncommittedMaps st1) in
    let st2 := applyCommit r message_ time_ st1 in
    let result := revertCommit c st2 (Transform.create d1 time') in
    commits st2 = commits st0 ++ [c]
    /\ returned result = true
    /\ transaction_on d1 (result_tr result)
    /\ Transform.doc (result_tr result) = d0
    /\ Transform.trackMeta (result_tr result)
       = Some ("Revert '" ++ message_ ++ "'")%string.
Proof.
  intros d0 d1 st0 trs r message_ time_ time' Hreach Hempty Hedits Hfresh
         Hpending st1 c st2 result.
  pose proof (proj1 (edit_trace_commits trs st0)) as Hsame.
  fold st1 in Hsame, Hpending.
  destruct (applyCommit_appends st1 r message_ time_ Hpending)
    as [Hcommits Hindex].
  { intros x Hx. apply Hfresh. rewrite Hsame in Hx. exact Hx. }
  fold c in Hcommits, Hindex. fold st2 in Hcommits, Hindex.
  rewrite Hsame in Hcommits, Hindex.
  split; [exact Hcommits|].
  destruct (edits_on_pending _ _ _ Hedits st0) as (ss & ds & Hrun & Hs & Hm).
  fold st1 in Hs, Hm.
  assert (uncommittedMaps st0 = []) as Hempty'.
  { pose proof (reachable_pending_lengths _ _ Hreach) as L.
    rewrite Hempty in L. destruct (uncommittedMaps st0); [reflexivity|].
    discriminate. }
  rewrite Hempty in Hs. rewrite Hempty' in Hm. cbn [app] in Hs, Hm.
  destruct (steps_run_lengths _ _ _ _ Hrun) as [Lds Linv].
  assert (steps c = inverted_steps ss ds) as Hsteps by exact Hs.
  assert (maps c = List.map Step.getMap ss) as Hmaps by exact Hm.
  assert (uncommittedSteps st2 = []) as Hclean.
  { subst st2. unfold applyCommit. destruct (uncommittedSteps st1);
      [contradiction|reflexivity]. }
  set (fwd := List.map Step.getMap ss).
  set (bwd := List.map Step.getMap (inverted_steps ss ds)).
  assert (length fwd = length bwd) as Hlen
      by (subst fwd bwd; rewrite !length_map; lia).
  pose proof (revert_loop_restores (length ss) c ss ds d0 d1
                (Transform.create d1 time') Hrun Hsteps (le_n _)
                (steps_run_last _ _ _ _ Hrun)) as Hloop.
  cbv zeta in Hloop. fold fwd bwd in Hloop.
  replace (revert_remap fwd bwd (length ss)) with (Mapping.create fwd)
    in Hloop.
  2:{ rewrite <- (revert_remap_start fwd bwd Hlen). f_equal.
      subst fwd. apply length_map. }
  destruct Hloop as [Hdoc Hcount].
  assert (ss <> []) as Hne.
  { intros ->. inversion Hrun; subst. cbn in Hs. congruence. }
  subst result. unfold revertCommit.
  rewrite Hindex, Hclean, Hcommits, maps_since_last, Hmaps.
  fold fwd. rewrite Hsteps, Linv.
  pose proof (revert_loop_transaction_on (length ss) c d1
                (Mapping.create fwd) (Transform.create d1 time')
                (on_create d1 time')) as Hon.
  destruct (revert_loop c (length ss) (Mapping.create fwd)
                        (Transform.create d1 time')) as [remap' tr'].
  cbn [snd] in *.
  assert (Transform.docChanged tr' = true) as Hchanged.
  { unfold Transform.docChanged.
    destruct (Transform.steps tr') as [|s0 rest] eqn:Esteps; [|reflexivity].
    cbn in Hcount. destruct ss; [congruence|cbn in Hcount; lia]. }
  rewrite Hchanged. cbn [returned result_tr].
  repeat split; auto.
  apply on_trackMeta. exact Hon.
Qed.

Lemma commit_then_revert_restores_witness :
  Transform.doc ex_digits_tr = text "0Qc236789"
  /\ Transform.doc
       (result_tr (revertCommit ex_digits_commit ex_digits_st
                                (Transform.create (text "0Qc236789") 0)))
     = ex_digits.
Proof.
  split; [reflexivity|].
  apply (commit_then_revert_restores ex_digits (text "0Qc236789")
           (track_init ex_digits) [ex_digits_tr] 7 "four steps" 0 0).
  - apply reachable_init.
  - reflexivity.
  - apply edits_cons; [apply transaction_of_on|apply edits_nil].
  - intros c [].
  - cbn. discriminate.
Defined.

(* ================================================================= *)
(** * Further properties *)

(** ** The tracked state under the plugin's transitions *)

Lemma transaction_on_inverted_length :
  forall (d : Doc) (tr : Transform.t),
    transaction_on d tr ->
    length (inverted_steps (Transform.steps tr) (Transform.docs tr))
    = length (Transform.steps tr).
Proof.
  intros d tr H. destruct (transaction_on_run _ _ H) as [Hrun _].
  apply (steps_run_lengths _ _ _ _ Hrun).
Qed.

(** X1: in every reachable state the two pending buffers have the same
    length, and so have the [steps] and [maps] of every commit: entry [i] of
    one belongs to entry [i] of the other. *)
Theorem reachable_buffers_in_step :
  forall (d : Doc) (st : TrackState),
    reachable d st ->
    length (uncommittedSteps st) = length (uncommittedMaps st)
    /\ Forall (fun c => length (steps c) = length (maps c)) (commits st).
Proof.
  intros d st H.
  induction H as [d|d st tr H IH Htr|d st r message_ time_ H IH Hfresh].
  - split; [reflexivity|constructor].
  - destruct IH as [IH1 IH2]. split; [|exact IH2].
    destruct (transaction_on_wf _ _ Htr) as (_ & _ & _ & Hmaps).
    pose proof (transaction_on_inverted_length _ _ Htr) as Hinv.
    unfold inverted_steps in Hinv.
    cbn. rewrite !length_app, Hinv, IH1, Hmaps. reflexivity.
  - destruct IH as [IH1 IH2]. unfold applyCommit.
    destruct (uncommittedSteps st) as [|s pending] eqn:E.
    + rewrite E. auto.
    + cbn. split; [reflexivity|].
      apply Forall_app. split; [exact IH2|].
      constructor; [|constructor]. cbn. exact IH1.
Qed.

Lemma reachable_buffers_in_step_witness :
  length (uncommittedSteps ex_st2) = length (uncommittedMaps ex_st2)
  /\ Forall (fun c => length (steps c) = length (maps c)) (commits ex_st2).
Proof.
  apply (reachable_buffers_in_step (Transform.doc ex_tr2) ex_st2).
  apply ex_st2_reachable.
Defined.

Lemma remap_spans_commit :
  forall (m : list Span.t) (mp : Mapping.t) (s : Span.t),
    In s (remap_spans m mp) ->
    exists s0, In s0 m /\ Span.commit s0 = Span.commit s.
Proof.
  induction m as [|a m IH]; intros mp s Hs; cbn in Hs; [destruct Hs|].
  destruct (_ <? _).
  - destruct Hs as [<-|Hs]; [exists a; cbn; auto|].
    destruct (IH mp s Hs) as (s0 & H0 & E0). exists s0. cbn. auto.
  - destruct (IH mp s Hs) as (s0 & H0 & E0). exists s0. cbn. auto.
Qed.

(** X2: in every reachable state an attribution id is the index of a commit
    of the history, or the index the next commit will take, and the latter
    only while edits are pending. *)
Theorem reachable_attribution_ids_known :
  forall (d : Doc) (st : TrackState),
    reachable d st ->
    forall s k,
      In s (blameMap st) -> Span.commit s = Some k ->
      (k < length (commits st))%nat
      \/ (k = length (commits st) /\ uncommittedSteps st <> []).
Proof.
  intros d st H.
  induction H as [d|d st tr H IH Htr|d st r message_ time_ H IH Hfresh];
    intros s k Hs Hk.
  - destruct Hs as [<-|[]]. discriminate.
  - cbn [applyTransform blameMap commits uncommittedSteps] in *.
    assert (forall s0, In s0 (blameMap st) -> Span.commit s0 = Some k ->
                       (k < length (commits st))%nat
                       \/ (k = length (commits st)
                           /\ uncommittedSteps st ++
                              List.map (fun '(step, d0) => Step.invert step d0)
                                (combine (Transform.steps tr)
                                         (Transform.docs tr)) <> []))
      as Hold.
    { intros s0 Hs0 E. destruct (IH s0 k Hs0 E) as [L|[L P]]; [auto|].
      right. split; [exact L|]. intros Happ.
      apply app_eq_nil in Happ. tauto. }
    destruct (Mapping.maps (Transform.mapping tr)) as [|m0 ms] eqn:Emaps.
    + (* no step: the map holds survivors only *)
      unfold updateBlameMap in Hs. rewrite Emaps in Hs. cbn in Hs.
      destruct (remap_spans_commit _ _ _ Hs) as (s0 & Hs0 & E).
      apply (Hold s0 Hs0). congruence.
    + (* at least one step: something is pending afterwards *)
      destruct (updateBlameMap_attribution (blameMap st)
                  (Transform.mapping tr) (length (commits st)) s Hs)
        as [E|(s0 & Hs0 & E)].
      * rewrite Hk in E. injection E as ->. right. split; [reflexivity|].
        intros Happ. apply app_eq_nil in Happ. destruct Happ as [_ Hinv].
        pose proof (transaction_on_inverted_length _ _ Htr) as L.
        unfold inverted_steps in L. rewrite Hinv in L.
        destruct (transaction_on_wf _ _ Htr) as (_ & _ & _ & Hmaps).
        rewrite Emaps, <- L in Hmaps. discriminate.
      * apply (Hold s0 Hs0). congruence.
  - unfold applyCommit in *.
    destruct (uncommittedSteps st) as [|s0 pending] eqn:E.
    + rewrite E. apply (IH s k Hs Hk).
    + cbn in *. rewrite length_app. cbn.
      destruct (IH s k Hs Hk) as [L|[L _]]; left; lia.
Qed.

Lemma reachable_attribution_ids_known_witness :
  (0 < length (commits ex_hello_st))%nat
  \/ (0%nat = length (commits ex_hello_st)
      /\ uncommittedSteps ex_hello_st <> []).
Proof.
  apply (reachable_attribution_ids_known (text "Hello world") ex_hello_st)
    with (s := Span.mk 5 11 (Some 0%nat)).
  - apply reachable_commit; [|intros c []].
    apply (reachable_transform (text "Hello") (track_init (text "Hello"))
                               ex_hello_tr);
      [apply reachable_init|apply transaction_of_on].
  - cbn. auto.
  - reflexivity.
Defined.




Lemma reachable_spans_shape :
  forall (d : Doc) (st : TrackState),
    reachable d st ->
    (blameMap st = [Span.mk 0 0 None] /\ size d = 0)
    \/ Forall (fun s => 0 <= Span.from s /\ Span.from s < Span.to s
                        /\ Span.to s <= size d) (blameMap st).
Proof.
  intros d st H.
  assert ((blameMap st = [Span.mk 0 0 None] /\ size d = 0)
          \/ chain 0 (blameMap st)) as Hchain.
  { induction H as [d|d st tr H IH Htr|d st r message_ time_ H IH Hfresh].
    - cbn. pose proof (size_nonneg d).
      destruct (Z.eq_dec (size d) 0) as [E|E].
      + left. rewrite E. auto.
      + right. repeat split; lia.
    - right. destruct (reachable_tiles _ _ H) as [Hc Hcov].
      destruct (transaction_on_wf _ _ Htr) as (Hp & Hfit & _).
      apply (updateBlameMap_tiles (blameMap st) (Transform.mapping tr)
               (length (commits st)) _ _ Hp Hfit (size_nonneg d) Hc Hcov).
    - unfold applyCommit. destruct (uncommittedSteps st); exact IH. }
  destruct Hchain as [Hinit|Hchain]; [left; exact Hinit|right].
  destruct (reachable_tiles _ _ H) as [_ Hcov].
  apply Forall_forall. intros s Hs.
  assert (forall m lo, chain lo m -> In s m ->
                       lo <= Span.from s /\ Span.from s < Span.to s) as Hin.
  { induction m as [|a m IHm]; intros lo Hc Hin; [destruct Hin|].
    cbn in Hc. destruct Hc as (H1 & H2 & H3).
    destruct Hin as [<-|Hin]; [auto|].
    destruct (IHm _ H3 Hin). split; lia. }
  destruct (Hin _ _ Hchain Hs) as [Hlo Hne].
  repeat split; auto.
  assert (0 <= Span.to s - 1 < size d) as R.
  { apply Hcov. exists s. split; [exact Hs|]. unfold in_span. lia. }
  lia.
Qed.

(** X4: in every reachable state each span lies inside the document and is
    not empty; the one exception is the initial map of an empty document,
    whose single span is [[0, 0)]. *)
Theorem reachable_spans_inside :
  forall (d : Doc) (st : TrackState),
    reachable d st ->
    (blameMap st = [Span.mk 0 0 None] /\ size d = 0)
    \/ Forall (fun s => 0 <= Span.from s /\ Span.from s < Span.to s
                        /\ Span.to s <= size d) (blameMap st).
Proof. exact reachable_spans_shape. Qed.

Lemma reachable_spans_inside_witness :
  (blameMap ex_st2 = [Span.mk 0 0 None] /\ size (Transform.doc ex_tr2) = 0)
  \/ Forall (fun s => 0 <= Span.from s /\ Span.from s < Span.to s
                      /\ Span.to s <= size (Transform.doc ex_tr2))
            (blameMap ex_st2).
Proof.
  apply (reachable_spans_inside (Transform.doc ex_tr2) ex_st2).
  apply ex_st2_reachable.
Defined.

Lemma transaction_on_unchanged :
  forall (d : Doc) (tr : Transform.t),
    transaction_on d tr -> Transform.docChanged tr = false ->
    Transform.doc tr = d.
Proof.
  intros d tr H Hsteps. destruct (transaction_on_run _ _ H) as [Hrun _].
  unfold Transform.docChanged in Hsteps.
  destruct (Transform.steps tr); [|discriminate].
  inversion Hrun. reflexivity.
Qed.

Lemma track_apply_reachable_aux :
  forall (d : Doc) (st : TrackState) (tr : Transform.t) (r : nat),
    reachable d st -> transaction_on d tr -> fresh_ref r st ->
    reachable (Transform.doc tr) (track_apply r tr st).
Proof.
  intros d st tr r Hreach Htr Hfresh. unfold track_apply.
  assert (reachable (Transform.doc tr)
            (if Transform.docChanged tr then applyTransform tr st else st)
          /\ fresh_ref r (if Transform.docChanged tr
                          then applyTransform tr st else st)) as [Hmid Hf].
  { destruct (Transform.docChanged tr) eqn:E.
    - split; [apply reachable_transform with (d := d); assumption|].
      exact Hfresh.
    - rewrite (transaction_on_unchanged _ _ Htr E). auto. }
  destruct (Transform.trackMeta tr) as [msg|]; [|exact Hmid].
  destruct (truthy_string msg); [|exact Hmid].
  apply reachable_commit; assumption.
Qed.

(** X5: the plugin's [apply] stays within the reachable states: applied to
    a reachable state and a transaction on its document, it gives a
    reachable state of the transaction's document. *)
Theorem track_apply_reachable :
  forall (d : Doc) (st : TrackState) (tr : Transform.t) (r : nat),
    reachable d st -> transaction_on d tr -> fresh_ref r st ->
    reachable (Transform.doc tr) (track_apply r tr st).
Proof. exact track_apply_reachable_aux. Qed.

Lemma track_apply_reachable_witness :
  reachable (text "aXbYc") ex_abc_st2.
Proof.
  apply (track_apply_reachable (text "aXbc") ex_abc_st1 ex_abc_tr2 101).
  - apply (track_apply_reachable (text "abc") (track_init (text "abc"))
                                 ex_abc_tr1 100).
    + apply reachable_init.
    + apply on_trackMeta, transaction_of_on.
    + intros c [].
  - apply on_trackMeta, transaction_of_on.
  - intros c [<-|[]]. cbn. lia.
Defined.

(** X6: a dispatched transaction makes a commit exactly when its message is
    not empty and something is pending once its own steps are taken in; the
    commit then holds everything pending, the steps of the transaction
    included, and the commits before it stay in place. *)
Theorem track_apply_commits :
  forall (d : Doc) (st : TrackState) (tr : Transform.t) (r : nat),
    transaction_on d tr ->
    let pending :=
      uncommittedSteps st
      ++ inverted_steps (Transform.steps tr) (Transform.docs tr) in
    let pendingMaps :=
      uncommittedMaps st ++ Mapping.maps (Transform.mapping tr) in
    match Transform.trackMeta tr, pending with
    | Some (String a rest), _ :: _ =>
        commits (track_apply r tr st)
        = commits st ++ [new_Commit r (String a rest) (Transform.time tr)
                                    pending pendingMaps]
        /\ uncommittedSteps (track_apply r tr st) = []
        /\ uncommittedMaps (track_apply r tr st) = []
    | _, _ =>
        commits (track_apply r tr st) = commits st
        /\ uncommittedSteps (track_apply r tr st) = pending
        /\ uncommittedMaps (track_apply r tr st) = pendingMaps
    end.
Proof.
  intros d st tr r Htr pending pendingMaps.
  assert (uncommittedSteps
            (if Transform.docChanged tr then applyTransform tr st else st)
          = pending
          /\ uncommittedMaps
               (if Transform.docChanged tr then applyTransform tr st else st)
             = pendingMaps
          /\ commits
               (if Transform.docChanged tr then applyTransform tr st else st)
             = commits st) as (Hs & Hm & Hc).
  { subst pending pendingMaps.
    destruct (Transform.docChanged tr) eqn:E; [repeat split|].
    destruct (transaction_on_wf _ _ Htr) as (_ & _ & Hdocs & Hmaps).
    unfold Transform.docChanged in E.
    destruct (Transform.steps tr); [|discriminate].
    destruct (Mapping.maps (Transform.mapping tr)); [|discriminate].
    cbn. rewrite !app_nil_r. auto. }
  unfold track_apply.
  set (mid := if Transform.docChanged tr then applyTransform tr st else st)
    in *.
  destruct (Transform.trackMeta tr) as [[|a rest]|]; cbn [truthy_string].
  - destruct pending; auto.
  - unfold applyCommit. rewrite Hs, Hm, Hc.
    destruct pending; cbn; auto.
  - destruct pending; auto.
Qed.

Lemma track_apply_commits_witness :
  commits ex_abc_st1
  = [] ++ [new_Commit 100 "c0" 0 [Step.ReplaceStep 1 2 []]
                      [StepMap.mk [(1, 0, 1)] false]]
  /\ uncommittedSteps ex_abc_st1 = []
  /\ uncommittedMaps ex_abc_st1 = [].
Proof.
  apply (track_apply_commits (text "abc") (track_init (text "abc"))
                             ex_abc_tr1 100).
  apply on_trackMeta, transaction_of_on.
Defined.

Lemma apply_all_app :
  forall (ss ss' : list Step.t) (d d' : Doc),
    apply_all ss d = Some d' ->
    apply_all (ss ++ ss') d = apply_all ss' d'.
Proof.
  induction ss as [|s ss IH]; intros ss' d d' H; cbn in *.
  - injection H as ->. reflexivity.
  - destruct (Step.apply s d); [|discriminate]. apply IH. exact H.
Qed.

Lemma steps_run_undo :
  forall d ss ds d',
    steps_run d ss ds d' ->
    apply_all (rev (inverted_steps ss ds)) d' = Some d.
Proof.
  intros d ss ds d' H.
  induction H as [d|d s d1 ss ds d' Happly H IH]; [reflexivity|].
  unfold inverted_steps in *. cbn [combine List.map rev].
  rewrite (apply_all_app _ _ _ _ IH). cbn.
  destruct (Step_invert_apply _ _ _ Happly) as [-> _]. reflexivity.
Qed.

(** X7: the inverted steps that [applyTransform] stores undo the edits:
    applied last first to the current document, the steps pending after a
    sequence of transactions give back the document the sequence started
    from. *)
Theorem pending_steps_undo :
  forall (d0 d1 : Doc) (st0 : TrackState) (trs : list Transform.t),
    uncommittedSteps st0 = [] ->
    edits_on d0 trs d1 ->
    apply_all (rev (uncommittedSteps (snd (edit_trace st0 trs)))) d1
    = Some d0.
Proof.
  intros d0 d1 st0 trs Hempty Hedits.
  destruct (edits_on_pending _ _ _ Hedits st0) as (ss & ds & Hrun & Hs & _).
  rewrite Hs, Hempty. cbn [app]. apply steps_run_undo. exact Hrun.
Qed.

Lemma pending_steps_undo_witness :
  apply_all
    (rev (uncommittedSteps
            (snd (edit_trace (track_init ex_digits) [ex_digits_tr]))))
    (text "0Qc236789")
  = Some ex_digits.
Proof.
  apply (pending_steps_undo ex_digits (text "0Qc236789")
                            (track_init ex_digits) [ex_digits_tr]).
  - reflexivity.
  - apply edits_cons; [apply transaction_of_on|apply edits_nil].
Defined.

(** X8: [doCommit] reports [true] whatever happens next.  Dispatched on a
    state with nothing pending, or with an empty message, its transaction
    leaves the state as it is; otherwise it appends one commit that carries
    the message and the pending buffers, and empties the buffers. *)
Theorem doCommit_dispatch :
  forall (message_ : string) (st : TrackState) (r : nat) (d : Doc)
         (time_ : Z),
    let result := doCommit message_ (Transform.create d time_) in
    let st' := track_apply r (result_tr result) st in
    returned result = true
    /\ match message_, uncommittedSteps st with
       | String _ _, _ :: _ =>
           commits st'
           = commits st ++ [new_Commit r message_ time_ (uncommittedSteps st)
                                       (uncommittedMaps st)]
           /\ uncommittedSteps st' = [] /\ uncommittedMaps st' = []
           /\ blameMap st' = blameMap st
       | _, _ => st' = st
       end.
Proof.
  intros message_ st r d time_ result st'. split; [reflexivity|].
  subst st' result. unfold track_apply, doCommit. cbn.
  destruct message_ as [|a rest]; cbn.
  - destruct (uncommittedSteps st); reflexivity.
  - unfold applyCommit. destruct (uncommittedSteps st); cbn; auto.
Qed.

(** ** revertCommit on any state *)




(** ** The highlight plugin: clearing, later commits, unknown commits *)

(** X10: [highlightCommit(c)] followed by [clearHighlightCommit(c)] brings
    the overlay back to its initial state, whatever it was before and
    whether or not the document changed in between. *)
Theorem highlight_add_then_clear :
  forall (D : DecorationSetOps) (c : Commit) (tr1 tr2 : Transform.t)
         (prev : HighlightState) (tracked1 tracked2 : TrackState)
         (doc1 doc2 : Doc),
    Transform.highlightMeta tr1
    = Some (mkHighlightMeta (JObject c) JUndefined) ->
    Transform.highlightMeta tr2
    = Some (mkHighlightMeta JUndefined (JObject c)) ->
    highlight_apply tr2 (highlight_apply tr1 prev tracked1 doc1) tracked2 doc2
    = highlight_init.
Proof.
  intros D c tr1 tr2 prev tracked1 tracked2 doc1 doc2 M1 M2.
  assert (js_strict_eq (commit (highlight_apply tr1 prev tracked1 doc1))
                       (JObject c) = true) as Hactive.
  { unfold highlight_apply. rewrite M1. cbn.
    destruct (js_strict_eq (commit prev) (JObject c)) eqn:E; cbn.
    - rewrite (js_strict_eq_undefined_object _ (JObject c) eq_refl E).
      destruct (Transform.docChanged tr1 && js_truthy (commit prev));
        exact E.
    - apply Nat.eqb_refl. }
  unfold highlight_apply at 1. rewrite M2. cbn. rewrite Hactive.
  reflexivity.
Qed.

Lemma highlight_add_then_clear_witness :
  highlight_apply
    (result_tr (clearHighlightCommit (JObject ex_abc_c1)
                                     (Transform.create (text "aXbYc") 0)))
    (highlight_apply
       (result_tr (highlightCommit (JObject ex_abc_c1)
                                   (Transform.create (text "aXbYc") 0)))
       highlight_init ex_abc_st2 (text "aXbYc"))
    ex_abc_st2 (text "aXbYc")
  = highlight_init.
Proof.
  apply (highlight_add_then_clear ListDecorations ex_abc_c1); reflexivity.
Defined.

Lemma highlight_filter_span_shape :
  forall (cs : list Commit) (add_ : JsCommit) (span : Span.t),
    highlight_filter cs add_ span = true -> Span.commit span <> None.
Proof.
  intros cs add_ span H E. unfold highlight_filter in H. rewrite E in H.
  discriminate.
Qed.

(** X11: in a reachable state, [add] of the commit at an index other than
    [0] yields one decoration for each span attributed to it, in map order
    and with the range of the span, and none for any other span; every such
    range is a non-empty range of the document. *)
Theorem highlight_later_commit_decorations :
  forall (d : Doc) (st : TrackState) (i : nat) (c : Commit),
    reachable d st ->
    nth_error (commits st) (S i) = Some c ->
    highlight_decos (commits st) (blameMap st) (JObject c)
    = List.map
        (fun span =>
           mkDecoration (Span.from span) (Span.to span) "commit-blame-marker")
        (filter (fun span => commit_is (Span.commit span) (S i))
                (blameMap st))
    /\ Forall (fun deco_ => 0 <= deco_from deco_ /\ deco_from deco_ < deco_to deco_
                            /\ deco_to deco_ <= size d)
              (highlight_decos (commits st) (blameMap st) (JObject c)).
Proof.
  intros d st i c Hreach Hc.
  pose proof (reachable_refs_distinct _ _ Hreach) as Hnd.
  assert (forall span,
             highlight_filter (commits st) (JObject c) span
             = commit_is (Span.commit span) (S i)) as Hfilter.
  { intros span.
    pose proof (highlight_filter_later_commit (commits st) c i span Hnd Hc)
      as Hiff.
    unfold commit_is.
    destruct (highlight_filter (commits st) (JObject c) span) eqn:F.
    - rewrite (proj1 Hiff eq_refl). symmetry. apply Nat.eqb_refl.
    - destruct (Span.commit span) as [k|]; [|reflexivity].
      destruct (Nat.eqb_spec k (S i)) as [->|]; [|reflexivity].
      discriminate (proj2 Hiff eq_refl). }
  unfold highlight_decos. split.
  - f_equal. apply filter_ext. exact Hfilter.
  - apply Forall_forall. intros deco_ Hin.
    apply in_map_iff in Hin. destruct Hin as (span & <- & Hspan).
    apply filter_In in Hspan. destruct Hspan as [Hspan Hf].
    cbn [deco_from deco_to].
    destruct (reachable_spans_shape _ _ Hreach) as [[Hinit _]|Hall].
    + rewrite Hinit in Hspan. destruct Hspan as [<-|[]].
      apply highlight_filter_span_shape in Hf. cbn in Hf. congruence.
    + apply (proj1 (Forall_forall _ _) Hall span Hspan).
Qed.

Lemma highlight_later_commit_decorations_witness :
  highlight_decos (commits ex_abc_st2) (blameMap ex_abc_st2)
                  (JObject ex_abc_c1)
  = [mkDecoration 3 4 "commit-blame-marker"].
Proof.
  apply (highlight_later_commit_decorations (text "aXbYc") ex_abc_st2 0
                                            ex_abc_c1).
  - apply (track_apply_reachable_aux (text "aXbc") ex_abc_st1 ex_abc_tr2 101).
    + apply (track_apply_reachable_aux (text "abc") (track_init (text "abc"))
                                       ex_abc_tr1 100).
      * apply reachable_init.
      * apply on_trackMeta, transaction_of_on.
      * intros x [].
    + apply on_trackMeta, transaction_of_on.
    + intros x [<-|[]]. cbn. lia.
  - reflexivity.
Defined.

(** X12: [add] of a commit that is not in the history (and not already
    active) makes it the active commit with an empty list of decorations. *)
Theorem highlight_unknown_commit :
  forall (D : DecorationSetOps) (c : Commit) (tr : Transform.t)
         (prev : HighlightState) (tracked : TrackState) (stateDoc : Doc),
    ~ found_by_identity c (commits tracked) ->
    js_strict_eq (commit prev) (JObject c) = false ->
    Transform.highlightMeta tr
    = Some (mkHighlightMeta (JObject c) JUndefined) ->
    highlight_apply tr prev tracked stateDoc
    = mkHighlightState (DecorationSet_create stateDoc []) (JObject c).
Proof.
  intros D c tr prev tracked stateDoc Hnot Hprev M.
  unfold highlight_apply. rewrite M. cbn. rewrite Hprev. cbn.
  assert (forall blame,
             filter (highlight_filter (commits tracked) (JObject c)) blame
             = []) as Hnone.
  { induction blame as [|span blame IH]; [reflexivity|]. cbn.
    rewrite IH.
    destruct (highlight_filter (commits tracked) (JObject c) span) eqn:F;
      [|reflexivity].
    exfalso. apply Hnot. unfold highlight_filter in F.
    destruct (Span.commit span) as [[|k]|]; try discriminate.
    unfold js_index in F.
    destruct (nth_error (commits tracked) (S k)) as [x|] eqn:Hx;
      [|discriminate].
    cbn in F. apply Nat.eqb_eq in F.
    exists x. split; [eapply nth_error_In; eauto|exact F]. }
  unfold highlight_decos. rewrite Hnone. reflexivity.
Qed.

Lemma highlight_unknown_commit_witness :
  highlight_apply
    (result_tr (highlightCommit (JObject ex_digits_commit)
                                (Transform.create (text "aXbYc") 0)))
    highlight_init ex_abc_st2 (text "aXbYc")
  = mkHighlightState [] (JObject ex_digits_commit).
Proof.
  apply (highlight_unknown_commit ListDecorations ex_digits_commit).
  - intros (x & [<-|[<-|[]]] & E); discriminate.
  - reflexivity.
  - reflexivity.
Defined.

(** ** insertIntoBlameMap, token by token *)

Lemma attributed_nil : forall x c, ~ attributed [] x c.
Proof. intros x c (s & [] & _). Qed.

Lemma attributed_cons :
  forall s m x c,
    attributed (s :: m) x c
    <-> (in_span s x /\ Span.commit s = c) \/ attributed m x c.
Proof.
  intros s m x c. unfold attributed. split.
  - intros (s' & [<-|Hin] & Hx & Hc); [left; auto|right; eauto].
  - intros [[Hx Hc]|(s' & Hin & Hx & Hc)]; [exists s|exists s']; cbn; auto.
Qed.

Lemma attributed_app :
  forall m1 m2 x c,
    attributed (m1 ++ m2) x c <-> attributed m1 x c \/ attributed m2 x c.
Proof.
  induction m1 as [|s m1 IH]; intros m2 x c; cbn.
  - split; [auto|]. intros [H|H]; [destruct (attributed_nil _ _ H)|exact H].
  - rewrite !attributed_cons, IH. tauto.
Qed.

Lemma attributed_ge :
  forall m lo x c, chain lo m -> attributed m x c -> lo <= x.
Proof.
  intros m lo x c Hc (s & Hs & Hx & _).
  apply (chain_covered_ge m lo x Hc). exists s. auto.
Qed.

Lemma commit_is_true :
  forall c id, commit_is c id = true <-> c = Some id.
Proof.
  intros [k|] id; cbn; [|split; discriminate].
  rewrite Nat.eqb_eq. split; congruence.
Qed.

Ltac attr_cases x from_ to_ next :=
  destruct (Z.lt_ge_cases x from_); destruct (Z.lt_ge_cases x to_);
  destruct (Z.lt_ge_cases x (Span.from next));
  destruct (Z.lt_ge_cases x (Span.to next));
  intuition lia.

Lemma insert_absorb_attributed :
  forall (after : list Span.t) (lo from_ to_ : Z) (id : nat),
    chain lo after -> from_ <= lo -> from_ < to_ ->
    match insert_absorb after from_ to_ id with
    | (after', from', to') =>
        forall x c,
          ((from_ <= x < to' /\ c = Some id) \/ attributed after' x c)
          <-> ((from_ <= x < to_ /\ c = Some id)
               \/ (~ from_ <= x < to_ /\ attributed after x c))
    end.
Proof.
  induction after as [|next rest IH]; intros lo from_ to_ id Hc Hlo Hlt.
  - cbn. intros x c. pose proof (attributed_nil x c). tauto.
  - cbn in Hc. destruct Hc as (H1 & H2 & H3). cbn [insert_absorb].
    destruct (commit_is (Span.commit next) id) eqn:Ecommit.
    + apply commit_is_true in Ecommit.
      destruct (Z.gtb_spec (Span.from next) to_) as [G|G].
      * intros x c. rewrite attributed_cons. unfold in_span.
        pose proof (attributed_ge rest _ x c H3). intuition lia.
      * replace (Z.min from_ (Span.from next)) with from_ by lia.
        specialize (IH (Span.to next) from_ (Z.max to_ (Span.to next)) id
                       H3 ltac:(lia) ltac:(lia)).
        destruct (insert_absorb rest from_ (Z.max to_ (Span.to next)) id)
          as [[after' from'] to'].
        intros x c. rewrite (IH x c), attributed_cons.
        unfold in_span. pose proof (attributed_ge rest _ x c H3).
        rewrite Ecommit.
        assert (c = Some id <-> Some id = c) as Hsym by (split; congruence).
        rewrite <- Hsym.
        destruct (Z.lt_ge_cases x (Z.max to_ (Span.to next)));
          destruct (Z.lt_ge_cases x to_);
          destruct (Z.le_gt_cases from_ x);
          intuition lia.
    + assert (Span.commit next <> Some id) as Hne.
      { intros E. apply commit_is_true in E. congruence. }
      rewrite Z.geb_leb.
      destruct (Z.leb_spec to_ (Span.from next)) as [G|G].
      * intros x c. rewrite attributed_cons. unfold in_span.
        pose proof (attributed_ge rest _ x c H3). intuition lia.
      * destruct (Z.gtb_spec (Span.to next) to_) as [T|T].
        -- intros x c. rewrite !attributed_cons. unfold in_span. cbn.
           pose proof (attributed_ge rest _ x c H3). intuition lia.
        -- specialize (IH (Span.to next) from_ to_ id H3 ltac:(lia) Hlt).
           destruct (insert_absorb rest from_ to_ id)
             as [[after' from'] to'].
           intros x c. specialize (IH x c). rewrite attributed_cons.
           unfold in_span. pose proof (attributed_ge rest _ x c H3).
           intuition lia.
Qed.

Lemma insert_loops_attributed :
  forall (m : list Span.t) (lo from_ to_ : Z) (id : nat),
    chain lo m -> lo <= from_ -> from_ < to_ ->
    let result :=
      let (before, after) := insert_scan m from_ to_ id in
      let '(after', from', to') := insert_absorb after from_ to_ id in
      before ++ Span.mk from' to' (Some id) :: after' in
    forall x c,
      attributed result x c
      <-> ((from_ <= x < to_ /\ c = Some id)
           \/ (~ from_ <= x < to_ /\ attributed m x c)).
Proof.
  induction m as [|next rest IH]; intros lo from_ to_ id Hc Hlo Hlt.
  - cbn. intros x c. rewrite attributed_cons. unfold in_span. cbn.
    pose proof (attributed_nil x c).
    assert (c = Some id <-> Some id = c) as Hsym by (split; congruence).
    intuition lia.
  - cbn in Hc. destruct Hc as (H1 & H2 & H3).
    assert (forall c : option nat, c = Some id <-> Some id = c) as Hsym
        by (split; congruence).
    assert (forall lo',
               lo <= lo' -> lo' <= Span.from next -> from_ <= lo' ->
               let result :=
                 let '(after', from', to') :=
                   insert_absorb (next :: rest) from_ to_ id in
                 [] ++ Span.mk from' to' (Some id) :: after' in
               forall x c,
                 attributed result x c
                 <-> ((from_ <= x < to_ /\ c = Some id)
                      \/ (~ from_ <= x < to_
                          /\ attributed (next :: rest) x c)))
      as Hdirect.
    { intros lo' L1 L2 L3. cbv zeta.
      pose proof (insert_absorb_spec (next :: rest) lo' from_ to_ id) as A.
      pose proof (insert_absorb_attributed (next :: rest) lo' from_ to_ id)
        as B.
      cbn [chain] in A, B.
      specialize (A ltac:(auto) L3 Hlt). specialize (B ltac:(auto) L3 Hlt).
      destruct (insert_absorb (next :: rest) from_ to_ id)
        as [[after' from'] to'].
      destruct A as (-> & L & C & _). cbn [app].
      intros x c. rewrite attributed_cons, <- (B x c). unfold in_span. cbn.
      rewrite <- (Hsym c). tauto. }
    cbv zeta. cbn [insert_scan].
    destruct (commit_is (Span.commit next) id) eqn:Ecommit.
    + pose proof (proj1 (commit_is_true _ _) Ecommit) as Eid.
      destruct (Z.geb_spec (Span.to next) from_) as [G|G].
      * destruct (Z.le_gt_cases from_ (Span.from next)) as [F|F].
        -- exact (Hdirect (Span.from next) ltac:(lia) ltac:(lia) ltac:(lia)).
        -- cbn [insert_absorb]. rewrite Ecommit.
           destruct (Z.gtb_spec (Span.from next) to_) as [T|T]; [lia|].
           pose proof (insert_absorb_spec rest (Span.to next)
                         (Z.min from_ (Span.from next))
                         (Z.max to_ (Span.to next)) id H3
                         ltac:(lia) ltac:(lia)) as A.
           pose proof (insert_absorb_attributed rest (Span.to next)
                         (Z.min from_ (Span.from next))
                         (Z.max to_ (Span.to next)) id H3
                         ltac:(lia) ltac:(lia)) as B.
           destruct (insert_absorb rest (Z.min from_ (Span.from next))
                                   (Z.max to_ (Span.to next)) id)
             as [[after' from'] to'].
           destruct A as (-> & L & C & _). cbn [app].
           intros x c. rewrite !attributed_cons. specialize (B x c).
           unfold in_span. cbn. rewrite Eid, <- (Hsym c).
           pose proof (attributed_ge rest _ x c H3).
           destruct (Z.lt_ge_cases x (Z.max to_ (Span.to next)));
             destruct (Z.lt_ge_cases x to_);
             destruct (Z.le_gt_cases from_ x);
             destruct (Z.le_gt_cases (Span.from next) x);
             intuition lia.
      * specialize (IH (Span.to next) from_ to_ id H3 ltac:(lia) Hlt).
        cbv zeta in IH.
        destruct (insert_scan rest from_ to_ id) as [before after].
        destruct (insert_absorb after from_ to_ id) as [[after' from'] to'].
        cbn [app]. intros x c. rewrite !attributed_cons, (IH x c).
        unfold in_span. pose proof (attributed_ge rest _ x c H3).
        attr_cases x from_ to_ next.
    + destruct (Z.gtb_spec (Span.to next) from_) as [G|G].
      * destruct (Z.ltb_spec (Span.from next) from_) as [F|F].
        -- destruct (Z.gtb_spec (Span.to next) to_) as [T|T].
           ++ cbn [insert_absorb]. rewrite Ecommit, Z.geb_leb.
              destruct (Z.leb_spec to_ (Span.from next)); [lia|].
              destruct (Z.gtb_spec (Span.to next) to_); [|lia].
              cbn [app]. intros x c. rewrite !attributed_cons.
              unfold in_span. cbn. rewrite <- (Hsym c).
              pose proof (attributed_ge rest _ x c H3). attr_cases x from_ to_ next.
           ++ pose proof (insert_absorb_spec rest (Span.to next) from_ to_ id
                            H3 ltac:(lia) Hlt) as A.
              pose proof (insert_absorb_attributed rest (Span.to next)
                            from_ to_ id H3 ltac:(lia) Hlt) as B.
              destruct (insert_absorb rest from_ to_ id)
                as [[after' from'] to'].
              destruct A as (-> & L & C & _). cbn [app].
              intros x c. rewrite !attributed_cons. specialize (B x c).
              unfold in_span. cbn. rewrite <- (Hsym c).
              pose proof (attributed_ge rest _ x c H3). attr_cases x from_ to_ next.
        -- exact (Hdirect (Span.from next) ltac:(lia) ltac:(lia) ltac:(lia)).
      * specialize (IH (Span.to next) from_ to_ id H3 ltac:(lia) Hlt).
        cbv zeta in IH.
        destruct (insert_scan rest from_ to_ id) as [before after].
        destruct (insert_absorb after from_ to_ id) as [[after' from'] to'].
        cbn [app]. intros x c. rewrite !attributed_cons, (IH x c).
        unfold in_span. pose proof (attributed_ge rest _ x c H3).
        attr_cases x from_ to_ next.
Qed.

Lemma attribution_at_attributed :
  forall m x c, attribution_at m x = Some c -> attributed m x c.
Proof.
  induction m as [|s m IH]; intros x c H; cbn in H; [discriminate|].
  apply attributed_cons.
  destruct (Z.leb_spec (Span.from s) x); cbn in H;
    [destruct (Z.ltb_spec x (Span.to s)); cbn in H|].
  - injection H as <-. left. unfold in_span. auto.
  - right. apply IH. exact H.
  - right. apply IH. exact H.
Qed.

Lemma attributed_attribution_at :
  forall m lo x c,
    chain lo m -> attributed m x c -> attribution_at m x = Some c.
Proof.
  induction m as [|s m IH]; intros lo x c Hc H.
  - destruct (attributed_nil _ _ H).
  - cbn in Hc. destruct Hc as (H1 & H2 & H3). cbn.
    apply attributed_cons in H.
    pose proof (attributed_ge m _ x c H3) as Hge.
    unfold in_span in H.
    destruct (Z.leb_spec (Span.from s) x); cbn;
      [destruct (Z.ltb_spec x (Span.to s)); cbn|].
    + destruct H as [[_ <-]|H]; [reflexivity|]. specialize (Hge H). lia.
    + destruct H as [[H _]|H]; [lia|]. apply (IH _ _ _ H3 H).
    + destruct H as [[H _]|H]; [lia|]. apply (IH _ _ _ H3 H).
Qed.

(** The attribution after [insertIntoBlameMap], position by position. *)
Lemma insertIntoBlameMap_at :
  forall (m : list Span.t) (lo from_ to_ : Z) (id : nat) (x : Z),
    chain lo m -> lo <= from_ ->
    attribution_at (insertIntoBlameMap m from_ to_ id) x
    = if (from_ <=? x) && (x <? to_) then Some (Some id)
      else attribution_at m x.
Proof.
  intros m lo from_ to_ id x Hc Hlo.
  destruct (insertIntoBlameMap_chain m lo from_ to_ id Hc Hlo) as [Hc' _].
  unfold insertIntoBlameMap in *.
  destruct (Z.geb_spec from_ to_) as [G|G].
  - destruct (Z.leb_spec from_ x), (Z.ltb_spec x to_); cbn; try reflexivity.
    lia.
  - pose proof (insert_loops_attributed m lo from_ to_ id Hc Hlo G) as Hattr.
    cbv zeta in Hattr.
    set (result := let (before, after) := insert_scan m from_ to_ id in
                   let '(after', from', to') :=
                     insert_absorb after from_ to_ id in
                   before ++ Span.mk from' to' (Some id) :: after') in *.
    destruct ((from_ <=? x) && (x <? to_)) eqn:R.
    + apply andb_true_iff in R. destruct R as [R1 R2].
      apply Z.leb_le in R1. apply Z.ltb_lt in R2.
      apply (attributed_attribution_at _ lo _ _ Hc'). apply Hattr. left.
      split; [lia|reflexivity].
    + assert (~ from_ <= x < to_) as Hout.
      { intros [R1 R2]. apply Z.leb_le in R1. apply Z.ltb_lt in R2.
        rewrite R1, R2 in R. discriminate. }
      destruct (attribution_at m x) as [c|] eqn:E.
      * apply (attributed_attribution_at _ lo _ _ Hc'). apply Hattr. right.
        split; [exact Hout|]. apply attribution_at_attributed. exact E.
      * destruct (attribution_at result x) as [c|] eqn:E'; [|reflexivity].
        apply attribution_at_attributed, Hattr in E'.
        destruct E' as [[R' _]|[_ A]]; [contradiction|].
        rewrite (attributed_attribution_at _ _ _ _ Hc A) in E. discriminate.
Qed.

(** X13: [insertIntoBlameMap] keeps an ordered map ordered (every span not
    empty, each starting at or after the end of the one before) and the
    result covers what the map covered together with [[from, to)]. *)
Theorem insertIntoBlameMap_keeps_order :
  forall (m : list Span.t) (lo from_ to_ : Z) (id : nat),
    chain lo m -> lo <= from_ ->
    chain lo (insertIntoBlameMap m from_ to_ id)
    /\ forall x, covered (insertIntoBlameMap m from_ to_ id) x
                 <-> (covered m x \/ from_ <= x < to_).
Proof. exact insertIntoBlameMap_chain. Qed.

Lemma insertIntoBlameMap_keeps_order_witness :
  chain 0 (insertIntoBlameMap (blameMap ex_st1) 3 7 1)
  /\ forall x, covered (insertIntoBlameMap (blameMap ex_st1) 3 7 1) x
               <-> (covered (blameMap ex_st1) x \/ 3 <= x < 7).
Proof.
  apply (insertIntoBlameMap_keeps_order (blameMap ex_st1) 0 3 7 1).
  - cbn. lia.
  - lia.
Defined.

(** X14: on an ordered map, [insertIntoBlameMap] attributes every position
    of [[from, to)] to the given commit and leaves the attribution of every
    other position as it was. *)
Theorem insertIntoBlameMap_attribution_at :
  forall (m : list Span.t) (lo from_ to_ : Z) (id : nat) (x : Z),
    chain lo m -> lo <= from_ ->
    attribution_at (insertIntoBlameMap m from_ to_ id) x
    = if (from_ <=? x) && (x <? to_) then Some (Some id)
      else attribution_at m x.
Proof. exact insertIntoBlameMap_at. Qed.

Lemma insertIntoBlameMap_attribution_at_witness :
  attribution_at (insertIntoBlameMap (blameMap ex_st1) 3 7 1) 12
  = if (3 <=? 12) && (12 <? 7) then Some (Some 1%nat)
    else attribution_at (blameMap ex_st1) 12.
Proof.
  apply (insertIntoBlameMap_attribution_at (blameMap ex_st1) 0 3 7 1 12).
  - cbn. lia.
  - lia.
Defined.

(** ** updateBlameMap, token by token *)

(** The two ends of a token that the steps keep map to the two ends of its
    image. *)
Lemma token_image_ends :
  forall (ms : list StepMap.t) (len len' x y : Z),
    maps_fit ms len len' -> token_image ms x = Some y ->
    Mapping.map_simple ms x 1 = y
    /\ Mapping.map_simple ms (x + 1) (-1) = y + 1.
Proof.
  induction ms as [|m rest IH]; intros len len' x y Hfit H; cbn in *.
  - injection H as <-. auto.
  - destruct Hfit as (s & o & n & -> & Hs & Ho & Hn & Hlen & Hrest).
    cbn in H. destruct (replace_map_cell s o n x Ho Hn) as [Cl Cr].
    destruct (Z.ltb_spec x s).
    + destruct (Cl ltac:(lia)) as [-> ->]. apply (IH _ _ _ _ Hrest H).
    + destruct (Z.leb_spec (s + o) x); [|discriminate].
      destruct (Cr ltac:(lia)) as [-> ->].
      destruct (IH _ _ _ _ Hrest H) as [E1 E2]. split; [exact E1|].
      rewrite <- E2. f_equal. lia.
Qed.

(** A token that the steps keep does not lie in a range that one of them
    inserted. *)
Lemma token_image_not_inserted :
  forall (ms : list StepMap.t) (len len' x y : Z) (j : nat),
    maps_fit ms len len' -> token_image ms x = Some y ->
    ~ in_inserted ms j y.
Proof.
  induction ms as [|m rest IH]; intros len len' x y j Hfit H Hin.
  - destruct Hin as (s & o & n & Hj & _). destruct j; discriminate.
  - cbn in Hfit.
    destruct Hfit as (s & o & n & -> & Hs & Ho & Hn & Hlen & Hrest).
    cbn in H.
    assert (exists z, token_image rest z = Some y
                      /\ (z + 1 <= s \/ s + n <= z)) as (z & Hz & Hside).
    { destruct (Z.ltb_spec x s); [exists x; split; [exact H|lia]|].
      destruct (Z.leb_spec (s + o) x); [|discriminate].
      exists (x + n - o). split; [exact H|lia]. }
    destruct (token_image_ends _ _ _ _ _ Hrest Hz) as [E1 E2].
    destruct j as [|j].
    + destruct Hin as (s' & o' & n' & Hj & Hy). cbn in Hj, Hy.
      unfold replace_map in Hj. injection Hj as <- <- <-.
      destruct Hside as [L|R].
      * destruct (map_simple_mono rest _ _ (z + 1) s Hrest L) as (M1 & _ & _).
        destruct (map_simple_mono rest _ _ s s Hrest ltac:(lia))
          as (_ & _ & M2).
        lia.
      * destruct (map_simple_mono rest _ _ (s + n) z Hrest R) as (_ & _ & M).
        lia.
    + apply (IH _ _ z y j Hrest Hz).
      destruct Hin as (s' & o' & n' & Hj & Hy). exists s', o', n'. auto.
Qed.

(** Every token of the new document is the image of a token of the old one
    or lies in an inserted range. *)
Lemma token_image_or_inserted :
  forall (ms : list StepMap.t) (len len' y : Z),
    maps_fit ms len len' -> 0 <= y < len' ->
    (exists x, 0 <= x < len /\ token_image ms x = Some y)
    \/ exists j, in_inserted ms j y.
Proof.
  induction ms as [|m rest IH]; intros len len' y Hfit Hy.
  - cbn in Hfit. subst len'. left. exists y. auto.
  - cbn in Hfit.
    destruct Hfit as (s & o & n & -> & Hs & Ho & Hn & Hlen & Hrest).
    destruct (IH _ _ y Hrest Hy) as [(z & Hz & Hzy)|(j & s' & o' & n' & Hj & Hjy)].
    + destruct (Z.lt_ge_cases z s) as [L|L];
        [|destruct (Z.le_gt_cases (s + n) z) as [R|R]].
      * left. exists z. split; [lia|]. cbn.
        destruct (Z.ltb_spec z s); [exact Hzy|lia].
      * left. exists (z - n + o). split; [lia|]. cbn.
        destruct (Z.ltb_spec (z - n + o) s); [lia|].
        destruct (Z.leb_spec (s + o) (z - n + o)); [|lia].
        replace (z - n + o + n - o) with z by lia. exact Hzy.
      * right. exists 0%nat, s, o, n. cbn. split; [reflexivity|].
        destruct (token_image_ends _ _ _ _ _ Hrest Hzy) as [E1 E2].
        destruct (map_simple_mono rest _ _ s z Hrest ltac:(lia)) as (_ & M & _).
        destruct (map_simple_mono rest _ _ (z + 1) (s + n) Hrest ltac:(lia))
          as (M' & _ & _).
        lia.
    + right. exists (S j), s', o', n'. cbn. auto.
Qed.

(** The survivor phase hands a kept token the attribution it had. *)
Lemma remap_spans_at :
  forall (m : list Span.t) (mp : Mapping.t) (len len' x y : Z),
    plain_mapping mp -> maps_fit (Mapping.maps mp) len len' ->
    token_image (Mapping.maps mp) x = Some y ->
    attribution_at (remap_spans m mp) y = attribution_at m x.
Proof.
  intros m mp len len' x y Hp Hfit Hxy.
  destruct (token_image_ends _ _ _ _ _ Hfit Hxy) as [E1 E2].
  induction m as [|span rest IH]; [reflexivity|].
  cbn [remap_spans attribution_at].
  rewrite !plain_mapping_map by assumption.
  set (f' := Mapping.map_simple (Mapping.maps mp) (Span.from span) 1).
  set (t' := Mapping.map_simple (Mapping.maps mp) (Span.to span) (-1)).
  assert (Span.from span <= x -> f' <= y) as F1.
  { intros L. destruct (map_simple_mono _ _ _ _ _ Hfit L) as (_ & M & _).
    subst f'. lia. }
  assert (x + 1 <= Span.from span -> y < f') as F2.
  { intros L. destruct (map_simple_mono _ _ _ _ _ Hfit L) as (M1 & _ & _).
    destruct (map_simple_mono _ _ _ (Span.from span) (Span.from span) Hfit
                ltac:(lia)) as (_ & _ & M2).
    subst f'. lia. }
  assert (x + 1 <= Span.to span -> y < t') as T1.
  { intros L. destruct (map_simple_mono _ _ _ _ _ Hfit L) as (M & _ & _).
    subst t'. lia. }
  assert (Span.to span <= x -> t' <= y) as T2.
  { intros L. destruct (map_simple_mono _ _ _ _ _ Hfit L) as (_ & _ & M).
    subst t'. lia. }
  destruct (Z.leb_spec (Span.from span) x) as [A|A];
    destruct (Z.ltb_spec x (Span.to span)) as [B|B]; cbn [andb].
  - specialize (F1 A). specialize (T1 ltac:(lia)).
    destruct (Z.ltb_spec f' t'); [|lia]. cbn [attribution_at Span.from Span.to
                                                  Span.commit].
    destruct (Z.leb_spec f' y), (Z.ltb_spec y t'); try lia. reflexivity.
  - specialize (T2 B). destruct (Z.ltb_spec f' t'); [|exact IH].
    cbn [attribution_at Span.from Span.to Span.commit].
    destruct (Z.leb_spec f' y), (Z.ltb_spec y t'); try lia; exact IH.
  - specialize (F2 ltac:(lia)). destruct (Z.ltb_spec f' t'); [|exact IH].
    cbn [attribution_at Span.from Span.to Span.commit].
    destruct (Z.leb_spec f' y), (Z.ltb_spec y t'); try lia; exact IH.
  - specialize (F2 ltac:(lia)). destruct (Z.ltb_spec f' t'); [|exact IH].
    cbn [attribution_at Span.from Span.to Span.commit].
    destruct (Z.leb_spec f' y), (Z.ltb_spec y t'); try lia; exact IH.
Qed.

(** The second loop of [updateBlameMap], position by position. *)
Lemma insert_steps_at :
  forall (ms : list StepMap.t) (mp : Mapping.t) (i id : nat)
         (result : list Span.t) (len len' y : Z),
    plain_mapping mp -> maps_fit (Mapping.maps mp) len len' ->
    skipn i (Mapping.maps mp) = ms ->
    chain 0 result ->
    ((attribution_at result y = Some (Some id)
      \/ exists j, (i <= j)%nat /\ in_inserted (Mapping.maps mp) j y) ->
     attribution_at (insert_steps result mp ms i id) y = Some (Some id))
    /\ ((forall j, (i <= j)%nat -> ~ in_inserted (Mapping.maps mp) j y) ->
        attribution_at (insert_steps result mp ms i id) y
        = attribution_at result y).
Proof.
  induction ms as [|m rest IH];
    intros mp i id result len len' y Hp Hfit Hsk Hc.
  - cbn. split; [|reflexivity].
    intros [H|(j & Hj & s & o & n & Hnth & _)]; [exact H|].
    exfalso. assert (length (skipn i (Mapping.maps mp)) = 0%nat) as L
      by (rewrite Hsk; reflexivity).
    rewrite length_skipn in L.
    assert (nth_error (Mapping.maps mp) j <> None) as N by congruence.
    apply nth_error_Some in N. lia.
  - destruct (skipn_cons_nth _ _ _ _ _ Hsk) as [Hnth Hrest].
    destruct (maps_fit_nth _ _ _ _ _ Hfit Hnth)
      as (s & o & n & len_i & -> & Hs & Ho & Hn & Hlen & Hfit').
    cbn [insert_steps]. rewrite forEach_replace_map. cbn [insert_ranges].
    rewrite !plain_mapping_slice_map by assumption.
    rewrite Nat.add_1_r, Hrest. rewrite Hrest in Hfit'.
    replace (s + 0) with s by lia.
    destruct (map_simple_bounds rest _ _ s 1 Hfit' ltac:(auto) ltac:(lia))
      as [B _].
    set (f := Mapping.map_simple rest s 1) in *.
    set (t := Mapping.map_simple rest (s + n) (-1)) in *.
    destruct (insertIntoBlameMap_chain result 0 f t id Hc B) as [C _].
    pose proof (insertIntoBlameMap_at result 0 f t id y Hc B) as Hat.
    destruct (IH mp (S i) id (insertIntoBlameMap result f t id) len len' y
                 Hp Hfit Hrest C) as [IH1 IH2].
    assert (in_inserted (Mapping.maps mp) i y <-> f <= y < t) as Hi.
    { split.
      - intros (s' & o' & n' & Hnth' & H). rewrite Hnth in Hnth'.
        unfold replace_map in Hnth'. injection Hnth' as <- <- <-.
        rewrite Hrest in H. exact H.
      - intros H. exists s, o, n. rewrite Hrest. auto. }
    split.
    + intros Hyes. apply IH1.
      destruct ((f <=? y) && (y <? t)) eqn:R; [left; exact Hat|].
      assert (~ f <= y < t) as Hout.
      { intros [R1 R2]. apply Z.leb_le in R1. apply Z.ltb_lt in R2.
        rewrite R1, R2 in R. discriminate. }
      destruct Hyes as [H|(j & Hj & H)]; [left; rewrite Hat; exact H|].
      right. exists j. split; [|exact H].
      destruct (Nat.eq_dec j i) as [->|]; [|lia].
      exfalso. apply Hout, Hi, H.
    + intros Hno. rewrite IH2 by (intros j Hj; apply Hno; lia).
      rewrite Hat.
      destruct ((f <=? y) && (y <? t)) eqn:R; [|reflexivity].
      apply andb_true_iff in R. destruct R as [R1 R2].
      apply Z.leb_le in R1. apply Z.ltb_lt in R2.
      exfalso. apply (Hno i (le_n _)), Hi. lia.
Qed.

(** [updateBlameMap], position by position. *)
Lemma updateBlameMap_at :
  forall (m : list Span.t) (mp : Mapping.t) (id : nat) (len len' : Z),
    plain_mapping mp -> maps_fit (Mapping.maps mp) len len' -> 0 <= len ->
    weak_chain 0 m ->
    (forall x y,
        token_image (Mapping.maps mp) x = Some y ->
        attribution_at (updateBlameMap m mp id) y = attribution_at m x)
    /\ (forall y,
           0 <= y < len' ->
           (forall x, 0 <= x < len ->
                      token_image (Mapping.maps mp) x <> Some y) ->
           attribution_at (updateBlameMap m mp id) y = Some (Some id)).
Proof.
  intros m mp id len len' Hp Hfit Hlen Hc. unfold updateBlameMap.
  pose proof (remap_spans_chain m mp 0 len len' Hp Hfit Hc) as Hsurv.
  rewrite plain_mapping_map in Hsurv by assumption.
  destruct (map_simple_bounds _ _ _ 0 (-1) Hfit ltac:(auto) ltac:(lia))
    as [B0 _].
  apply (chain_weaken _ _ 0 B0) in Hsurv.
  split.
  - intros x y Hxy.
    destruct (insert_steps_at (Mapping.maps mp) mp 0 id (remap_spans m mp)
                len len' y Hp Hfit eq_refl Hsurv) as [_ Hkeep].
    rewrite Hkeep.
    + apply (remap_spans_at m mp len len' x y Hp Hfit Hxy).
    + intros j _. apply (token_image_not_inserted _ _ _ _ _ j Hfit Hxy).
  - intros y Hy Hnew.
    destruct (insert_steps_at (Mapping.maps mp) mp 0 id (remap_spans m mp)
                len len' y Hp Hfit eq_refl Hsurv) as [Hset _].
    apply Hset. right.
    destruct (token_image_or_inserted _ _ _ y Hfit Hy)
      as [(x & Hx & Hxy)|(j & Hj)].
    + destruct (Hnew x Hx Hxy).
    + exists j. split; [lia|exact Hj].
Qed.

(** A token that one step keeps is found at its image in the new
    document. *)
Lemma Step_apply_token :
  forall (s : Step.t) (d d' : Doc) (x : Z),
    Step.apply s d = Some d' -> 0 <= x < size d ->
    (x < Step.from s ->
     nth_error d' (Z.to_nat x) = nth_error d (Z.to_nat x))
    /\ (Step.to s <= x ->
        nth_error d' (Z.to_nat (x + size (Step.slice s)
                                - (Step.to s - Step.from s)))
        = nth_error d (Z.to_nat x)).
Proof.
  intros s d d' x H Hx.
  destruct (Step_apply_size _ _ _ H) as (A1 & A2 & A3 & A4).
  unfold Step.apply in H.
  destruct ((0 <=? Step.from s) && (Step.from s <=? Step.to s)
            && (Step.to s <=? size d)); [|discriminate].
  injection H as <-. unfold size in *.
  assert (length (firstn (Z.to_nat (Step.from s)) d)
          = Z.to_nat (Step.from s)) as Lf
      by (rewrite length_firstn; lia).
  split; intros Hside.
  - rewrite nth_error_app1 by lia. rewrite nth_error_firstn.
    destruct (Nat.ltb_spec (Z.to_nat x) (Z.to_nat (Step.from s)));
      [reflexivity|lia].
  - rewrite nth_error_app2 by lia. rewrite nth_error_app2 by lia.
    rewrite nth_error_skipn, Lf. f_equal. lia.
Qed.

(** Tokens that a run of steps keeps are found at their images. *)
Lemma steps_run_token :
  forall d ss ds d' (x y : Z),
    steps_run d ss ds d' -> 0 <= x < size d ->
    token_image (List.map Step.getMap ss) x = Some y ->
    0 <= y < size d'
    /\ nth_error d' (Z.to_nat y) = nth_error d (Z.to_nat x).
Proof.
  intros d ss ds d' x y H. revert x y.
  induction H as [d|d s d1 ss ds d' Happly H IH]; intros x y Hx Hxy.
  - cbn in Hxy. injection Hxy as <-. auto.
  - cbn in Hxy.
    destruct (Step_apply_size _ _ _ Happly) as (A1 & A2 & A3 & A4).
    destruct (Step_apply_token _ _ _ x Happly Hx) as [Tl Tr].
    pose proof (size_nonneg (Step.slice s)) as Hn.
    destruct (Z.ltb_spec x (Step.from s)).
    + destruct (IH x y ltac:(lia) Hxy) as [B E]. split; [exact B|].
      rewrite E. apply Tl. lia.
    + destruct (Z.leb_spec (Step.from s + (Step.to s - Step.from s)) x);
        [|discriminate].
      assert (0 <= x + size (Step.slice s) - (Step.to s - Step.from s)
              < size d1) as Hz by lia.
      destruct (IH _ y Hz Hxy) as [B E]. split; [exact B|].
      rewrite E. apply Tr. lia.
Qed.

(** X15: what [applyTransform] does to the attribution map, token by token:
    a token of the old document that the transaction keeps is found at its
    image in the new document and has the attribution it had; every token of
    the new document that is the image of no old token is attributed to
    [commits.length], the index the next commit will take. *)
Theorem applyTransform_attribution :
  forall (d : Doc) (st : TrackState) (tr : Transform.t),
    reachable d st -> transaction_on d tr ->
    (forall x y,
        0 <= x < size d ->
        token_image (Mapping.maps (Transform.mapping tr)) x = Some y ->
        0 <= y < size (Transform.doc tr)
        /\ nth_error (Transform.doc tr) (Z.to_nat y)
           = nth_error d (Z.to_nat x)
        /\ attribution_at (blameMap (applyTransform tr st)) y
           = attribution_at (blameMap st) x)
    /\ (forall y,
           0 <= y < size (Transform.doc tr) ->
           (forall x, 0 <= x < size d ->
                      token_image (Mapping.maps (Transform.mapping tr)) x
                      <> Some y) ->
           attribution_at (blameMap (applyTransform tr st)) y
           = Some (Some (length (commits st)))).
Proof.
  intros d st tr Hreach Htr.
  destruct (reachable_tiles _ _ Hreach) as [Hc _].
  destruct (transaction_on_wf _ _ Htr) as (Hp & Hfit & _).
  destruct (transaction_on_run _ _ Htr) as [Hrun Hmaps].
  destruct (updateBlameMap_at (blameMap st) (Transform.mapping tr)
              (length (commits st)) _ _ Hp Hfit (size_nonneg d) Hc)
    as [Hkeep Hnew].
  split.
  - intros x y Hx Hxy.
    pose proof Hxy as Hxy'. rewrite Hmaps in Hxy'.
    destruct (steps_run_token _ _ _ _ x y Hrun Hx Hxy') as [B E].
    split; [exact B|]. split; [exact E|]. apply (Hkeep x y Hxy).
  - exact Hnew.
Qed.

Lemma applyTransform_attribution_witness :
  (forall x y,
      0 <= x < size ex_digits ->
      token_image (Mapping.maps (Transform.mapping ex_digits_tr)) x = Some y ->
      0 <= y < size (Transform.doc ex_digits_tr)
      /\ nth_error (Transform.doc ex_digits_tr) (Z.to_nat y)
         = nth_error ex_digits (Z.to_nat x)
      /\ attribution_at
           (blameMap (applyTransform ex_digits_tr (track_init ex_digits))) y
         = attribution_at (blameMap (track_init ex_digits)) x)
  /\ (forall y,
         0 <= y < size (Transform.doc ex_digits_tr) ->
         (forall x, 0 <= x < size ex_digits ->
                    token_image (Mapping.maps (Transform.mapping ex_digits_tr))
                                x <> Some y) ->
         attribution_at
           (blameMap (applyTransform ex_digits_tr (track_init ex_digits))) y
         = Some (Some 0%nat)).
Proof.
  apply (applyTransform_attribution ex_digits (track_init ex_digits)
                                    ex_digits_tr).
  - apply reachable_init.
  - apply transaction_of_on.
Defined.

(** X16: a transaction without steps leaves the commits and both pending
    buffers alone, and [applyTransform] with it keeps exactly the spans
    that are not empty, each as it is. *)
Theorem applyTransform_no_steps :
  forall (d : Doc) (st : TrackState) (tr : Transform.t),
    transaction_on d tr -> Transform.docChanged tr = false ->
    blameMap (applyTransform tr st)
    = filter (fun span => Span.from span <? Span.to span) (blameMap st)
    /\ commits (applyTransform tr st) = commits st
    /\ uncommittedSteps (applyTransform tr st) = uncommittedSteps st
    /\ uncommittedMaps (applyTransform tr st) = uncommittedMaps st.
Proof.
  intros d st tr Htr Hsteps.
  destruct (transaction_on_wf _ _ Htr) as (Hp & _ & Hdocs & Hmaps).
  unfold Transform.docChanged in Hsteps.
  destruct (Transform.steps tr) eqn:Es; [|discriminate].
  destruct (Mapping.maps (Transform.mapping tr)) eqn:Em; [|discriminate].
  cbn [applyTransform blameMap commits uncommittedSteps uncommittedMaps].
  rewrite Es, Em, !app_nil_r. cbn. repeat split.
  unfold updateBlameMap. rewrite Em. cbn [insert_steps].
  induction (blameMap st) as [|span rest IH]; [reflexivity|].
  cbn [remap_spans filter]. rewrite !plain_mapping_map by assumption.
  rewrite Em. cbn [Mapping.map_simple]. rewrite IH.
  destruct (Span.from span <? Span.to span); destruct span; reflexivity.
Qed.

Lemma applyTransform_no_steps_witness :
  blameMap (applyTransform (Transform.create [] 0) (track_init []))
  = filter (fun span => Span.from span <? Span.to span)
           (blameMap (track_init []))
  /\ commits (applyTransform (Transform.create [] 0) (track_init []))
     = commits (track_init [])
  /\ uncommittedSteps (applyTransform (Transform.create [] 0) (track_init []))
     = uncommittedSteps (track_init [])
  /\ uncommittedMaps (applyTransform (Transform.create [] 0) (track_init []))
     = uncommittedMaps (track_init []).
Proof.
  apply (applyTransform_no_steps [] (track_init []) (Transform.create [] 0)).
  - apply on_create.
  - reflexivity.
Defined.

(** ** insertIntoBlameMap merges and stays small *)

Lemma no_touching_after_iff :
  forall (m : list Span.t) (prev : option Z) (id : nat),
    no_touching_after prev id m
    <-> (match m, prev with
         | s :: _, Some e => Span.commit s = Some id -> e < Span.from s
         | _, _ => True
         end
         /\ no_touching id m).
Proof.
  induction m as [|a m IH]; intros prev id; [cbn; tauto|].
  cbn [no_touching_after]. rewrite IH, commit_is_true.
  destruct m as [|b m].
  - cbn. destruct prev; tauto.
  - cbn [no_touching].
    destruct (commit_is (Span.commit a) id) eqn:E.
    + apply commit_is_true in E. destruct prev; tauto.
    + assert (Span.commit a <> Some id) as Hne
          by (intros H; apply commit_is_true in H; congruence).
      destruct prev; tauto.
Qed.

(** What the [while] loop leaves starts, if it carries the id, beyond the
    final [to]. *)
Lemma insert_absorb_apart :
  forall (after : list Span.t) (prev : option Z) (from_ to_ : Z) (id : nat),
    no_touching_after prev id after ->
    no_touching_after
      (Some (snd (insert_absorb after from_ to_ id))) id
      (fst (fst (insert_absorb after from_ to_ id))).
Proof.
  induction after as [|next rest IH]; intros prev from_ to_ id H;
    [exact I|].
  cbn [no_touching_after] in H. destruct H as [_ H]. cbn [insert_absorb].
  destruct (commit_is (Span.commit next) id) eqn:E.
  - destruct (Z.gtb_spec (Span.from next) to_).
    + cbn [fst snd no_touching_after]. rewrite E. split; [lia|exact H].
    + apply (IH _ _ _ _ H).
  - rewrite Z.geb_leb. destruct (Z.leb_spec to_ (Span.from next)).
    + cbn [fst snd no_touching_after]. rewrite E.
      split; [discriminate|exact H].
    + destruct (Z.gtb_spec (Span.to next) to_).
      * cbn [fst snd no_touching_after Span.commit]. rewrite E.
        split; [discriminate|exact H].
      * apply (IH _ _ _ _ H).
Qed.

Lemma insert_loops_apart :
  forall (m : list Span.t) (lo from_ to_ : Z) (id : nat) (prev : option Z),
    chain lo m -> lo <= from_ -> from_ < to_ ->
    no_touching_after prev id m ->
    match prev with Some e => e < from_ | None => True end ->
    no_touching_after prev id
      (let (before, after) := insert_scan m from_ to_ id in
       let '(after', from', to') := insert_absorb after from_ to_ id in
       before ++ Span.mk from' to' (Some id) :: after').
Proof.
  induction m as [|next rest IH];
    intros lo from_ to_ id prev Hc Hlo Hlt Hsep Hprev.
  - cbn. rewrite Nat.eqb_refl. auto.
  - cbn in Hc. destruct Hc as (H1 & H2 & H3).
    pose proof Hsep as Hsep'. cbn [no_touching_after] in Hsep'.
    destruct Hsep' as [Hhead Hrest].
    cbn [insert_scan].
    destruct (commit_is (Span.commit next) id) eqn:Ecommit.
    + destruct (Z.geb_spec (Span.to next) from_) as [G|G].
      * (* the loop stops on [next], which is absorbed or left in place *)
        pose proof (insert_absorb_apart (next :: rest) prev from_ to_ id Hsep)
          as Hafter.
        destruct (Z.le_gt_cases from_ (Span.from next)) as [F|F].
        -- pose proof (insert_absorb_spec (next :: rest) (Span.from next)
                         from_ to_ id) as A.
           assert (chain (Span.from next) (next :: rest)) as Hch
               by (cbn [chain]; repeat split; [lia|assumption|assumption]).
           specialize (A Hch F Hlt).
           destruct (insert_absorb (next :: rest) from_ to_ id)
             as [[after' from'] to'].
           destruct A as (-> & _). cbn [fst snd app] in *.
           cbn [no_touching_after Span.commit Span.from Span.to commit_is].
           rewrite Nat.eqb_refl. split; [intros _; exact Hprev|exact Hafter].
        -- cbn [insert_absorb] in *. rewrite Ecommit in *.
           destruct (Z.gtb_spec (Span.from next) to_) as [T|T]; [lia|].
           pose proof (insert_absorb_spec rest (Span.to next)
                         (Z.min from_ (Span.from next))
                         (Z.max to_ (Span.to next)) id H3
                         ltac:(lia) ltac:(lia)) as A.
           destruct (insert_absorb rest (Z.min from_ (Span.from next))
                                   (Z.max to_ (Span.to next)) id)
             as [[after' from'] to'].
           destruct A as (-> & _). cbn [fst snd app] in *.
           cbn [no_touching_after Span.commit Span.from Span.to commit_is].
           rewrite Nat.eqb_refl. split; [|exact Hafter].
           intros _. specialize (Hhead eq_refl).
           destruct prev; [lia|exact I].
      * specialize (IH (Span.to next) from_ to_ id (Some (Span.to next))
                       H3 ltac:(lia) Hlt Hrest G).
        destruct (insert_scan rest from_ to_ id) as [before after].
        destruct (insert_absorb after from_ to_ id) as [[after' from'] to'].
        cbn [app no_touching_after]. rewrite Ecommit. auto.
    + destruct (Z.gtb_spec (Span.to next) from_) as [G|G].
      * destruct (Z.ltb_spec (Span.from next) from_) as [F|F].
        -- destruct (Z.gtb_spec (Span.to next) to_) as [T|T].
           ++ cbn [insert_absorb]. rewrite Ecommit, Z.geb_leb.
              destruct (Z.leb_spec to_ (Span.from next)); [lia|].
              destruct (Z.gtb_spec (Span.to next) to_); [|lia].
              cbn [app no_touching_after Span.commit Span.from Span.to
                       commit_is].
              rewrite Ecommit, Nat.eqb_refl.
              repeat split; try discriminate; auto.
           ++ pose proof (insert_absorb_apart rest None from_ to_ id Hrest)
                as Hafter.
              destruct (insert_absorb rest from_ to_ id)
                as [[after' from'] to'].
              cbn [fst snd app] in *.
              cbn [no_touching_after Span.commit Span.from Span.to
                                     commit_is].
              rewrite Ecommit, Nat.eqb_refl.
              repeat split; try discriminate; auto.
        -- pose proof (insert_absorb_apart (next :: rest) prev from_ to_ id
                         Hsep) as Hafter.
           pose proof (insert_absorb_spec (next :: rest) (Span.from next)
                         from_ to_ id) as A.
           assert (chain (Span.from next) (next :: rest)) as Hch
               by (cbn [chain]; repeat split; [lia|assumption|assumption]).
           specialize (A Hch F Hlt).
           destruct (insert_absorb (next :: rest) from_ to_ id)
             as [[after' from'] to'].
           destruct A as (-> & _). cbn [fst snd app] in *.
           cbn [no_touching_after Span.commit Span.from Span.to commit_is].
           rewrite Nat.eqb_refl. split; [intros _; exact Hprev|exact Hafter].
      * specialize (IH (Span.to next) from_ to_ id None
                       H3 ltac:(lia) Hlt Hrest I).
        destruct (insert_scan rest from_ to_ id) as [before after].
        destruct (insert_absorb after from_ to_ id) as [[after' from'] to'].
        cbn [app no_touching_after]. rewrite Ecommit. auto.
Qed.

(** X17: on an ordered map in which no two neighbouring spans of commit
    [id] touch, [insertIntoBlameMap] leaves no two neighbouring spans of
    [id] touching: what it inserts is merged with every span of [id] it
    overlaps or touches. *)
Theorem insertIntoBlameMap_merges :
  forall (m : list Span.t) (lo from_ to_ : Z) (id : nat),
    chain lo m -> lo <= from_ ->
    no_touching id m ->
    no_touching id (insertIntoBlameMap m from_ to_ id).
Proof.
  intros m lo from_ to_ id Hc Hlo Hm. unfold insertIntoBlameMap.
  destruct (Z.geb_spec from_ to_) as [G|G]; [exact Hm|].
  apply (no_touching_after_iff _ None id).
  apply (insert_loops_apart m lo from_ to_ id None Hc Hlo G); [|exact I].
  apply no_touching_after_iff. split; [|exact Hm].
  destruct m; exact I.
Qed.

Lemma insertIntoBlameMap_merges_witness :
  no_touching 0
    (insertIntoBlameMap
       [Span.mk 0 3 (Some 0%nat); Span.mk 3 6 None; Span.mk 6 9 (Some 0%nat)]
       3 6 0).
Proof.
  apply (insertIntoBlameMap_merges
           [Span.mk 0 3 (Some 0%nat); Span.mk 3 6 None;
            Span.mk 6 9 (Some 0%nat)] 0 3 6 0).
  - cbn. lia.
  - lia.
  - cbn. repeat split; intros; try discriminate; auto.
Defined.

Lemma insert_absorb_length :
  forall (after : list Span.t) (from_ to_ : Z) (id : nat),
    (length (fst (fst (insert_absorb after from_ to_ id)))
     <= length after)%nat.
Proof.
  induction after as [|next rest IH]; intros from_ to_ id; [cbn; lia|].
  cbn [insert_absorb].
  pose proof (IH from_ to_ id).
  pose proof (IH (Z.min from_ (Span.from next))
                 (Z.max to_ (Span.to next)) id).
  destruct (commit_is (Span.commit next) id);
    [destruct (Span.from next >? to_)
    |destruct (Span.from next >=? to_); [|destruct (Span.to next >? to_)]];
    cbn [fst snd length] in *; lia.
Qed.

Lemma insert_scan_length :
  forall (m : list Span.t) (from_ to_ : Z) (id : nat),
    (length (fst (insert_scan m from_ to_ id))
     + length (snd (insert_scan m from_ to_ id))
     <= length m + 1)%nat.
Proof.
  induction m as [|next rest IH]; intros from_ to_ id; [cbn; lia|].
  cbn [insert_scan]. specialize (IH from_ to_ id).
  destruct (insert_scan rest from_ to_ id) as [before after].
  destruct (commit_is (Span.commit next) id);
    [destruct (Span.to next >=? from_)
    |destruct (Span.to next >? from_);
     [destruct (Span.from next <? from_);
      [destruct (Span.to next >? to_)|]|]];
    cbn [fst snd length] in *; lia.
Qed.

(** X18: one call of [insertIntoBlameMap] makes the map at most two spans
    longer, whatever the map and the range. *)
Theorem insertIntoBlameMap_length :
  forall (m : list Span.t) (from_ to_ : Z) (id : nat),
    (length (insertIntoBlameMap m from_ to_ id) <= length m + 2)%nat.
Proof.
  intros m from_ to_ id. unfold insertIntoBlameMap.
  destruct (from_ >=? to_); [lia|].
  pose proof (insert_scan_length m from_ to_ id) as S.
  destruct (insert_scan m from_ to_ id) as [before after].
  pose proof (insert_absorb_length after from_ to_ id) as A.
  destruct (insert_absorb after from_ to_ id) as [[after' from'] to'].
  cbn [fst snd] in *. rewrite length_app. cbn [length]. lia.
Qed.
